(** * wopr-plugin-twitch: the outbound-message governor

    A shallow embedding of [src/rate-limiter.ts] (class [RateLimiter]) and of
    the sending half of [src/chat-client.ts] (class [TwitchChatManager]:
    [splitMessagePublic], [sendMessage], [sendWhisper]), with the properties
    the specification states about them.

    Conventions.
    - JavaScript numbers that hold counts, indices and millisecond timestamps
      are integers of [Z]; nothing in the modelled code produces a fraction
      from integer inputs (the one product [maxLen * 0.6] is discussed where
      it is embedded).
    - [Date.now()] is an explicit argument [now]; a method that mutates
      [this] returns the new object. *)

From Stdlib Require Import Strings.String Strings.Ascii.
From Stdlib Require Import ZArith List Lia Bool.
Import ListNotations.
Open Scope Z_scope.

(** ** The rate limiter ([src/rate-limiter.ts]) *)

Module RateLimiter.

(** The four fields of the class: two declared, two constructor
    parameter properties. *)
Record t : Type := mk {
  tokens : Z;
  lastRefill : Z;
  maxTokens : Z;
  refillIntervalMs : Z
}.

(** Defaults of the constructor parameters. *)
Definition default_maxTokens : Z := 20.
Definition default_refillIntervalMs : Z := 30000.

(** [constructor(maxTokens, refillIntervalMs)], run at time [now]. *)
Definition new (maxTokens refillIntervalMs now : Z) : t :=
  {| tokens := maxTokens;
     lastRefill := now;
     maxTokens := maxTokens;
     refillIntervalMs := refillIntervalMs |}.

(** [setModeratorMode(isMod)]: [this.maxTokens = isMod ? 100 : 20]. *)
Definition setModeratorMode (isMod : bool) (s : t) : t :=
  {| tokens := tokens s;
     lastRefill := lastRefill s;
     maxTokens := if isMod then 100 else 20;
     refillIntervalMs := refillIntervalMs s |}.

(** [refill()]: the lazy window rollover. *)
Definition refill (now : Z) (s : t) : t :=
  if refillIntervalMs s <=? now - lastRefill s
  then {| tokens := maxTokens s;
          lastRefill := now;
          maxTokens := maxTokens s;
          refillIntervalMs := refillIntervalMs s |}
  else s.

(** [tryConsume()]: refill, then take a token if one is left. *)
Definition tryConsume (now : Z) (s : t) : bool * t :=
  let s1 := refill now s in
  if 0 <? tokens s1
  then (true, {| tokens := tokens s1 - 1;
                 lastRefill := lastRefill s1;
                 maxTokens := maxTokens s1;
                 refillIntervalMs := refillIntervalMs s1 |})
  else (false, s1).

(** Consecutive [tryConsume()] calls, one at each time of [ts]; the
    answers in call order and the final object. *)
Fixpoint tryConsumeAll (ts : list Z) (s : t) : list bool * t :=
  match ts with
  | [] => ([], s)
  | now :: ts' =>
      let (ok, s1) := tryConsume now s in
      let (oks, s2) := tryConsumeAll ts' s1 in
      (ok :: oks, s2)
  end.

(** A call at time [now] falls in the current window of [s]: [refill]
    would not roll the window over. *)
Definition in_window (s : t) (now : Z) : Prop :=
  now - lastRefill s < refillIntervalMs s.

(** The data-model invariant of the specification. *)
Definition Inv (s : t) : Prop := 0 <= tokens s <= maxTokens s.

(** Its lower half, with a capacity that is not negative. *)
Definition NonNeg (s : t) : Prop := 0 <= tokens s /\ 0 <= maxTokens s.

(** *** [waitForToken()]

    The loop suspends on [setTimeout]; the timer is a parameter: a timer
    armed at time [now] for [d] milliseconds fires at [wake now d], which
    is never early.  The body runs without the clock moving, so the
    [Date.now()] of the wait computation is the [now] of the attempt just
    made.  [fuel] bounds the number of attempts; the result lists the
    delays slept, the time of the admission and the object then. *)
Section Wait.

Variable wake : Z -> Z -> Z.

Fixpoint waitForToken (fuel : nat) (now : Z) (s : t)
  : option (list Z * Z * t) :=
  match fuel with
  | O => None
  | S fuel' =>
      let (ok, s1) := tryConsume now s in
      if ok then Some ([], now, s1)
      else
        let waitMs := refillIntervalMs s1 - (now - lastRefill s1) in
        let d := Z.max waitMs 100 in
        match waitForToken fuel' (wake now d) s1 with
        | Some (ds, t', s2) => Some (d :: ds, t', s2)
        | None => None
        end
  end.

End Wait.

(** The ideal timer: fires exactly on time. *)
Definition wake_exact (now d : Z) : Z := now + d.

End RateLimiter.

(** ** JavaScript strings

    A string is its sequence of UTF-16 code units; [length], [slice],
    [lastIndexOf] and [trimStart] all work on code units. *)

Module JsString.

Definition code_unit : Type := N.
Definition t : Type := list code_unit.

(** [s.length] *)
Definition len (s : t) : Z := Z.of_nat (length s).

(** U+0020, the one-unit search string [" "]. *)
Definition space : code_unit := 32%N.

(** ECMAScript WhiteSpace and LineTerminator code points, the set
    [trimStart] strips and the regular expression class [\s] matches. *)
Definition is_ws (c : code_unit) : bool :=
  ((9 <=? c) && (c <=? 13) || (c =? 32) || (c =? 160) || (c =? 5760)
   || (8192 <=? c) && (c <=? 8202) || (c =? 8232) || (c =? 8233)
   || (c =? 8239) || (c =? 8287) || (c =? 12288) || (c =? 65279))%N.

(** [s.slice(start, end)]; [None] is an omitted [end].  Negative indices
    count from the end, and both are clamped to the string. *)
Definition slice (s : t) (start : Z) (end_ : option Z) : t :=
  let n := len s in
  let clamp i := if i <? 0 then Z.max (n + i) 0 else Z.min i n in
  let from := clamp start in
  let to := match end_ with Some e => clamp e | None => n end in
  if to <=? from then []
  else firstn (Z.to_nat (to - from)) (skipn (Z.to_nat from) s).

(** The backward scan of [lastIndexOf]: indices [k], [k-1], ..., [0]. *)
Fixpoint lastIndexOf_down (s : t) (c : code_unit) (k : nat) : Z :=
  match nth_error s k with
  | Some x =>
      if (x =? c)%N then Z.of_nat k
      else match k with O => -1 | S k' => lastIndexOf_down s c k' end
  | None =>
      match k with O => -1 | S k' => lastIndexOf_down s c k' end
  end.

(** [s.lastIndexOf(c, position)] for a search string of one code unit:
    the scan starts at [position] clamped between 0 and [s.length - 1]. *)
Definition lastIndexOf (s : t) (c : code_unit) (position : Z) : Z :=
  let start := Z.min (Z.max position 0) (len s - 1) in
  if start <? 0 then -1 else lastIndexOf_down s c (Z.to_nat start).

(** [s.trimStart()] *)
Fixpoint trimStart (s : t) : t :=
  match s with
  | [] => []
  | c :: s' => if is_ws c then trimStart s' else s
  end.

(** [s.trimEnd()]: a code unit stays unless it is whitespace and nothing
    but whitespace follows it. *)
Fixpoint trimEnd (s : t) : t :=
  match s with
  | [] => []
  | c :: s' =>
      match trimEnd s' with
      | [] => if is_ws c then [] else [c]
      | kept => c :: kept
      end
  end.

(** [s.trim()] *)
Definition trim (s : t) : t := trimEnd (trimStart s).

(** [chunks.join(sep)] *)
Fixpoint join (sep : t) (chunks : list t) : t :=
  match chunks with
  | [] => []
  | [c] => c
  | c :: rest => c ++ sep ++ join sep rest
  end.

(** [s.replace(/\s+/g, " ")]: every maximal run of whitespace becomes one
    space. *)
Fixpoint collapse_ws (s : t) : t :=
  match s with
  | [] => []
  | c :: s' =>
      if is_ws c
      then match s' with
           | c' :: _ => if is_ws c' then collapse_ws s' else space :: collapse_ws s'
           | [] => [space]
           end
      else c :: collapse_ws s'
  end.

(** [c.repeat(n)] and [s.repeat(n)] *)
Fixpoint repeat_str (s : t) (n : nat) : t :=
  match n with O => [] | S n' => s ++ repeat_str s n' end.

(** The code units that are not whitespace, in order. *)
Definition non_ws (s : t) : t := filter (fun c => negb (is_ws c)) s.

Definition all_ws (s : t) : Prop := Forall (fun c => is_ws c = true) s.

Definition no_ws (s : t) : Prop := Forall (fun c => is_ws c = false) s.

(** The words of a text: its maximal runs of code units that are not
    whitespace. *)
Fixpoint words (s : t) : list t :=
  match s with
  | [] => []
  | c :: s' =>
      if is_ws c then words s'
      else match s' with
           | [] => [[c]]
           | c' :: _ =>
               if is_ws c' then [c] :: words s'
               else match words s' with
                    | w :: ws => (c :: w) :: ws
                    | [] => [[c]]
                    end
           end
  end.

Definition starts_ws (s : t) : bool :=
  match s with
  | c :: _ => is_ws c
  | [] => false
  end.

(** The code unit at index [i], if there is one. *)
Definition char_at (s : t) (i : Z) : option code_unit :=
  if i <? 0 then None else nth_error s (Z.to_nat i).

(** [q] is the index of the last [c] at or before index [pos], or [-1]
    when there is none: what [lastIndexOf] is meant to find. *)
Definition last_at_or_before (s : t) (c : code_unit) (pos q : Z) : Prop :=
  (q = -1 /\ forall i, 0 <= i <= pos -> char_at s i <> Some c)
  \/ (0 <= q <= pos /\ char_at s q = Some c
      /\ forall i, q < i <= pos -> char_at s i <> Some c).

(** An ASCII literal as a JavaScript string. *)
Definition lit (s : String.string) : t :=
  map Ascii.N_of_ascii (String.list_ascii_of_string s).

Arguments lit s%_string.

End JsString.

(** ** The chat manager ([src/chat-client.ts]) *)

Module TwitchChatManager.

Import JsString.

(** [const TWITCH_MAX_MSG_LENGTH = 500] *)
Definition TWITCH_MAX_MSG_LENGTH : Z := 500.

(** The test [splitAt < maxLen * 0.6].  [splitAt] and [maxLen] are
    integers; the double nearest to 0.6 lies below it by a third of a unit
    in the last place, so for an integer [maxLen] the rounded product is
    the exact [3 * maxLen / 5] whenever that is an integer and otherwise
    stays strictly between the same two integers as the exact value: the
    comparison with an integer is the comparison of [5 * splitAt] with
    [3 * maxLen]. *)
Definition below_threshold (splitAt maxLen : Z) : bool :=
  5 * splitAt <? 3 * maxLen.

(** The split point of one iteration of the loop. *)
Definition split_point (remaining : JsString.t) (maxLen : Z) : Z :=
  let splitAt := lastIndexOf remaining space maxLen in
  if below_threshold splitAt maxLen then maxLen else splitAt.

(** The [while (remaining.length > 0)] loop of [splitMessagePublic];
    [chunks] is the array built so far and [fuel] bounds the number of
    times the loop condition is tested. *)
Fixpoint split_loop (fuel : nat) (maxLen : Z) (remaining : JsString.t)
    (chunks : list JsString.t) : option (list JsString.t) :=
  match fuel with
  | O => None
  | S fuel' =>
      if 0 <? len remaining then
        if len remaining <=? maxLen then Some (chunks ++ [remaining])
        else
          let splitAt := split_point remaining maxLen in
          split_loop fuel' maxLen
            (trimStart (slice remaining splitAt None))
            (chunks ++ [slice remaining 0 (Some splitAt)])
      else Some chunks
  end.

(** [splitMessagePublic(text, maxLen)] with a bound on the loop. *)
Definition splitMessagePublic_fuel (fuel : nat) (text : JsString.t)
    (maxLen : Z) : option (list JsString.t) :=
  if len text <=? maxLen then Some [text]
  else split_loop fuel maxLen text [].

(** The function with a bound that is enough whenever [maxLen >= 1]: the
    loop condition is tested at most once per code unit, and once more. *)
Definition splitMessagePublic (text : JsString.t) (maxLen : Z)
    : option (list JsString.t) :=
  splitMessagePublic_fuel (S (length text)) text maxLen.

(** *** The splitting algorithm, described

    The split point as the specification words it: the last space at or
    before index [maxLen], replaced by [maxLen] when it lies below
    [0.6 * maxLen] or does not exist. *)
Definition is_split_point (remaining : JsString.t) (maxLen p : Z) : Prop :=
  exists q,
    last_at_or_before remaining space maxLen q
    /\ ((5 * q < 3 * maxLen /\ p = maxLen) \/ (3 * maxLen <= 5 * q /\ p = q)).

(** The chunks the loop emits for a remaining text: nothing for the empty
    text; a non-empty text that fits is the last chunk, whole; a longer
    one gives its prefix up to the split point, and the loop goes on with
    the rest, leading whitespace stripped. *)
Inductive loop_chunks (maxLen : Z) : JsString.t -> list JsString.t -> Prop :=
| loop_done : loop_chunks maxLen [] []
| loop_last : forall remaining,
    0 < len remaining <= maxLen ->
    loop_chunks maxLen remaining [remaining]
| loop_split : forall remaining p chunks,
    maxLen < len remaining ->
    is_split_point remaining maxLen p ->
    loop_chunks maxLen (trimStart (skipn (Z.to_nat p) remaining)) chunks ->
    loop_chunks maxLen remaining (firstn (Z.to_nat p) remaining :: chunks).

(** The algorithm of the specification, steps 1 to 3, word for word: a
    text that fits is returned alone; otherwise split at the split point,
    emit the prefix, strip the rest, and repeat until the remaining text
    is empty. *)
Fixpoint spec_loop (fuel : nat) (maxLen : Z) (remaining : JsString.t)
    : option (list JsString.t) :=
  match fuel with
  | O => None
  | S fuel' =>
      match remaining with
      | [] => Some []
      | _ :: _ =>
          let splitAt := split_point remaining maxLen in
          match spec_loop fuel' maxLen
                  (trimStart (slice remaining splitAt None)) with
          | Some chunks => Some (slice remaining 0 (Some splitAt) :: chunks)
          | None => None
          end
      end
  end.

Definition spec_split (text : JsString.t) (maxLen : Z)
    : option (list JsString.t) :=
  if len text <=? maxLen then Some [text]
  else spec_loop (S (length text)) maxLen text.

(** [text] is [chunks] in order with a run of whitespace, possibly empty,
    dropped after each chunk. *)
Inductive reassembles : list JsString.t -> JsString.t -> Prop :=
| reassembles_nil : reassembles [] []
| reassembles_cons : forall chunk gap rest chunks,
    all_ws gap ->
    reassembles chunks rest ->
    reassembles (chunk :: chunks) (chunk ++ gap ++ rest).

(** On [remaining] the loop never forces a cut: every split point it
    takes holds a space. *)
Inductive cuts_at_spaces (maxLen : Z) : JsString.t -> Prop :=
| cuts_fit : forall remaining,
    len remaining <= maxLen ->
    cuts_at_spaces maxLen remaining
| cuts_space : forall remaining,
    maxLen < len remaining ->
    char_at remaining (split_point remaining maxLen) = Some space ->
    cuts_at_spaces maxLen
      (trimStart (skipn (Z.to_nat (split_point remaining maxLen)) remaining)) ->
    cuts_at_spaces maxLen remaining.

(** The round trip of the unit test:
    [chunks.join(" ").replace(/\s+/g, " ").trim()]. *)
Definition rejoin (chunks : list JsString.t) : JsString.t :=
  trim (collapse_ws (join [space] chunks)).

(** *** Dispatch

    What a dispatch does to the outside world is recorded as a trace. *)
Section Dispatch.

(** The timer behind [waitForToken]. *)
Variable wake : Z -> Z -> Z.

(** The two transports, [ChatClient] and [ApiClient], as objects with
    state, and what a rejected promise carries. *)
Variables ChatClient ApiClient Rejection : Type.

(** [chatClient.say(channel, text)] awaited from time [now]: the client
    afterwards, the time the promise settles, and the rejection if it
    rejects. *)
Variable say :
  ChatClient -> Z -> JsString.t -> JsString.t ->
  ChatClient * Z * option Rejection.

(** [apiClient.whispers.sendWhisper(from, to, text)], likewise. *)
Variable whispers_sendWhisper :
  ApiClient -> Z -> JsString.t -> JsString.t -> JsString.t ->
  ApiClient * Z * option Rejection.

Inductive error : Type :=
| NotConnected                 (* Error("Twitch chat not connected") *)
| TransportFailure (r : Rejection).

Inductive outcome : Type :=
| Returned
| Threw (e : error).

Inductive event : Type :=
| Admission                       (* waitForToken() resolved *)
| Say (channel chunk : JsString.t) (r : option Rejection)
| Whisper (from to chunk : JsString.t) (r : option Rejection)
| WarnSkipped (toUsername : JsString.t).

(** The fields of the manager the senders read. *)
Record t : Type := mk {
  chatClient : option ChatClient;
  apiClient : option ApiClient;
  botUserId : option JsString.t;
  rateLimiter : RateLimiter.t
}.

(** [for (const chunk of chunks) { await waitForToken(); await send(chunk) }],
    the loop of both senders, over a transport [send] with state [C]
    that records [ev] for a chunk.  [None]: an admission is still
    pending after [fuel] attempts. *)
Fixpoint send_chunks {C : Type}
    (send : C -> Z -> JsString.t -> C * Z * option Rejection)
    (ev : JsString.t -> option Rejection -> event)
    (fuel : nat) (chunks : list JsString.t)
    (c : C) (rl : RateLimiter.t) (now : Z)
  : option (C * RateLimiter.t * Z * list event * outcome) :=
  match chunks with
  | [] => Some (c, rl, now, [], Returned)
  | chunk :: rest =>
      match RateLimiter.waitForToken wake fuel now rl with
      | None => None
      | Some (_, t1, rl1) =>
          let '(c1, t2, r) := send c t1 chunk in
          match r with
          | Some rej =>
              Some (c1, rl1, t2, [Admission; ev chunk r],
                    Threw (TransportFailure rej))
          | None =>
              match send_chunks send ev fuel rest c1 rl1 t2 with
              | Some (c2, rl2, t3, tr, out) =>
                  Some (c2, rl2, t3, Admission :: ev chunk r :: tr, out)
              | None => None
              end
          end
      end
  end.

(** [sendMessage(channel, text)] called at time [now]. *)
Definition sendMessage (fuel : nat) (m : t) (now : Z)
    (channel text : JsString.t)
  : option (t * Z * list event * outcome) :=
  match chatClient m with
  | None => Some (m, now, [], Threw NotConnected)
  | Some client =>
      match splitMessagePublic text TWITCH_MAX_MSG_LENGTH with
      | None => None
      | Some chunks =>
          match send_chunks (fun c t chunk => say c t channel chunk)
                  (Say channel) fuel chunks client (rateLimiter m) now with
          | None => None
          | Some (c', rl', t', tr, out) =>
              Some ({| chatClient := Some c'; apiClient := apiClient m;
                       botUserId := botUserId m; rateLimiter := rl' |},
                    t', tr, out)
          end
      end
  end.

(** A string is falsy when it is undefined or empty. *)
Definition truthy (s : option JsString.t) : option JsString.t :=
  match s with
  | Some (_ :: _) => s
  | _ => None
  end.

(** [sendWhisper(toUsername, toUserId, text)] called at time [now]. *)
Definition sendWhisper (fuel : nat) (m : t) (now : Z)
    (toUsername toUserId text : JsString.t)
  : option (t * Z * list event * outcome) :=
  match apiClient m, truthy (botUserId m) with
  | Some api, Some bot =>
      match splitMessagePublic text TWITCH_MAX_MSG_LENGTH with
      | None => None
      | Some chunks =>
          match send_chunks
                  (fun a t chunk => whispers_sendWhisper a t bot toUserId chunk)
                  (Whisper bot toUserId) fuel chunks api (rateLimiter m) now with
          | None => None
          | Some (a', rl', t', tr, out) =>
              Some ({| chatClient := chatClient m; apiClient := Some a';
                       botUserId := botUserId m; rateLimiter := rl' |},
                    t', tr, out)
          end
      end
  | _, _ => Some (m, now, [WarnSkipped toUsername], Returned)
  end.

(** The trace of a dispatch that hands [chunks] to the transport and has
    every one accepted. *)
Definition delivered (ev : JsString.t -> option Rejection -> event)
    (chunks : list JsString.t) : list event :=
  flat_map (fun chunk => [Admission; ev chunk None]) chunks.

(** What the loop of a sender has done when it ends.  Either every chunk
    was admitted and accepted in turn, or the transport rejected one:
    then the chunks before it were accepted, it was handed over once,
    nothing follows, and the rejection is what the sender throws. *)
Definition stopped_at (ev : JsString.t -> option Rejection -> event)
    (chunks : list JsString.t) (tr : list event) (out : outcome) : Prop :=
  (out = Returned /\ tr = delivered ev chunks)
  \/ exists pre chunk post rej,
       chunks = pre ++ chunk :: post
       /\ out = Threw (TransportFailure rej)
       /\ tr = delivered ev pre ++ [Admission; ev chunk (Some rej)].

(** *** The calls behind a dispatch

    [hands send fuel chunks s results s']: from the state [s] of
    transport, limiter and clock, every chunk of [chunks] in turn is
    handed to the transport.  [waitForToken()] is awaited on the limiter
    as the chunk before left it, from the time the send of that chunk
    settled; the chunk is given to the transport, as the chunk before
    left it, at the time the admission resolved.  [results] are the
    answers of the transport, [s'] is the state after the last one. *)
Inductive hands {C : Type}
    (send : C -> Z -> JsString.t -> C * Z * option Rejection) (fuel : nat)
  : list JsString.t -> C * RateLimiter.t * Z ->
    list (option Rejection) -> C * RateLimiter.t * Z -> Prop :=
| hands_none : forall s, hands send fuel [] s [] s
| hands_next : forall chunk rest c rl now ds t1 rl1 c1 t2 r results s',
    RateLimiter.waitForToken wake fuel now rl = Some (ds, t1, rl1) ->
    send c t1 chunk = (c1, t2, r) ->
    hands send fuel rest (c1, rl1, t2) results s' ->
    hands send fuel (chunk :: rest) (c, rl, now) (r :: results) s'.

(** The trace of chunks handed over with these answers. *)
Definition handed_trace (ev : JsString.t -> option Rejection -> event)
    (chunks : list JsString.t) (results : list (option Rejection))
  : list event :=
  flat_map (fun call => [Admission; ev (fst call) (snd call)])
    (combine chunks results).

(** What a sender hands over of [chunks]: all of them, every one
    accepted, and it returns; or those up to the first one the transport
    rejects and none after it, and it throws that rejection. *)
Definition up_to_rejection (chunks handed : list JsString.t)
    (results : list (option Rejection)) (out : outcome) : Prop :=
  (handed = chunks
   /\ results = repeat None (length chunks)
   /\ out = Returned)
  \/ exists pre chunk post rej,
       chunks = pre ++ chunk :: post
       /\ handed = pre ++ [chunk]
       /\ results = repeat None (length pre) ++ [Some rej]
       /\ out = Threw (TransportFailure rej).

End Dispatch.

Arguments NotConnected {Rejection}.
Arguments TransportFailure {Rejection} r.
Arguments Returned {Rejection}.
Arguments Threw {Rejection} e.
Arguments Admission {Rejection}.
Arguments Say {Rejection} channel chunk r.
Arguments Whisper {Rejection} from to chunk r.
Arguments WarnSkipped {Rejection} toUsername.
Arguments mk {ChatClient ApiClient} chatClient apiClient botUserId rateLimiter.
Arguments chatClient {ChatClient ApiClient} t.
Arguments apiClient {ChatClient ApiClient} t.
Arguments botUserId {ChatClient ApiClient} t.
Arguments rateLimiter {ChatClient ApiClient} t.
Arguments send_chunks wake {Rejection C} send ev fuel chunks c rl now.
Arguments sendMessage wake {ChatClient ApiClient Rejection} say fuel m now
  channel text.
Arguments sendWhisper wake {ChatClient ApiClient Rejection}
  whispers_sendWhisper fuel m now toUsername toUserId text.
Arguments delivered {Rejection} ev chunks.
Arguments stopped_at {Rejection} ev chunks tr out.
Arguments hands wake {Rejection C} send fuel chunks s results s'.
Arguments hands_none wake {Rejection C} send fuel s.
Arguments hands_next wake {Rejection C} send fuel chunk rest c rl now ds t1
  rl1 c1 t2 r results s' _ _ _.
Arguments handed_trace {Rejection} ev chunks results.
Arguments up_to_rejection {Rejection} chunks handed results out.

(** *** Test doubles

    Transports in the manner of the mocks of the unit tests: the client is
    the number of chunks it has been given, a send takes no time, and the
    chunk numbered [reject_at], counting from 0, is rejected. *)
Definition counting_say (reject_at : option nat)
    (client : nat) (now : Z) (channel chunk : JsString.t)
  : nat * Z * option unit :=
  (S client, now,
   match reject_at with
   | Some k => if Nat.eqb client k then Some tt else None
   | None => None
   end).

Definition counting_whisper (reject_at : option nat)
    (client : nat) (now : Z) (from to chunk : JsString.t)
  : nat * Z * option unit :=
  (S client, now,
   match reject_at with
   | Some k => if Nat.eqb client k then Some tt else None
   | None => None
   end).

(** A connected manager with a fresh default rate limiter. *)
Definition connected_manager (now : Z) : t nat nat :=
  {| chatClient := Some O;
     apiClient := Some O;
     botUserId := Some (lit "bot");
     rateLimiter :=
       RateLimiter.new RateLimiter.default_maxTokens
         RateLimiter.default_refillIntervalMs now |}.

(** Transports that keep what they are given: the client is the list of
    the chunks it has received, oldest first; a send takes a millisecond;
    the chunk numbered [reject_at], counting from 0, is rejected. *)
Definition recording_say (reject_at : option nat)
    (client : list JsString.t) (now : Z) (channel chunk : JsString.t)
  : list JsString.t * Z * option unit :=
  (client ++ [chunk], now + 1,
   match reject_at with
   | Some k => if Nat.eqb (length client) k then Some tt else None
   | None => None
   end).

Definition recording_whisper (reject_at : option nat)
    (client : list JsString.t) (now : Z) (from to chunk : JsString.t)
  : list JsString.t * Z * option unit :=
  (client ++ [chunk], now + 1,
   match reject_at with
   | Some k => if Nat.eqb (length client) k then Some tt else None
   | None => None
   end).

(** A connected manager over the recording transports, nothing received
    yet, with a fresh default rate limiter. *)
Definition recording_manager (now : Z)
  : t (list JsString.t) (list JsString.t) :=
  {| chatClient := Some [];
     apiClient := Some [];
     botUserId := Some (lit "bot");
     rateLimiter :=
       RateLimiter.new RateLimiter.default_maxTokens
         RateLimiter.default_refillIntervalMs now |}.

End TwitchChatManager.

(** * The rest of the plugin

    What follows embeds the code around the governor: how the limiter and
    the splitter behave under traffic, the channel list, the role prefix,
    the handlers of incoming messages, the channel provider, the
    channel-point listener and the plugin's [init] and [shutdown]. *)

(** ** Traffic through the limiter *)

Module Traffic.

(** How many of the calls were admitted. *)
Definition admitted (oks : list bool) : Z :=
  Z.of_nat (count_occ bool_dec oks true).

(** Every call comes at least a window after the one before, the first
    one a window after [prev]. *)
Fixpoint spaced (interval prev : Z) (ts : list Z) : Prop :=
  match ts with
  | [] => True
  | now :: ts' => interval <= now - prev /\ spaced interval now ts'
  end.

End Traffic.

(** ** More string operations *)

Module JsText.

Import JsString.

(** String equality, [===] on strings. *)
Definition eq_dec : forall a b : JsString.t, {a = b} + {a <> b} :=
  list_eq_dec N.eq_dec.

Definition eqb (a b : JsString.t) : bool := if eq_dec a b then true else false.

(** [s.split(sep)] for a separator of one code unit. *)
Fixpoint split_on (sep : code_unit) (s : JsString.t) : list JsString.t :=
  match s with
  | [] => [[]]
  | c :: s' =>
      if (c =? sep)%N then [] :: split_on sep s'
      else match split_on sep s' with
           | piece :: pieces => (c :: piece) :: pieces
           | [] => [[c]]
           end
  end.

(** [s.split(/\s+/)]: the pieces between the runs of whitespace; a run at
    either end leaves an empty piece there. *)
Fixpoint split_ws (s : JsString.t) : list JsString.t :=
  match s with
  | [] => [[]]
  | c :: s' =>
      if is_ws c then
        match s' with
        | c' :: _ => if is_ws c' then split_ws s' else [] :: split_ws s'
        | [] => [[]; []]
        end
      else match split_ws s' with
           | piece :: pieces => (c :: piece) :: pieces
           | [] => [[c]]
           end
  end.

(** [s.startsWith(p)] *)
Fixpoint startsWith (s p : JsString.t) : bool :=
  match p, s with
  | [], _ => true
  | _ :: _, [] => false
  | x :: p', c :: s' => (c =? x)%N && startsWith s' p'
  end.

(** [s.replace(/^p/, "")] for a literal [p]: one leading [p] is removed,
    if there is one. *)
Definition strip_prefix (p s : JsString.t) : JsString.t :=
  if startsWith s p then skipn (length p) s else s.

(** [U+002C], the separator of [split(",")]. *)
Definition comma : code_unit := 44%N.

(** Lower-casing of the letters A to Z, the part of [toLowerCase] that
    Twitch login and channel names need. *)
Definition ascii_lower_unit (c : code_unit) : code_unit :=
  if ((65 <=? c) && (c <=? 90))%N then (c + 32)%N else c.

Definition ascii_toLowerCase (s : JsString.t) : JsString.t :=
  map ascii_lower_unit s.

(** The last code unit is whitespace. *)
Fixpoint ends_ws (s : JsString.t) : bool :=
  match s with
  | [] => false
  | [c] => is_ws c
  | _ :: s' => ends_ws s'
  end.

(** The code units of a list of chunks, together. *)
Definition total_len (chunks : list JsString.t) : Z :=
  fold_right (fun chunk n => len chunk + n) 0 chunks.

End JsText.

(** ** Channel lists ([parseChannels] of [src/chat-client.ts], and the
    same parsing in [init] of [src/index.ts]) *)

Module Channels.

Import JsString JsText.

(** [string[] | string | undefined], the type of [config.channels]. *)
Inductive value : Type :=
| Undefined
| Str (s : JsString.t)
| Arr (l : list JsString.t).

(** [filter(Boolean)] on strings keeps the non-empty ones. *)
Definition non_empty (s : JsString.t) : bool :=
  match s with [] => false | _ :: _ => true end.

(** [s.split(",").map((s) => s.trim()).filter(Boolean)] *)
Definition split_trim_filter (s : JsString.t) : list JsString.t :=
  filter non_empty (map trim (split_on comma s)).

(** [TwitchChatManager.parseChannels(channels)]: nothing for [undefined]
    and for the empty string, an array as it is, a string cut at commas. *)
Definition parseChannels (channels : value) : list JsString.t :=
  match channels with
  | Undefined => []
  | Str [] => []
  | Arr l => l
  | Str s => split_trim_filter s
  end.

(** The expression of [init]:
    [Array.isArray(c) ? c : (c?.split(",").map(trim).filter(Boolean) ?? [])]. *)
Definition init_channels (channels : value) : list JsString.t :=
  match channels with
  | Arr l => l
  | Undefined => []
  | Str s => split_trim_filter s
  end.

(** A channel name as one writes it in the list: not empty, no whitespace
    at either end, no comma. *)
Definition clean_name (s : JsString.t) : Prop :=
  s <> [] /\ starts_ws s = false /\ ends_ws s = false /\ ~ In comma s.

(** A separator of the list: a comma with optional whitespace around. *)
Definition separator (sep : JsString.t) : Prop :=
  exists before after,
    all_ws before /\ all_ws after /\ sep = before ++ [comma] ++ after.

End Channels.

(** ** Roles ([src/role-mapper.ts]) *)

Module RoleMapper.

Import JsString.

(** The [userInfo] argument of [extractUserInfo]. *)
Module Flags.
Record t : Type := mk {
  isMod : bool;
  isSubscriber : bool;
  isVip : bool;
  isBroadcaster : bool;
  badges : list (JsString.t * JsString.t);
  color : option JsString.t
}.
End Flags.

Record TwitchUserInfo : Type := {
  userId : JsString.t;
  username : JsString.t;
  displayName : JsString.t;
  isMod : bool;
  isSubscriber : bool;
  isVip : bool;
  isBroadcaster : bool;
  badges : list (JsString.t * JsString.t);
  color : option JsString.t
}.

Definition extractUserInfo (userId userName displayName : JsString.t)
    (userInfo : Flags.t) : TwitchUserInfo :=
  {| userId := userId;
     username := userName;
     displayName := displayName;
     isMod := Flags.isMod userInfo;
     isSubscriber := Flags.isSubscriber userInfo;
     isVip := Flags.isVip userInfo;
     isBroadcaster := Flags.isBroadcaster userInfo;
     badges := Flags.badges userInfo;
     color := Flags.color userInfo |}.

(** [if (flag) roles.push(name)] *)
Definition push_if (flag : bool) (name : JsString.t)
    (roles : list JsString.t) : list JsString.t :=
  if flag then roles ++ [name] else roles.

(** The [roles] array of [getRolePrefix] when the pushes are done. *)
Definition roles_of (info : TwitchUserInfo) : list JsString.t :=
  push_if (isSubscriber info) (lit "Sub")
    (push_if (isVip info) (lit "VIP")
       (push_if (isMod info) (lit "Mod")
          (push_if (isBroadcaster info) (lit "Broadcaster") []))).

(** What [getRolePrefix] puts before the display name. *)
Definition role_tag (info : TwitchUserInfo) : JsString.t :=
  match roles_of info with
  | [] => []
  | roles => lit "[" ++ join (lit "/") roles ++ lit "] "
  end.

Definition getRolePrefix (info : TwitchUserInfo) : JsString.t :=
  match roles_of info with
  | [] => displayName info
  | roles => lit "[" ++ join (lit "/") roles ++ lit "] " ++ displayName info
  end.

End RoleMapper.

(** ** JavaScript [Map] with string keys

    The entries in insertion order: [set] on a key that is present
    replaces the value where it stands, on a new key appends. *)

Module JsMap.

Section Map.

Variable V : Type.

Definition t : Type := list (JsString.t * V).

Definition empty : t := [].

(** [m.get(k)] *)
Fixpoint get (k : JsString.t) (m : t) : option V :=
  match m with
  | [] => None
  | (k', v) :: m' => if JsText.eqb k' k then Some v else get k m'
  end.

(** [m.set(k, v)] *)
Fixpoint set (k : JsString.t) (v : V) (m : t) : t :=
  match m with
  | [] => [(k, v)]
  | (k', v') :: m' =>
      if JsText.eqb k' k then (k, v) :: m' else (k', v') :: set k v m'
  end.

(** [m.delete(k)] *)
Definition delete (k : JsString.t) (m : t) : t :=
  filter (fun entry => negb (JsText.eqb (fst entry) k)) m.

(** [Array.from(m.values())] and the keys, in insertion order. *)
Definition values (m : t) : list V := map snd m.
Definition keys (m : t) : list JsString.t := map fst m.

End Map.

Arguments empty {V}.
Arguments get {V} k m.
Arguments set {V} k v m.
Arguments delete {V} k m.
Arguments values {V} m.
Arguments keys {V} m.

End JsMap.

(** ** The message handlers of the chat manager ([src/chat-client.ts]) *)

Module TwitchChat.

Import JsString JsText.

(** [TwitchConfig] of [src/types.ts]; an absent field is [None]. *)
Inductive DmPolicy : Type := Open | Disabled.

Record TwitchConfig : Type := {
  clientId : option JsString.t;
  clientSecret : option JsString.t;
  accessToken : option JsString.t;
  refreshToken : option JsString.t;
  channels : Channels.value;
  commandPrefix : option JsString.t;
  broadcasterId : option JsString.t;
  enableWhispers : option bool;
  enableChannelPoints : option bool;
  dmPolicy : option DmPolicy
}.

(** [{ ...config, channels }] *)
Definition with_channels (config : TwitchConfig) (l : list JsString.t)
  : TwitchConfig :=
  {| clientId := clientId config;
     clientSecret := clientSecret config;
     accessToken := accessToken config;
     refreshToken := refreshToken config;
     channels := Channels.Arr l;
     commandPrefix := commandPrefix config;
     broadcasterId := broadcasterId config;
     enableWhispers := enableWhispers config;
     enableChannelPoints := enableChannelPoints config;
     dmPolicy := dmPolicy config |}.

(** [ChannelRef] *)
Record ChannelRef : Type := {
  ref_type : JsString.t;
  ref_id : JsString.t;
  ref_name : JsString.t
}.

(** [msg.userInfo] of a chat message or whisper. *)
Record MsgUserInfo : Type := {
  userId : JsString.t;
  userName : JsString.t;
  displayName : JsString.t;
  flags : RoleMapper.Flags.t
}.

Section Chat.

Variable wake : Z -> Z -> Z.
Variables ChatClient ApiClient Rejection : Type.
Variable say :
  ChatClient -> Z -> JsString.t -> JsString.t ->
  ChatClient * Z * option Rejection.
Variable whispers_sendWhisper :
  ApiClient -> Z -> JsString.t -> JsString.t -> JsString.t ->
  ApiClient * Z * option Rejection.

(** [String.prototype.toLowerCase]. *)
Variable toLowerCase : JsString.t -> JsString.t.

(** The host behind [ctx], and what its promises reject with. *)
Variables Host Thrown : Type.

(** [ctx.inject(sessionKey, message, { from, channel })] awaited from a
    time: the host and the time afterwards, and the response or what the
    promise rejects with. *)
Variable inject :
  Host -> Z -> JsString.t -> JsString.t -> JsString.t -> ChannelRef ->
  Host * Z * (Thrown + JsString.t).

(** What a handler can fail with: a failure of a sender, or something
    thrown by the host. *)
Inductive failure : Type :=
| SendFailure (e : TwitchChatManager.error Rejection)
| HostFailure (e : Thrown).

(** [`${err}`] *)
Variable show : failure -> JsString.t.

(** How a promise settles. *)
Inductive settled : Type :=
| Resolved
| RejectedWith (f : failure).

(** What the outside sees, in order. *)
Inductive host_event : Type :=
| LogMessage (sessionKey text from : JsString.t) (channel : ChannelRef)
| Inject (sessionKey message from : JsString.t) (channel : ChannelRef)
| LogInfo (message : JsString.t)
| LogWarn (message : JsString.t)
| LogError (message : JsString.t)
| Transport (e : TwitchChatManager.event Rejection)
| ChatQuit
| UpdateRedemptionStatus (broadcaster reward : JsString.t)
    (ids : list JsString.t) (status : JsString.t)
| ListenerStart
| ListenerStop
| RegisterConfigSchema (pluginId : JsString.t)
| AddUserForToken
| OnRefresh
| RegisterChannelProvider
| UnregisterChannelProvider (providerId : JsString.t).

(** The manager: the fields the senders use, the user name and the
    configuration. *)
Record Manager : Type := {
  core : TwitchChatManager.t ChatClient ApiClient;
  botUsername : JsString.t;
  config : TwitchConfig
}.

(** The clock, the host, and the events so far, oldest first. *)
Record Env : Type := {
  clock : Z;
  host : Host;
  trace : list host_event
}.

Definition emit (ev : host_event) (e : Env) : Env :=
  {| clock := clock e; host := host e; trace := trace e ++ [ev] |}.

(** [new TwitchChatManager(ctx, config, apiClient, botUserId)] at time
    [now]: no chat client yet, a default rate limiter, the user name
    ["unknown"]. *)
Definition new (now : Z) (cfg : TwitchConfig)
    (api : option ApiClient) (bot : option JsString.t) : Manager :=
  {| core :=
       {| TwitchChatManager.chatClient := None;
          TwitchChatManager.apiClient := api;
          TwitchChatManager.botUserId := bot;
          TwitchChatManager.rateLimiter :=
            RateLimiter.new RateLimiter.default_maxTokens
              RateLimiter.default_refillIntervalMs now |};
     botUsername := lit "unknown";
     config := cfg |}.

Definition with_core (m : Manager)
    (c : TwitchChatManager.t ChatClient ApiClient) : Manager :=
  {| core := c; botUsername := botUsername m; config := config m |}.

(** [setBotUsername(username)] and [getBotUsername()] *)
Definition setBotUsername (username : JsString.t) (m : Manager) : Manager :=
  {| core := core m; botUsername := username; config := config m |}.

Definition getBotUsername (m : Manager) : JsString.t := botUsername m.

Definition settle (out : TwitchChatManager.outcome Rejection) : settled :=
  match out with
  | TwitchChatManager.Returned => Resolved
  | TwitchChatManager.Threw e => RejectedWith (SendFailure e)
  end.

(** [sendMessage] and [sendWhisper] on the manager, their events recorded. *)
Definition sendMessage (fuel : nat) (m : Manager) (e : Env)
    (channel text : JsString.t) : option (Manager * Env * settled) :=
  match TwitchChatManager.sendMessage wake say fuel (core m) (clock e)
          channel text with
  | None => None
  | Some (c, t, tr, out) =>
      Some (with_core m c,
            {| clock := t; host := host e;
               trace := trace e ++ map Transport tr |},
            settle out)
  end.

Definition sendWhisper (fuel : nat) (m : Manager) (e : Env)
    (toUsername toUserId text : JsString.t)
  : option (Manager * Env * settled) :=
  match TwitchChatManager.sendWhisper wake whispers_sendWhisper fuel (core m)
          (clock e) toUsername toUserId text with
  | None => None
  | Some (c, t, tr, out) =>
      Some (with_core m c,
            {| clock := t; host := host e;
               trace := trace e ++ map Transport tr |},
            settle out)
  end.

(** [await this.ctx.inject(...)] with its event. *)
Definition do_inject (e : Env) (sessionKey message from : JsString.t)
    (channel : ChannelRef) : Env * (Thrown + JsString.t) :=
  let '(h, t, r) := inject (host e) (clock e) sessionKey message from channel in
  ({| clock := t; host := h;
      trace := trace e ++ [Inject sessionKey message from channel] |}, r).

(** [handleMessagePublic(channel, _user, text, msg)] *)
Definition handleMessagePublic (fuel : nat) (m : Manager) (e : Env)
    (channel _user text : JsString.t) (msg : MsgUserInfo)
  : option (Manager * Env * settled) :=
  let userInfo :=
    RoleMapper.extractUserInfo (userId msg) (userName msg) (displayName msg)
      (flags msg) in
  if eqb (toLowerCase (RoleMapper.username userInfo))
         (toLowerCase (botUsername m))
  then Some (m, e, Resolved)
  else
    let cleanChannel := toLowerCase (strip_prefix (lit "#") channel) in
    let channelId := lit "twitch:" ++ cleanChannel in
    let sessionKey := lit "twitch-" ++ cleanChannel in
    let channelRef :=
      {| ref_type := lit "twitch"; ref_id := channelId;
         ref_name := cleanChannel |} in
    let e1 :=
      emit (LogMessage sessionKey text (RoleMapper.displayName userInfo)
              channelRef) e in
    let prefix := lit "[" ++ RoleMapper.getRolePrefix userInfo ++ lit "]: " in
    let messageWithPrefix := prefix ++ text in
    let (e2, r) :=
      do_inject e1 sessionKey messageWithPrefix
        (RoleMapper.displayName userInfo) channelRef in
    match r with
    | inl thrown => Some (m, e2, RejectedWith (HostFailure thrown))
    | inr response => sendMessage fuel m e2 channel response
    end.

(** [handleWhisperPublic(user, text, msg)] *)
Definition handleWhisperPublic (fuel : nat) (m : Manager) (e : Env)
    (user text : JsString.t) (msg : MsgUserInfo)
  : option (Manager * Env * settled) :=
  match dmPolicy (config m) with
  | Some Disabled => Some (m, e, Resolved)
  | _ =>
      let userInfo :=
        RoleMapper.extractUserInfo (userId msg) (userName msg)
          (displayName msg) (flags msg) in
      let channelId := lit "twitch-whisper:" ++ RoleMapper.userId userInfo in
      let sessionKey := lit "twitch-whisper-" ++ RoleMapper.userId userInfo in
      let channelRef :=
        {| ref_type := lit "twitch"; ref_id := channelId;
           ref_name := lit "Whisper from " ++ RoleMapper.displayName userInfo |} in
      let e1 :=
        emit (LogMessage sessionKey text (RoleMapper.displayName userInfo)
                channelRef) e in
      let textPrefix := lit "[" ++ RoleMapper.displayName userInfo ++ lit "]: " in
      let (e2, r) :=
        do_inject e1 sessionKey (textPrefix ++ text)
          (RoleMapper.displayName userInfo) channelRef in
      match r with
      | inl thrown => Some (m, e2, RejectedWith (HostFailure thrown))
      | inr response =>
          match sendWhisper fuel m e2 user (RoleMapper.userId userInfo)
                  response with
          | None => None
          | Some (m3, e3, Resolved) => Some (m3, e3, Resolved)
          | Some (m3, e3, RejectedWith err) =>
              Some (m3,
                    emit (LogError (lit "Failed to send whisper to " ++ user
                                      ++ lit ": " ++ show err)) e3,
                    Resolved)
          end
      end
  end.

(** The connection a new [ChatClient] makes to a list of channels, awaited
    from a time: the client, the time the wait ends, and what it rejects
    with if the connection fails or times out. *)
Variable open_connection :
  list JsString.t -> Z -> ChatClient * Z * option Thrown.

(** [connect(authProvider)]: the client is stored before the connection is
    awaited. *)
Definition connect (m : Manager) (e : Env) : Manager * Env * option Thrown :=
  let chans := Channels.parseChannels (channels (config m)) in
  let '(client, t, r) := open_connection chans (clock e) in
  let m1 :=
    with_core m
      {| TwitchChatManager.chatClient := Some client;
         TwitchChatManager.apiClient := TwitchChatManager.apiClient (core m);
         TwitchChatManager.botUserId := TwitchChatManager.botUserId (core m);
         TwitchChatManager.rateLimiter :=
           TwitchChatManager.rateLimiter (core m) |} in
  let e1 := {| clock := t; host := host e; trace := trace e |} in
  match r with
  | Some reason => (m1, e1, Some reason)
  | None =>
      (m1,
       emit (LogInfo (lit "Connected to Twitch channels: "
                        ++ join (lit ", ") chans)) e1,
       None)
  end.

(** [disconnect()] *)
Definition disconnect (m : Manager) (e : Env) : Manager * Env :=
  match TwitchChatManager.chatClient (core m) with
  | Some _ =>
      (with_core m
         {| TwitchChatManager.chatClient := None;
            TwitchChatManager.apiClient := TwitchChatManager.apiClient (core m);
            TwitchChatManager.botUserId := TwitchChatManager.botUserId (core m);
            TwitchChatManager.rateLimiter :=
              TwitchChatManager.rateLimiter (core m) |},
       emit ChatQuit e)
  | None => (m, e)
  end.

End Chat.

Arguments SendFailure {Rejection Thrown} e.
Arguments HostFailure {Rejection Thrown} e.
Arguments Resolved {Rejection Thrown}.
Arguments RejectedWith {Rejection Thrown} f.
Arguments LogMessage {Rejection} sessionKey text from channel.
Arguments Inject {Rejection} sessionKey message from channel.
Arguments LogInfo {Rejection} message.
Arguments LogError {Rejection} message.
Arguments Transport {Rejection} e.
Arguments LogWarn {Rejection} message.
Arguments ChatQuit {Rejection}.
Arguments UpdateRedemptionStatus {Rejection} broadcaster reward ids status.
Arguments ListenerStart {Rejection}.
Arguments ListenerStop {Rejection}.
Arguments RegisterConfigSchema {Rejection} pluginId.
Arguments AddUserForToken {Rejection}.
Arguments OnRefresh {Rejection}.
Arguments RegisterChannelProvider {Rejection}.
Arguments UnregisterChannelProvider {Rejection} providerId.
Arguments Build_Manager {ChatClient ApiClient} core botUsername config.
Arguments core {ChatClient ApiClient} m.
Arguments botUsername {ChatClient ApiClient} m.
Arguments config {ChatClient ApiClient} m.
Arguments Build_Env {Rejection Host} clock host trace.
Arguments clock {Rejection Host} e.
Arguments host {Rejection Host} e.
Arguments trace {Rejection Host} e.
Arguments emit {Rejection Host} ev e.
Arguments new {ChatClient ApiClient} now cfg api bot.
Arguments with_core {ChatClient ApiClient} m c.
Arguments setBotUsername {ChatClient ApiClient} username m.
Arguments getBotUsername {ChatClient ApiClient} m.
Arguments settle {Rejection Thrown} out.
Arguments sendMessage wake {ChatClient ApiClient Rejection} say {Host Thrown}
  fuel m e channel text.
Arguments sendWhisper wake {ChatClient ApiClient Rejection}
  whispers_sendWhisper {Host Thrown} fuel m e toUsername toUserId text.
Arguments do_inject {Rejection Host Thrown} inject e sessionKey message from
  channel.
Arguments handleMessagePublic wake {ChatClient ApiClient Rejection} say
  toLowerCase {Host Thrown} inject fuel m e channel _user text msg.
Arguments handleWhisperPublic wake {ChatClient ApiClient Rejection}
  whispers_sendWhisper {Host Thrown} inject show fuel m e user text msg.
Arguments connect {ChatClient ApiClient Rejection Host Thrown} open_connection
  m e.
Arguments disconnect {ChatClient ApiClient Rejection Host} m e.

End TwitchChat.

(** ** The channel provider ([src/channel-provider.ts]) *)

Module ChannelProvider.

Import JsString JsText.

Section Provider.

Variable wake : Z -> Z -> Z.
Variables ChatClient ApiClient Rejection : Type.
Variable say :
  ChatClient -> Z -> JsString.t -> JsString.t ->
  ChatClient * Z * option Rejection.
Variable toLowerCase : JsString.t -> JsString.t.
Variables Host Thrown : Type.

(** [`${error}`] for what a command handler throws. *)
Variable show_thrown : Thrown -> JsString.t.

Let Manager : Type := TwitchChat.Manager ChatClient ApiClient.
Let Env : Type := TwitchChat.Env Rejection Host.
Let settled : Type := TwitchChat.settled Rejection Thrown.

(** The module variable [chatManager] with the rest of the world. *)
Definition State : Type := (option Manager * Env)%type.

(** [ChannelCommandContext]; [reply] and [getBotUsername] are closures
    over the module state. *)
Record ChannelCommandContext : Type := {
  cmd_channel : JsString.t;
  cmd_channelType : JsString.t;
  cmd_sender : JsString.t;
  cmd_args : list JsString.t;
  cmd_reply : JsString.t -> State -> option (State * settled);
  cmd_getBotUsername : State -> JsString.t
}.

(** [ChannelCommand]; the handler runs on the state and may throw; it is
    taken not to touch the two registries.  [None]: it has not settled. *)
Record ChannelCommand : Type := {
  name : JsString.t;
  description : JsString.t;
  handler : ChannelCommandContext -> State -> option (State * option Thrown)
}.

(** [ChannelMessageContext] *)
Record ChannelMessageContext : Type := {
  msg_channel : JsString.t;
  msg_channelType : JsString.t;
  msg_sender : JsString.t;
  msg_content : JsString.t;
  msg_reply : JsString.t -> State -> option (State * settled);
  msg_getBotUsername : State -> JsString.t
}.

(** [ChannelMessageParser]; [pattern] is the predicate, or the regular
    expression tested from [lastIndex = 0]; [parse] is the parser's
    [handler], under another name than the command's. *)
Record ChannelMessageParser : Type := {
  id : JsString.t;
  pattern : JsString.t -> bool;
  parse : ChannelMessageContext -> State -> option (State * option Thrown)
}.

(** The two module-level maps. *)
Record Registry : Type := {
  registeredCommands : JsMap.t ChannelCommand;
  registeredParsers : JsMap.t ChannelMessageParser
}.

Definition empty_registry : Registry :=
  {| registeredCommands := JsMap.empty; registeredParsers := JsMap.empty |}.

(** [setChatManager(mgr)] *)
Definition setChatManager (mgr : option Manager) (st : State) : State :=
  (mgr, snd st).

Definition registerCommand (cmd : ChannelCommand) (r : Registry) : Registry :=
  {| registeredCommands := JsMap.set (name cmd) cmd (registeredCommands r);
     registeredParsers := registeredParsers r |}.

Definition unregisterCommand (n : JsString.t) (r : Registry) : Registry :=
  {| registeredCommands := JsMap.delete n (registeredCommands r);
     registeredParsers := registeredParsers r |}.

Definition getCommands (r : Registry) : list ChannelCommand :=
  JsMap.values (registeredCommands r).

Definition addMessageParser (parser : ChannelMessageParser) (r : Registry)
  : Registry :=
  {| registeredCommands := registeredCommands r;
     registeredParsers := JsMap.set (id parser) parser (registeredParsers r) |}.

Definition removeMessageParser (i : JsString.t) (r : Registry) : Registry :=
  {| registeredCommands := registeredCommands r;
     registeredParsers := JsMap.delete i (registeredParsers r) |}.

Definition getMessageParsers (r : Registry) : list ChannelMessageParser :=
  JsMap.values (registeredParsers r).

(** [chatManager.sendMessage(channel, text)] on the manager in the state. *)
Definition manager_send (fuel : nat) (m : Manager) (e : Env)
    (channel text : JsString.t) : option (State * settled) :=
  match TwitchChat.sendMessage wake say fuel m e channel text with
  | None => None
  | Some (m', e', out) => Some ((Some m', e'), out)
  end.

(** [twitchChannelProvider.send(channelId, content)] *)
Definition send (fuel : nat) (st : State) (channelId content : JsString.t)
  : option (State * settled) :=
  match fst st with
  | None =>
      Some (st, TwitchChat.RejectedWith
                  (TwitchChat.SendFailure TwitchChatManager.NotConnected))
  | Some m =>
      let channel := strip_prefix (lit "twitch:") channelId in
      manager_send fuel m (snd st) (lit "#" ++ channel) content
  end.

(** [chatManager?.getBotUsername() ?? "unknown"], the provider's
    [getBotUsername()] and the closure of both contexts. *)
Definition getBotUsername (st : State) : JsString.t :=
  match fst st with
  | Some m => TwitchChat.getBotUsername m
  | None => lit "unknown"
  end.

(** The [reply] closure of both contexts:
    [if (chatManager) await chatManager.sendMessage(channel, msg)]. *)
Definition reply_on (fuel : nat) (channel msg : JsString.t) (st : State)
  : option (State * settled) :=
  match fst st with
  | Some m => manager_send fuel m (snd st) channel msg
  | None => Some (st, TwitchChat.Resolved)
  end.

(** How the promise of a handler function settles. *)
Inductive handled : Type :=
| Returns (b : bool)
| Rejects (f : TwitchChat.failure Rejection Thrown).

(** The part of [handleRegisteredCommand] before the handler is called:
    the command the text names, and its arguments. *)
Definition resolve_command (r : Registry) (text prefix : JsString.t)
  : option (JsString.t * ChannelCommand * list JsString.t) :=
  if negb (startsWith text prefix) then None
  else
    match split_ws (slice text (len prefix) None) with
    | [] => None
    | part0 :: args =>
        let cmdName := toLowerCase part0 in
        match cmdName with
        | [] => None
        | _ :: _ =>
            match JsMap.get cmdName (registeredCommands r) with
            | None => None
            | Some cmd => Some (cmdName, cmd, args)
            end
        end
    end.

(** [handleRegisteredCommand(channel, sender, text, prefix)] *)
Definition handleRegisteredCommand (fuel : nat) (r : Registry) (st : State)
    (channel sender text prefix : JsString.t) : option (State * handled) :=
  match resolve_command r text prefix with
  | None => Some (st, Returns false)
  | Some (cmdName, cmd, args) =>
      let cleanChannel := strip_prefix (lit "#") channel in
      let cmdCtx :=
        {| cmd_channel := lit "twitch:" ++ cleanChannel;
           cmd_channelType := lit "twitch";
           cmd_sender := sender;
           cmd_args := args;
           cmd_reply := reply_on fuel channel;
           cmd_getBotUsername := getBotUsername |} in
      match handler cmd cmdCtx st with
      | None => None
      | Some (st1, None) => Some (st1, Returns true)
      | Some (st1, Some error) =>
          match cmd_reply cmdCtx
                  (lit "Error executing " ++ prefix ++ cmdName ++ lit ": "
                     ++ show_thrown error) st1 with
          | None => None
          | Some (st2, TwitchChat.Resolved) => Some (st2, Returns true)
          | Some (st2, TwitchChat.RejectedWith f) => Some (st2, Rejects f)
          end
      end
  end.

(** The loop of [handleRegisteredParsers] over the parsers in insertion
    order. *)
Fixpoint parsers_loop (fuel : nat) (parsers : list ChannelMessageParser)
    (st : State) (channel cleanChannel sender text : JsString.t)
  : option (State * bool) :=
  match parsers with
  | [] => Some (st, false)
  | parser :: rest =>
      if pattern parser text then
        let msgCtx :=
          {| msg_channel := lit "twitch:" ++ cleanChannel;
             msg_channelType := lit "twitch";
             msg_sender := sender;
             msg_content := text;
             msg_reply := reply_on fuel channel;
             msg_getBotUsername := getBotUsername |} in
        match parse parser msgCtx st with
        | None => None
        | Some (st1, None) => Some (st1, true)
        | Some (st1, Some _) => Some (st1, false)
        end
      else parsers_loop fuel rest st channel cleanChannel sender text
  end.

(** The [cmdCtx] the handler of a resolved command is handed. *)
Definition command_context (fuel : nat) (channel sender : JsString.t)
    (args : list JsString.t) : ChannelCommandContext :=
  {| cmd_channel := lit "twitch:" ++ strip_prefix (lit "#") channel;
     cmd_channelType := lit "twitch";
     cmd_sender := sender;
     cmd_args := args;
     cmd_reply := reply_on fuel channel;
     cmd_getBotUsername := getBotUsername |}.

(** The [msgCtx] a matching parser is handed. *)
Definition parser_context (fuel : nat) (channel sender text : JsString.t)
  : ChannelMessageContext :=
  {| msg_channel := lit "twitch:" ++ strip_prefix (lit "#") channel;
     msg_channelType := lit "twitch";
     msg_sender := sender;
     msg_content := text;
     msg_reply := reply_on fuel channel;
     msg_getBotUsername := getBotUsername |}.

(** [handleRegisteredParsers(channel, sender, text)] *)
Definition handleRegisteredParsers (fuel : nat) (r : Registry) (st : State)
    (channel sender text : JsString.t) : option (State * bool) :=
  let cleanChannel := strip_prefix (lit "#") channel in
  parsers_loop fuel (JsMap.values (registeredParsers r)) st channel
    cleanChannel sender text.

(** Every entry of a map is filed under the name its value carries, and
    no name occurs twice. *)
Definition well_keyed {V : Type} (key_of : V -> JsString.t) (m : JsMap.t V)
  : Prop :=
  NoDup (JsMap.keys m) /\ Forall (fun entry => fst entry = key_of (snd entry)) m.

(** The registry as its operations key it: commands by name, parsers by
    id. *)
Definition registry_ok (r : Registry) : Prop :=
  well_keyed name (registeredCommands r)
  /\ well_keyed id (registeredParsers r).

End Provider.

Arguments Build_ChannelCommandContext {ChatClient ApiClient Rejection Host Thrown} cmd_channel
  cmd_channelType cmd_sender cmd_args cmd_reply cmd_getBotUsername.
Arguments cmd_channel {ChatClient ApiClient Rejection Host Thrown} c.
Arguments cmd_channelType {ChatClient ApiClient Rejection Host Thrown} c.
Arguments cmd_sender {ChatClient ApiClient Rejection Host Thrown} c.
Arguments cmd_args {ChatClient ApiClient Rejection Host Thrown} c.
Arguments cmd_reply {ChatClient ApiClient Rejection Host Thrown} c _ _.
Arguments cmd_getBotUsername {ChatClient ApiClient Rejection Host Thrown} c _.
Arguments Build_ChannelCommand {ChatClient ApiClient Rejection Host Thrown} name description handler.
Arguments name {ChatClient ApiClient Rejection Host Thrown} c.
Arguments description {ChatClient ApiClient Rejection Host Thrown} c.
Arguments handler {ChatClient ApiClient Rejection Host Thrown} c _ _.
Arguments Build_ChannelMessageContext {ChatClient ApiClient Rejection Host Thrown} msg_channel
  msg_channelType msg_sender msg_content msg_reply msg_getBotUsername.
Arguments msg_channel {ChatClient ApiClient Rejection Host Thrown} c.
Arguments msg_channelType {ChatClient ApiClient Rejection Host Thrown} c.
Arguments msg_sender {ChatClient ApiClient Rejection Host Thrown} c.
Arguments msg_content {ChatClient ApiClient Rejection Host Thrown} c.
Arguments msg_reply {ChatClient ApiClient Rejection Host Thrown} c _ _.
Arguments msg_getBotUsername {ChatClient ApiClient Rejection Host Thrown} c _.
Arguments Build_ChannelMessageParser {ChatClient ApiClient Rejection Host Thrown} id pattern parse.
Arguments id {ChatClient ApiClient Rejection Host Thrown} c.
Arguments pattern {ChatClient ApiClient Rejection Host Thrown} c _.
Arguments parse {ChatClient ApiClient Rejection Host Thrown} c _ _.
Arguments Build_Registry {ChatClient ApiClient Rejection Host Thrown} registeredCommands registeredParsers.
Arguments registeredCommands {ChatClient ApiClient Rejection Host Thrown} r.
Arguments registeredParsers {ChatClient ApiClient Rejection Host Thrown} r.
Arguments empty_registry {ChatClient ApiClient Rejection Host Thrown}.
Arguments registry_ok {ChatClient ApiClient Rejection Host Thrown} r.
Arguments setChatManager {ChatClient ApiClient Rejection Host} mgr st.
Arguments registerCommand {ChatClient ApiClient Rejection Host Thrown} cmd r.
Arguments unregisterCommand {ChatClient ApiClient Rejection Host Thrown} n r.
Arguments getCommands {ChatClient ApiClient Rejection Host Thrown} r.
Arguments addMessageParser {ChatClient ApiClient Rejection Host Thrown} parser r.
Arguments removeMessageParser {ChatClient ApiClient Rejection Host Thrown} i r.
Arguments getMessageParsers {ChatClient ApiClient Rejection Host Thrown} r.
Arguments manager_send wake {ChatClient ApiClient Rejection} say {Host Thrown}
  fuel m e channel text.
Arguments send wake {ChatClient ApiClient Rejection} say {Host Thrown} fuel st
  channelId content.
Arguments getBotUsername {ChatClient ApiClient Rejection Host} st.
Arguments reply_on wake {ChatClient ApiClient Rejection} say {Host Thrown} fuel
  channel msg st.
Arguments Returns {Rejection Thrown} b.
Arguments Rejects {Rejection Thrown} f.
Arguments resolve_command {ChatClient ApiClient Rejection} toLowerCase
  {Host Thrown} r text prefix.
Arguments handleRegisteredCommand wake {ChatClient ApiClient Rejection} say
  toLowerCase {Host Thrown} show_thrown fuel r st channel sender text prefix.
Arguments parsers_loop wake {ChatClient ApiClient Rejection} say {Host Thrown}
  fuel parsers st channel cleanChannel sender text.
Arguments parser_context wake {ChatClient ApiClient Rejection} say {Host Thrown}
  fuel channel sender text.
Arguments command_context wake {ChatClient ApiClient Rejection} say
  {Host Thrown} fuel channel sender args.
Arguments handleRegisteredParsers wake {ChatClient ApiClient Rejection} say
  {Host Thrown} fuel r st channel sender text.

End ChannelProvider.

(** ** Channel point redemptions ([src/eventsub.ts]) *)

Module TwitchEventSubManager.

Import JsString JsText TwitchChat.

(** The fields of a redemption event the handler reads. *)
Record Redemption : Type := {
  id : JsString.t;
  rewardId : JsString.t;
  rewardTitle : JsString.t;
  rewardCost : Z;
  input : JsString.t;
  userDisplayName : JsString.t;
  broadcasterDisplayName : JsString.t
}.

(** U+0022, the quotation mark around the reward title. *)
Definition quote : JsString.t := [34%N].

Section EventSub.

Variables EsApi Rejection Host Thrown : Type.

(** [`${event.rewardCost}`] and [`${err}`]. *)
Variable show_number : Z -> JsString.t.
Variable show_thrown : Thrown -> JsString.t.

Variable inject :
  Host -> Z -> JsString.t -> JsString.t -> JsString.t -> ChannelRef ->
  Host * Z * (Thrown + JsString.t).

(** [apiClient.channelPoints.updateRedemptionStatusByIds(broadcaster,
    reward, ids, status)] awaited from a time. *)
Variable updateRedemptionStatusByIds :
  EsApi -> Z -> JsString.t -> JsString.t -> list JsString.t -> JsString.t ->
  EsApi * Z * option Thrown.

(** [listener.start()] of a new listener: the API client made for it, and
    what the call throws, if it does. *)
Variable start_listener : Z -> EsApi * Z * option Thrown.

Let Env : Type := TwitchChat.Env Rejection Host.

Record t : Type := {
  listener : bool;
  apiClient : option EsApi;
  broadcasterId : JsString.t
}.

(** [new TwitchEventSubManager(ctx, broadcasterId)] *)
Definition new (broadcaster : JsString.t) : t :=
  {| listener := false; apiClient := None; broadcasterId := broadcaster |}.

(** The locals of the callback of [onChannelRedemptionAdd]: [channelRef],
    [sessionKey], [message], and the message that is injected. *)
Definition channelRef (m : t) (event : Redemption) : ChannelRef :=
  {| ref_type := lit "twitch";
     ref_id := lit "twitch:" ++ broadcasterId m;
     ref_name := broadcasterDisplayName event |}.

Definition sessionKey (m : t) : JsString.t := lit "twitch-" ++ broadcasterId m.

Definition message (event : Redemption) : JsString.t :=
  lit "[Channel Point Redemption] " ++ userDisplayName event
    ++ lit " redeemed " ++ quote ++ rewardTitle event ++ quote
    ++ lit " (" ++ show_number (rewardCost event) ++ lit " points)"
    ++ match input event with
       | [] => []
       | _ :: _ => lit ": " ++ input event
       end.

Definition injected (event : Redemption) : JsString.t :=
  lit "[Channel Point: " ++ rewardTitle event ++ lit "] ["
    ++ userDisplayName event ++ lit "]: " ++ input event.

(** The callback of [onChannelRedemptionAdd]. *)
Definition onChannelRedemptionAdd (m : t) (e : Env) (event : Redemption)
  : t * Env * option Thrown :=
  let e1 :=
    emit (LogMessage (sessionKey m) (message event) (userDisplayName event)
            (channelRef m event)) e in
  match input event with
  | [] => (m, e1, None)
  | _ :: _ =>
      let (e2, r) :=
        do_inject inject e1 (sessionKey m) (injected event)
          (userDisplayName event) (channelRef m event) in
      match r with
      | inl thrown => (m, e2, Some thrown)
      | inr _ =>
          match apiClient m with
          | None => (m, e2, None)
          | Some api =>
              let '(api', t', failed) :=
                updateRedemptionStatusByIds api (clock e2) (broadcasterId m)
                  (rewardId event) [id event] (lit "FULFILLED") in
              let m' :=
                {| listener := listener m; apiClient := Some api';
                   broadcasterId := broadcasterId m |} in
              let e3 :=
                emit (UpdateRedemptionStatus (broadcasterId m) (rewardId event)
                        [id event] (lit "FULFILLED"))
                  {| clock := t'; host := host e2; trace := trace e2 |} in
              match failed with
              | None => (m', e3, None)
              | Some err =>
                  (m',
                   emit (LogError (lit "Failed to fulfill redemption: "
                                     ++ show_thrown err)) e3,
                   None)
              end
          end
      end
  end.

(** [start(authProvider)] *)
Definition start (m : t) (e : Env) : t * Env * option Thrown :=
  let '(api, t', failed) := start_listener (clock e) in
  let m' :=
    {| listener := true; apiClient := Some api;
       broadcasterId := broadcasterId m |} in
  let e1 := emit ListenerStart {| clock := t'; host := host e; trace := trace e |} in
  match failed with
  | Some err => (m', e1, Some err)
  | None =>
      (m',
       emit (LogInfo (lit "EventSub WebSocket started for broadcaster "
                        ++ broadcasterId m)) e1,
       None)
  end.

(** [stop()] *)
Definition stop (m : t) (e : Env) : t * Env :=
  ({| listener := false; apiClient := None; broadcasterId := broadcasterId m |},
   if listener m then emit ListenerStop e else e).

End EventSub.

Arguments Build_t {EsApi} listener apiClient broadcasterId.
Arguments listener {EsApi} t.
Arguments apiClient {EsApi} t.
Arguments broadcasterId {EsApi} t.
Arguments new {EsApi} broadcaster.
Arguments channelRef {EsApi} m event.
Arguments sessionKey {EsApi} m.
Arguments onChannelRedemptionAdd {EsApi Rejection Host Thrown} show_number
  show_thrown inject updateRedemptionStatusByIds m e event.
Arguments start {EsApi Rejection Host Thrown} start_listener m e.
Arguments stop {EsApi Rejection Host} m e.

End TwitchEventSubManager.

(** ** The plugin ([src/index.ts]) *)

Module Plugin.

Import JsString JsText TwitchChat.

Section Plugin.

Variables ChatClient ApiClient EsApi Rejection Host Thrown : Type.

Variable show_thrown : Thrown -> JsString.t.

(** [authProvider.addUserForToken(...)] awaited from a time. *)
Variable addUserForToken : Z -> Z * option Thrown.

Variable open_connection :
  list JsString.t -> Z -> ChatClient * Z * option Thrown.

Variable start_listener : Z -> EsApi * Z * option Thrown.

Let Manager : Type := TwitchChat.Manager ChatClient ApiClient.
Let Env : Type := TwitchChat.Env Rejection Host.

(** The module variables of [index.ts] and the [chatManager] of
    [channel-provider.ts].  The chat manager is one object: the provider's
    variable either refers to it or is [null]. *)
Record State : Type := {
  pluginCtx : bool;
  chatManager : option Manager;
  provider_chatManager : bool;
  eventSubManager : option (TwitchEventSubManager.t EsApi)
}.

Definition initial : State :=
  {| pluginCtx := false; chatManager := None; provider_chatManager := false;
     eventSubManager := None |}.

(** [ctx.getConfig() ?? {}] *)
Definition empty_config : TwitchConfig :=
  {| clientId := None; clientSecret := None; accessToken := None;
     refreshToken := None; channels := Channels.Undefined;
     commandPrefix := None; broadcasterId := None; enableWhispers := None;
     enableChannelPoints := None; dmPolicy := None |}.

Definition truthy_flag (b : option bool) : bool :=
  match b with Some true => true | _ => false end.

(** [init(ctx)], with [ctx.getConfig()] giving [stored]; the result is
    what the promise rejects with, if it does. *)
Definition init (s : State) (e : Env) (stored : option TwitchConfig)
  : State * Env * option Thrown :=
  let s0 :=
    {| pluginCtx := true; chatManager := chatManager s;
       provider_chatManager := provider_chatManager s;
       eventSubManager := eventSubManager s |} in
  let e0 := emit (RegisterConfigSchema (lit "wopr-plugin-twitch")) e in
  let config := match stored with Some c => c | None => empty_config end in
  match TwitchChatManager.truthy (clientId config),
        TwitchChatManager.truthy (accessToken config) with
  | Some _, Some _ =>
      let chans := Channels.init_channels (channels config) in
      match chans with
      | [] => (s0, emit (LogWarn (lit "No Twitch channels configured")) e0, None)
      | _ :: _ =>
          let (t1, r) := addUserForToken (clock e0) in
          let e1 :=
            emit AddUserForToken
              {| clock := t1; host := host e0; trace := trace e0 |} in
          match r with
          | Some err => (s0, e1, Some err)
          | None =>
              let e2 :=
                emit (LogInfo (lit "Registered Twitch channel provider"))
                  (emit RegisterChannelProvider (emit OnRefresh e1)) in
              let m :=
                TwitchChat.new (clock e2) (with_channels config chans)
                  None None in
              let '(m1, e3, failed) := connect open_connection m e2 in
              let s1 :=
                {| pluginCtx := true; chatManager := Some m1;
                   provider_chatManager := true;
                   eventSubManager := eventSubManager s |} in
              match failed with
              | Some err =>
                  (s1,
                   emit (LogError (lit "Failed to connect to Twitch chat: "
                                     ++ show_thrown err)) e3,
                   None)
              | None =>
                  let '(s2, e4) :=
                    match truthy_flag (enableChannelPoints config),
                          TwitchChatManager.truthy (broadcasterId config) with
                    | true, Some broadcaster =>
                        let '(es, e4, es_failed) :=
                          TwitchEventSubManager.start start_listener
                            (TwitchEventSubManager.new broadcaster) e3 in
                        let s2 :=
                          {| pluginCtx := true; chatManager := Some m1;
                             provider_chatManager := true;
                             eventSubManager := Some es |} in
                        match es_failed with
                        | Some err =>
                            (s2,
                             emit (LogError (lit "Failed to start EventSub: "
                                               ++ show_thrown err)) e4)
                        | None => (s2, e4)
                        end
                    | _, _ => (s1, e3)
                    end in
                  (s2, emit (LogInfo (lit "Twitch plugin initialized")) e4, None)
              end
          end
      end
  | _, _ =>
      (s0,
       emit (LogWarn (lit "Twitch plugin not configured. Run 'wopr configure --plugin wopr-plugin-twitch'")) e0,
       None)
  end.

(** [shutdown()] *)
Definition shutdown (s : State) (e : Env) : State * Env :=
  let e1 :=
    match eventSubManager s with
    | Some es => snd (TwitchEventSubManager.stop es e)
    | None => e
    end in
  let e2 :=
    match chatManager s with
    | Some m => snd (disconnect m e1)
    | None => e1
    end in
  let provider :=
    match chatManager s with
    | Some _ => false
    | None => provider_chatManager s
    end in
  let e3 :=
    if pluginCtx s then emit (UnregisterChannelProvider (lit "twitch")) e2
    else e2 in
  ({| pluginCtx := false; chatManager := None;
      provider_chatManager := provider; eventSubManager := None |}, e3).

End Plugin.

Arguments Build_State {ChatClient ApiClient EsApi} pluginCtx chatManager
  provider_chatManager eventSubManager.
Arguments pluginCtx {ChatClient ApiClient EsApi} s.
Arguments chatManager {ChatClient ApiClient EsApi} s.
Arguments provider_chatManager {ChatClient ApiClient EsApi} s.
Arguments eventSubManager {ChatClient ApiClient EsApi} s.
Arguments initial {ChatClient ApiClient EsApi}.
Arguments init {ChatClient ApiClient EsApi Rejection Host Thrown} show_thrown
  addUserForToken open_connection start_listener s e stored.
Arguments shutdown {ChatClient ApiClient EsApi Rejection Host} s e.

End Plugin.

(** ** Collaborators for the examples

    A host that answers every injected message with that message, one
    that throws, connections and listeners that open or fail at once. *)

Module Fixtures.

Import JsString JsText TwitchChat.

Definition echo_inject (h : unit) (now : Z)
    (sessionKey message from : JsString.t) (channel : ChannelRef)
  : unit * Z * (unit + JsString.t) :=
  (h, now, inr message).

Definition failing_inject (h : unit) (now : Z)
    (sessionKey message from : JsString.t) (channel : ChannelRef)
  : unit * Z * (unit + JsString.t) :=
  (h, now, inl tt).

Definition show_failure (f : failure unit unit) : JsString.t := lit "Error".

Definition show_unit (thrown : unit) : JsString.t := lit "Error".

Definition show_digits (n : Z) : JsString.t := lit "100".

Definition open_ok (channels : list JsString.t) (now : Z)
  : nat * Z * option unit :=
  (0%nat, now, None).

Definition open_timeout (channels : list JsString.t) (now : Z)
  : nat * Z * option unit :=
  (0%nat, now + 30000, Some tt).

Definition token_ok (now : Z) : Z * option unit := (now, None).

Definition listener_ok (now : Z) : nat * Z * option unit :=
  (0%nat, now, None).

Definition fulfil_ok (api : nat) (now : Z) (broadcaster reward : JsString.t)
    (ids : list JsString.t) (status : JsString.t) : nat * Z * option unit :=
  (api, now, None).

End Fixtures.

(** ** A chat room for the examples *)

Module Room.

Import JsString JsText TwitchChat.

(** A viewer with no role, and the bot's own account, written with a
    capital. *)
Definition viewer : MsgUserInfo :=
  {| userId := lit "1"; userName := lit "alice"; displayName := lit "Alice";
     flags := RoleMapper.Flags.mk false false false false [] None |}.

Definition own : MsgUserInfo :=
  {| userId := lit "9"; userName := lit "Bot"; displayName := lit "Bot";
     flags := RoleMapper.Flags.mk false false false false [] None |}.

(** A connected manager whose user name has been set. *)
Definition manager : Manager nat nat :=
  {| core := TwitchChatManager.connected_manager 0;
     botUsername := lit "bot";
     config := Plugin.empty_config |}.

(** The manager as [init] constructs it, before [connect]. *)
Definition bare_manager : Manager nat nat :=
  TwitchChat.new 0 Plugin.empty_config None None.

Definition env0 : Env unit unit :=
  {| clock := 0; host := tt; trace := [] |}.

(** A configuration with credentials and two channels, and the same with
    channel points on. *)
Definition configured : TwitchConfig :=
  {| clientId := Some (lit "id"); clientSecret := None;
     accessToken := Some (lit "token"); refreshToken := None;
     channels := Channels.Str (lit "alpha, beta");
     commandPrefix := None; broadcasterId := None; enableWhispers := None;
     enableChannelPoints := None; dmPolicy := None |}.

Definition configured_points : TwitchConfig :=
  {| clientId := Some (lit "id"); clientSecret := None;
     accessToken := Some (lit "token"); refreshToken := None;
     channels := Channels.Arr [lit "alpha"];
     commandPrefix := None; broadcasterId := Some (lit "77");
     enableWhispers := None; enableChannelPoints := Some true;
     dmPolicy := None |}.

(** A registry with one command. *)
Definition ping : ChannelProvider.ChannelCommand nat nat unit unit unit :=
  {| ChannelProvider.name := lit "ping";
     ChannelProvider.description := lit "answers";
     ChannelProvider.handler := fun _ st => Some (st, None) |}.

Definition registry : ChannelProvider.Registry nat nat unit unit unit :=
  ChannelProvider.registerCommand ping ChannelProvider.empty_registry.

End Room.

(** Projections of the environment and of the plugin state, computed. *)
Ltac simp_env :=
  cbn [fst snd TwitchChat.emit TwitchChat.clock TwitchChat.host
       TwitchChat.trace Plugin.chatManager Plugin.provider_chatManager
       Plugin.eventSubManager Plugin.pluginCtx].

(** * Properties of the rate limiter *)

Section RateLimiterFacts.

Import RateLimiter.

Lemma refill_in_window : forall now s, in_window s now -> refill now s = s.
Proof.
  unfold in_window, refill; intros now s H.
  destruct (Z.leb_spec (refillIntervalMs s) (now - lastRefill s)); [lia | reflexivity].
Qed.

Lemma refill_rollover : forall now s,
  refillIntervalMs s <= now - lastRefill s ->
  refill now s = {| tokens := maxTokens s; lastRefill := now;
                    maxTokens := maxTokens s;
                    refillIntervalMs := refillIntervalMs s |}.
Proof.
  unfold refill; intros now s H.
  destruct (Z.leb_spec (refillIntervalMs s) (now - lastRefill s)); [reflexivity | lia].
Qed.

Lemma tryConsume_fields : forall now s,
  maxTokens (snd (tryConsume now s)) = maxTokens s /\
  refillIntervalMs (snd (tryConsume now s)) = refillIntervalMs s.
Proof.
  intros now s; unfold tryConsume, refill.
  destruct (refillIntervalMs s <=? now - lastRefill s); cbn;
    match goal with |- context [0 <? ?x] => destruct (0 <? x) end; cbn; auto.
Qed.

(** Inside the window a call only looks at the token count. *)
Lemma tryConsume_in_window : forall now s,
  in_window s now ->
  tryConsume now s =
    if 0 <? tokens s
    then (true, {| tokens := tokens s - 1; lastRefill := lastRefill s;
                   maxTokens := maxTokens s;
                   refillIntervalMs := refillIntervalMs s |})
    else (false, s).
Proof.
  intros now s H; unfold tryConsume; rewrite (refill_in_window _ _ H); reflexivity.
Qed.

(** With [k] tokens left and no rollover, the first [k] calls are admitted
    and every later one is denied. *)
Lemma tryConsumeAll_in_window : forall ts s,
  0 <= tokens s ->
  Forall (in_window s) ts ->
  fst (tryConsumeAll ts s) =
    repeat true (Nat.min (length ts) (Z.to_nat (tokens s)))
    ++ repeat false (length ts - Z.to_nat (tokens s)).
Proof.
  induction ts as [|now ts IH]; intros s Hk Hw; [reflexivity|].
  inversion Hw as [|? ? Hnow Hrest]; subst.
  cbn [tryConsumeAll]. rewrite (tryConsume_in_window _ _ Hnow).
  destruct (Z.ltb_spec 0 (tokens s)) as [Hpos|Hzero].
  - set (s1 := {| tokens := tokens s - 1 |}).
    specialize (IH s1 ltac:(cbn; lia) Hrest).
    destruct (tryConsumeAll ts s1) as [oks s2]; cbn [fst] in *.
    rewrite IH; cbn [tokens s1 length].
    replace (Z.to_nat (tokens s)) with (S (Z.to_nat (tokens s - 1))) by lia.
    reflexivity.
  - specialize (IH s Hk Hrest).
    destruct (tryConsumeAll ts s) as [oks s2]; cbn [fst] in *.
    rewrite IH. replace (Z.to_nat (tokens s)) with O by lia.
    rewrite !Nat.min_0_r, !Nat.sub_0_r. reflexivity.
Qed.

(** The first call after the window has run out refills to [maxTokens]
    and opens a window at the time of the call. *)
Lemma tryConsume_rollover : forall now s,
  refillIntervalMs s <= now - lastRefill s ->
  0 < maxTokens s ->
  tryConsume now s =
    (true, {| tokens := maxTokens s - 1; lastRefill := now;
              maxTokens := maxTokens s;
              refillIntervalMs := refillIntervalMs s |}).
Proof.
  intros now s Hr Hm; unfold tryConsume; rewrite (refill_rollover _ _ Hr); cbn.
  destruct (Z.ltb_spec 0 (maxTokens s)); [reflexivity | lia].
Qed.

(** A denied call leaves no token and a window that is still open or was
    opened by this very call. *)
Lemma tryConsume_denied : forall now s s1,
  tryConsume now s = (false, s1) ->
  s1 = refill now s /\ tokens s1 <= 0.
Proof.
  unfold tryConsume; intros now s s1 H.
  destruct (Z.ltb_spec 0 (tokens (refill now s))); inversion H; subst; auto.
Qed.

Lemma tryConsume_Inv : forall now s, Inv s -> Inv (snd (tryConsume now s)).
Proof.
  unfold Inv, tryConsume, refill; intros now s H.
  destruct (Z.leb_spec (refillIntervalMs s) (now - lastRefill s)); cbn;
    match goal with |- context [0 <? ?x] => destruct (Z.ltb_spec 0 x) end;
    cbn; lia.
Qed.

Lemma tryConsume_NonNeg : forall now s, NonNeg s -> NonNeg (snd (tryConsume now s)).
Proof.
  unfold NonNeg, tryConsume, refill; intros now s H.
  destruct (Z.leb_spec (refillIntervalMs s) (now - lastRefill s)); cbn;
    match goal with |- context [0 <? ?x] => destruct (Z.ltb_spec 0 x) end;
    cbn; lia.
Qed.

(** Whatever every attempt preserves, the whole wait preserves. *)
Lemma waitForToken_preserves : forall (P : t -> Prop) wake,
  (forall now s, P s -> P (snd (tryConsume now s))) ->
  forall fuel now s ds t' s',
    P s -> waitForToken wake fuel now s = Some (ds, t', s') -> P s'.
Proof.
  intros P wake HP; induction fuel as [|fuel IH]; intros now s ds t' s' Hi H;
    [discriminate|].
  cbn [waitForToken] in H.
  pose proof (HP now s Hi) as Hi1.
  destruct (tryConsume now s) as [[|] s1]; cbn [snd] in Hi1.
  - inversion H; subst; assumption.
  - destruct (waitForToken wake fuel _ s1) as [[[ds2 t2] s2]|] eqn:E;
      [|discriminate].
    inversion H; subst. eapply IH; eauto.
Qed.

(** Two attempts are always enough when the capacity is positive and the
    timer is never early: a denied first attempt sleeps to the end of the
    window at least, and the second attempt refills. *)
Lemma waitForToken_two_attempts : forall wake fuel now s,
  (forall t d, t + d <= wake t d) ->
  0 < maxTokens s ->
  exists ds t' s',
    waitForToken wake (S (S fuel)) now s = Some (ds, t', s') /\
    maxTokens s' = maxTokens s /\ refillIntervalMs s' = refillIntervalMs s.
Proof.
  intros wake fuel now s Hw Hm.
  cbn [waitForToken].
  destruct (tryConsume_fields now s) as [Hf1 Hf2].
  destruct (tryConsume now s) as [[|] s1] eqn:E1; cbn [snd] in *.
  - eauto 6.
  - set (d := Z.max (refillIntervalMs s1 - (now - lastRefill s1)) 100).
    assert (Hr : refillIntervalMs s1 <= wake now d - lastRefill s1)
      by (specialize (Hw now d); lia).
    rewrite (tryConsume_rollover _ _ Hr) by lia.
    cbn. rewrite Hf1, Hf2. eauto 6.
Qed.

End RateLimiterFacts.

Section RateLimiterClaims.

Import RateLimiter.

(** C1.  A governor of capacity [c] at the start of a window (its tokens
    are its capacity, as after construction or after a refill): [c + 1]
    consecutive [tryConsume()] calls that all fall inside the window
    answer [true] exactly [c] times and then [false]; and any [n <= c]
    consecutive calls inside the window all answer [true]. *)
Theorem tryConsume_capacity_per_window :
  forall (c : Z) (s : t) (ts : list Z) (last : Z),
    maxTokens s = c ->
    tokens s = c ->
    Z.of_nat (length ts) = c ->
    Forall (in_window s) (ts ++ [last]) ->
    fst (tryConsumeAll (ts ++ [last]) s) = repeat true (length ts) ++ [false]
    /\ forall ts' : list Z,
         Forall (in_window s) ts' ->
         Z.of_nat (length ts') <= c ->
         fst (tryConsumeAll ts' s) = repeat true (length ts').
Proof.
  intros c s ts last Hmax Htok Hlen Hw. split.
  - rewrite tryConsumeAll_in_window by (assumption || lia).
    rewrite length_app; cbn [length].
    replace (Z.to_nat (tokens s)) with (length ts) by lia.
    replace (Nat.min (length ts + 1) (length ts)) with (length ts) by lia.
    replace (length ts + 1 - length ts)%nat with 1%nat by lia.
    reflexivity.
  - intros ts' Hw' Hn.
    rewrite tryConsumeAll_in_window by (assumption || lia).
    replace (Nat.min (length ts') (Z.to_nat (tokens s))) with (length ts') by lia.
    replace (length ts' - Z.to_nat (tokens s))%nat with 0%nat by lia.
    cbn [repeat]. apply app_nil_r.
Qed.

Lemma tryConsume_capacity_per_window_witness :
  fst (tryConsumeAll ([1; 2; 3] ++ [4]) (new 3 30000 0))
    = repeat true 3 ++ [false]
  /\ fst (tryConsumeAll [5; 6] (new 3 30000 0)) = repeat true 2.
Proof.
  assert (Hw : Forall (in_window (new 3 30000 0)) ([1; 2; 3] ++ [4]))
    by (repeat constructor; unfold in_window; cbn; lia).
  destruct (tryConsume_capacity_per_window 3 (new 3 30000 0) [1; 2; 3] 4
              eq_refl eq_refl eq_refl Hw) as [H1 H2].
  split; [exact H1|].
  apply (H2 [5; 6]).
  - repeat constructor; unfold in_window; cbn; lia.
  - cbn. lia.
Defined.

(** C6.  [setModeratorMode(isMod)] sets the capacity to 100 for a
    moderator and to 20 otherwise, and changes no other field: the token
    count, the start of the window and the window length stay. *)
Theorem setModeratorMode_frame :
  forall (s : t) (isMod : bool),
    maxTokens (setModeratorMode isMod s) = (if isMod then 100 else 20)
    /\ tokens (setModeratorMode isMod s) = tokens s
    /\ lastRefill (setModeratorMode isMod s) = lastRefill s
    /\ refillIntervalMs (setModeratorMode isMod s) = refillIntervalMs s.
Proof.
  intros s isMod. unfold setModeratorMode. cbn. repeat split.
Qed.

(** C7.  The new tier is realised at the next refill.  After
    [setModeratorMode(isMod)] on any governor, a [tryConsume()] that
    rolls the window over followed by calls inside the new window admits
    exactly 100 calls (moderator) or exactly 20 (regular), the rolling
    call included, and denies the next one.  A governor constructed with
    capacity 100 and lowered with [setModeratorMode(false)] is the case
    [s = new 100 r t0], [isMod = false]. *)
Theorem setModeratorMode_realised_at_rollover :
  forall (s : t) (isMod : bool) (first : Z) (ts : list Z) (last : Z),
    refillIntervalMs s <= first - lastRefill s ->
    Forall (fun now => now - first < refillIntervalMs s) (ts ++ [last]) ->
    Z.of_nat (length (first :: ts)) = (if isMod then 100 else 20) ->
    fst (tryConsumeAll (first :: ts ++ [last]) (setModeratorMode isMod s))
      = repeat true (length (first :: ts)) ++ [false].
Proof.
  intros s isMod first ts last Hroll Hw Hlen.
  set (s0 := setModeratorMode isMod s).
  assert (Hcap : 0 < maxTokens s0) by (subst s0; cbn; destruct isMod; lia).
  cbn [tryConsumeAll app].
  rewrite (tryConsume_rollover first s0) by (subst s0; cbn; assumption).
  set (s1 := {| tokens := maxTokens s0 - 1 |}).
  pose proof (tryConsumeAll_in_window (ts ++ [last]) s1) as H.
  destruct (tryConsumeAll (ts ++ [last]) s1) as [oks s2]; cbn [fst] in *.
  rewrite H; clear H.
  - cbn [tokens s1]. rewrite length_app. cbn [length] in *.
    assert (Hk : Z.to_nat (maxTokens s0 - 1) = length ts)
      by (subst s0; cbn; lia).
    rewrite Hk.
    replace (Nat.min (length ts + 1) (length ts)) with (length ts) by lia.
    replace (length ts + 1 - length ts)%nat with 1%nat by lia.
    reflexivity.
  - subst s0; cbn; destruct isMod; lia.
  - exact Hw.
Qed.

Lemma setModeratorMode_realised_at_rollover_witness :
  fst (tryConsumeAll (30000 :: repeat 30000 19 ++ [30000])
         (setModeratorMode false (new 100 30000 0)))
    = repeat true (length (30000 :: repeat 30000 19)) ++ [false].
Proof.
  apply (setModeratorMode_realised_at_rollover
           (new 100 30000 0) false 30000 (repeat 30000 19) 30000).
  - cbn. lia.
  - apply Forall_forall. intros x Hx.
    assert (x = 30000).
    { apply in_app_or in Hx. destruct Hx as [Hx|Hx].
      - exact (repeat_spec _ _ _ Hx).
      - destruct Hx as [Hx|[]]. symmetry. exact Hx. }
    subst x. cbn. lia.
  - reflexivity.
Defined.

(** C5.  With a positive capacity and a timer that is never early:
    [waitForToken()] on a governor that has a token resolves at once,
    without sleeping.  On a governor with no token it resolves, and not
    before [refillIntervalMs] has elapsed since [lastRefill]: if the
    window is still open it sleeps once, for
    [max(refillIntervalMs - (now - lastRefill), 100)], and resolves when
    the timer fires; if the window has already run out it resolves at
    once.  In every case a denied attempt sleeps for that maximum,
    computed on the object as the attempt left it, and then retries. *)
Theorem waitForToken_resolves :
  forall (wake : Z -> Z -> Z) (fuel : nat) (now : Z) (s : t),
    (forall t d, t + d <= wake t d) ->
    0 < maxTokens s ->
    (0 < tokens s ->
       waitForToken wake (S fuel) now s
         = Some ([], now, snd (tryConsume now s))
       /\ fst (tryConsume now s) = true)
    /\ (tokens s <= 0 ->
        exists ds t' s',
          waitForToken wake (S (S fuel)) now s = Some (ds, t', s')
          /\ refillIntervalMs s <= t' - lastRefill s
          /\ (in_window s now ->
               let d := Z.max (refillIntervalMs s - (now - lastRefill s)) 100 in
               ds = [d] /\ t' = wake now d)
          /\ (~ in_window s now -> ds = [] /\ t' = now)
          /\ tokens s' = maxTokens s - 1
          /\ lastRefill s' = t')
    /\ (forall s1,
          tryConsume now s = (false, s1) ->
          let d := Z.max (refillIntervalMs s1 - (now - lastRefill s1)) 100 in
          waitForToken wake (S fuel) now s =
            match waitForToken wake fuel (wake now d) s1 with
            | Some (ds, t', s2) => Some (d :: ds, t', s2)
            | None => None
            end).
Proof.
  intros wake fuel now s Hw Hm. split; [|split].
  - intros Hpos. cbn [waitForToken].
    assert (E : fst (tryConsume now s) = true).
    { destruct (Z.lt_ge_cases (now - lastRefill s) (refillIntervalMs s)) as [Hin|Hout].
      - rewrite (tryConsume_in_window now s Hin).
        destruct (Z.ltb_spec 0 (tokens s)); [reflexivity | lia].
      - rewrite (tryConsume_rollover now s Hout Hm). reflexivity. }
    destruct (tryConsume now s) as [ok s1]; cbn [fst snd] in *; subst ok.
    split; reflexivity.
  - intros Hzero.
    destruct (Z.lt_ge_cases (now - lastRefill s) (refillIntervalMs s)) as [Hin|Hout].
    + set (d := Z.max (refillIntervalMs s - (now - lastRefill s)) 100).
      assert (Hr : refillIntervalMs s <= wake now d - lastRefill s)
        by (specialize (Hw now d); lia).
      exists [d], (wake now d),
        {| tokens := maxTokens s - 1; lastRefill := wake now d;
           maxTokens := maxTokens s; refillIntervalMs := refillIntervalMs s |}.
      cbn [waitForToken]. rewrite (tryConsume_in_window now s Hin).
      destruct (Z.ltb_spec 0 (tokens s)); [lia|].
      fold d. rewrite (tryConsume_rollover _ s Hr Hm).
      split; [reflexivity|]. split; [exact Hr|].
      split; [intros _; split; reflexivity|].
      split; [intros Hn; contradiction|]. split; reflexivity.
    + exists [], now,
        {| tokens := maxTokens s - 1; lastRefill := now;
           maxTokens := maxTokens s; refillIntervalMs := refillIntervalMs s |}.
      cbn [waitForToken]. rewrite (tryConsume_rollover now s Hout Hm).
      split; [reflexivity|]. split; [exact Hout|].
      split; [unfold in_window; intros Hin; lia|].
      split; [intros _; split; reflexivity|]. split; reflexivity.
  - intros s1 E d. cbn [waitForToken]. rewrite E. reflexivity.
Qed.

Lemma waitForToken_resolves_witness :
  (exists ds t' s',
     waitForToken wake_exact 2 10 (snd (tryConsume 5 (new 1 30000 0)))
       = Some (ds, t', s')
     /\ 30000 <= t' - 0 /\ ds = [29990] /\ t' = 30000)
  /\ waitForToken wake_exact 1 10 (new 5 30000 0)
      = Some ([], 10, snd (tryConsume 10 (new 5 30000 0))).
Proof.
  assert (Hw : forall t d, t + d <= wake_exact t d)
    by (intros; unfold wake_exact; lia).
  split.
  - destruct (waitForToken_resolves wake_exact 0 10
                (snd (tryConsume 5 (new 1 30000 0))) Hw ltac:(cbn; lia))
      as [_ [H _]].
    destruct (H ltac:(cbn; lia)) as (ds & t' & s' & E & Hge & Hin & _).
    destruct (Hin ltac:(unfold in_window; cbn; lia)) as [Hds Ht].
    exists ds, t', s'. repeat split; assumption.
  - destruct (waitForToken_resolves wake_exact 0 10 (new 5 30000 0) Hw
                ltac:(cbn; lia)) as [H _].
    exact (proj1 (H ltac:(cbn; lia))).
Defined.

(** C8, as stated, fails: lowering the tier of a full elevated bucket
    leaves 100 tokens under a capacity of 20. *)
Lemma Inv_broken_by_lowering_tier :
  Inv (new 100 30000 0) /\ ~ Inv (setModeratorMode false (new 100 30000 0)).
Proof.
  unfold Inv; cbn; split; lia.
Qed.

(** C8, amended.  [0 <= tokens <= maxTokens] is established by a
    construction with a capacity that is not negative and preserved by
    [tryConsume()] and [waitForToken()].  [setModeratorMode] always
    preserves [0 <= tokens] and a non-negative capacity, as do the other
    operations; it preserves [tokens <= maxTokens] when the new capacity
    is not below the current token count; and whatever it leaves, the
    next call that rolls the window over restores the invariant. *)
Theorem Inv_preservation :
  (forall c r now, 0 <= c -> Inv (new c r now))
  /\ (forall now s, Inv s -> Inv (snd (tryConsume now s)))
  /\ (forall wake fuel now s ds t' s',
        Inv s -> waitForToken wake fuel now s = Some (ds, t', s') -> Inv s')
  /\ (forall s, Inv s -> NonNeg s)
  /\ (forall isMod s, NonNeg s -> NonNeg (setModeratorMode isMod s))
  /\ (forall now s, NonNeg s -> NonNeg (snd (tryConsume now s)))
  /\ (forall wake fuel now s ds t' s',
        NonNeg s -> waitForToken wake fuel now s = Some (ds, t', s') ->
        NonNeg s')
  /\ (forall (isMod : bool) s,
        Inv s -> tokens s <= (if isMod then 100 else 20) ->
        Inv (setModeratorMode isMod s))
  /\ (forall isMod s now,
        refillIntervalMs s <= now - lastRefill s ->
        Inv (snd (tryConsume now (setModeratorMode isMod s)))).
Proof.
  repeat apply conj.
  - intros c r now Hc. unfold Inv; cbn; lia.
  - exact tryConsume_Inv.
  - intros wake. exact (waitForToken_preserves Inv wake tryConsume_Inv).
  - unfold Inv, NonNeg; intros; lia.
  - unfold NonNeg; intros [|] s H; cbn; lia.
  - exact tryConsume_NonNeg.
  - intros wake. exact (waitForToken_preserves NonNeg wake tryConsume_NonNeg).
  - unfold Inv; intros [|] s H Hle; cbn in *; lia.
  - intros isMod s now Hr.
    rewrite tryConsume_rollover by (cbn; destruct isMod; (assumption || lia)).
    unfold Inv; cbn; destruct isMod; lia.
Qed.

Lemma Inv_preservation_witness :
  Inv (new 20 30000 0)
  /\ Inv (snd (tryConsume 7 (new 20 30000 0)))
  /\ Inv (setModeratorMode true (new 20 30000 0))
  /\ NonNeg (setModeratorMode false (new 100 30000 0))
  /\ Inv (snd (tryConsume 30000 (setModeratorMode false (new 100 30000 0)))).
Proof.
  destruct Inv_preservation
    as (Hnew & Htry & _ & Hlow & Hset0 & _ & _ & Hset & Hroll).
  assert (H20 : Inv (new 20 30000 0)) by (apply Hnew; lia).
  assert (H100 : Inv (new 100 30000 0)) by (apply Hnew; lia).
  split; [|split; [|split; [|split]]].
  - exact H20.
  - apply Htry, H20.
  - apply Hset; [exact H20 | cbn; lia].
  - apply Hset0, Hlow, H100.
  - apply Hroll. cbn. lia.
Defined.

End RateLimiterClaims.

(** * Properties of the string operations *)

Section JsStringFacts.

Import JsString.

Lemma len_nonneg : forall s, 0 <= len s.
Proof. intros s; unfold len; lia. Qed.

(** [s.slice(0, k)] is the prefix of [k] code units. *)
Lemma slice_prefix : forall s k,
  0 <= k -> slice s 0 (Some k) = firstn (Z.to_nat k) s.
Proof.
  intros s k Hk. unfold slice.
  pose proof (len_nonneg s) as Hn. unfold len in *.
  destruct (Z.ltb_spec 0 0); [lia|].
  destruct (Z.ltb_spec k 0); [lia|].
  rewrite (Z.min_l 0) by lia.
  destruct (Z.leb_spec (Z.min k (Z.of_nat (length s))) 0) as [Hle|Hgt].
  - destruct s as [|c s]; [now rewrite firstn_nil|].
    cbn [length] in Hle. replace k with 0 by lia. reflexivity.
  - cbn [skipn Z.to_nat]. rewrite Z.sub_0_r.
    destruct (Z.le_ge_cases k (Z.of_nat (length s))).
    + rewrite Z.min_l by lia. reflexivity.
    + rewrite Z.min_r by lia. rewrite Nat2Z.id.
      rewrite !firstn_all2 by lia. reflexivity.
Qed.

(** [s.slice(k)] is what follows the first [k] code units. *)
Lemma slice_suffix : forall s k,
  0 <= k -> slice s k None = skipn (Z.to_nat k) s.
Proof.
  intros s k Hk. unfold slice.
  pose proof (len_nonneg s) as Hn. unfold len in *.
  destruct (Z.ltb_spec k 0); [lia|].
  destruct (Z.leb_spec (Z.of_nat (length s)) (Z.min k (Z.of_nat (length s))))
    as [Hle|Hgt].
  - rewrite skipn_all2 by lia. reflexivity.
  - rewrite Z.min_l by lia.
    rewrite firstn_all2; [reflexivity|].
    rewrite length_skipn. lia.
Qed.

Lemma lastIndexOf_down_spec : forall s c k,
  (lastIndexOf_down s c k = -1
   /\ forall i, (i <= k)%nat -> nth_error s i <> Some c)
  \/ (exists j, lastIndexOf_down s c k = Z.of_nat j /\ (j <= k)%nat
                /\ nth_error s j = Some c
                /\ forall i, (j < i <= k)%nat -> nth_error s i <> Some c).
Proof.
  intros s c. induction k as [|k IH].
  - cbn [lastIndexOf_down].
    destruct (nth_error s 0) as [x|] eqn:E.
    + destruct (N.eqb_spec x c) as [->|Hne].
      * right. exists 0%nat. repeat split; auto. intros i Hi; lia.
      * left. split; [reflexivity|]. intros i Hi.
        replace i with 0%nat by lia. rewrite E. congruence.
    + left. split; [reflexivity|]. intros i Hi.
      replace i with 0%nat by lia. rewrite E. discriminate.
  - cbn [lastIndexOf_down].
    assert (Hstep :
      nth_error s (S k) <> Some c ->
      (lastIndexOf_down s c k = -1
       /\ forall i, (i <= S k)%nat -> nth_error s i <> Some c)
      \/ (exists j, lastIndexOf_down s c k = Z.of_nat j /\ (j <= S k)%nat
                    /\ nth_error s j = Some c
                    /\ forall i, (j < i <= S k)%nat -> nth_error s i <> Some c)).
    { intros Hne. destruct IH as [[E Hno]|(j & E & Hj & Hc & Hno)].
      - left. split; [exact E|]. intros i Hi.
        destruct (Nat.eq_dec i (S k)) as [->|]; [exact Hne | apply Hno; lia].
      - right. exists j. repeat split; auto.
        intros i Hi.
        destruct (Nat.eq_dec i (S k)) as [->|]; [exact Hne | apply Hno; lia]. }
    destruct (nth_error s (S k)) as [x|] eqn:E.
    + destruct (N.eqb_spec x c) as [->|Hne].
      * right. exists (S k). repeat split; auto. intros i Hi; lia.
      * apply Hstep. congruence.
    + apply Hstep. discriminate.
Qed.

(** [lastIndexOf] finds the last occurrence at or before a position that
    is not negative. *)
Lemma lastIndexOf_spec : forall s c pos,
  0 <= pos -> last_at_or_before s c pos (lastIndexOf s c pos).
Proof.
  intros s c pos Hpos. unfold lastIndexOf, last_at_or_before, char_at.
  pose proof (len_nonneg s) as Hn. unfold len in *.
  rewrite (Z.max_l pos 0) by lia.
  set (start := Z.min pos (Z.of_nat (length s) - 1)).
  assert (Hbeyond : forall i, start < i <= pos ->
            (if i <? 0 then None else nth_error s (Z.to_nat i)) <> Some c).
  { intros i Hi. destruct (Z.ltb_spec i 0); [discriminate|].
    assert (Hnone : nth_error s (Z.to_nat i) = None)
      by (apply nth_error_None; subst start; lia).
    rewrite Hnone. discriminate. }
  destruct (Z.ltb_spec start 0) as [Hneg|Hok].
  - left. split; [reflexivity|]. intros i Hi. apply Hbeyond. lia.
  - destruct (lastIndexOf_down_spec s c (Z.to_nat start))
      as [[E Hno]|(j & E & Hj & Hc & Hno)]; rewrite E.
    + left. split; [reflexivity|]. intros i Hi.
      destruct (Z.le_gt_cases i start).
      * destruct (Z.ltb_spec i 0); [discriminate|]. apply Hno. lia.
      * apply Hbeyond. lia.
    + right. split; [subst start; lia|].
      destruct (Z.ltb_spec (Z.of_nat j) 0); [lia|].
      rewrite Nat2Z.id. split; [exact Hc|].
      intros i Hi. destruct (Z.le_gt_cases i start).
      * destruct (Z.ltb_spec i 0); [discriminate|]. apply Hno. lia.
      * apply Hbeyond. lia.
Qed.

(** There is only one such index. *)
Lemma last_at_or_before_unique : forall s c pos q1 q2,
  last_at_or_before s c pos q1 -> last_at_or_before s c pos q2 -> q1 = q2.
Proof.
  unfold last_at_or_before.
  intros s c pos q1 q2 [[E1 H1]|(B1 & C1 & H1)] [[E2 H2]|(B2 & C2 & H2)].
  - lia.
  - exfalso. apply (H1 q2); [lia | exact C2].
  - exfalso. apply (H2 q1); [lia | exact C1].
  - destruct (Z.lt_trichotomy q1 q2) as [Hlt|[Heq|Hgt]]; [|exact Heq|].
    + exfalso. apply (H1 q2); [lia | exact C2].
    + exfalso. apply (H2 q1); [lia | exact C1].
Qed.

(** [trimStart] drops a run of whitespace and nothing else. *)
Lemma trimStart_gap : forall s,
  exists gap, s = gap ++ trimStart s /\ all_ws gap.
Proof.
  induction s as [|c s (gap & E & Hws)].
  - exists []. split; [reflexivity | constructor].
  - cbn [trimStart]. destruct (is_ws c) eqn:Hc.
    + exists (c :: gap). split; [cbn; f_equal; exact E|].
      constructor; assumption.
    + exists []. split; [reflexivity | constructor].
Qed.

Lemma trimStart_length : forall s, (length (trimStart s) <= length s)%nat.
Proof.
  intros s. destruct (trimStart_gap s) as (gap & E & _).
  rewrite E at 2. rewrite length_app. lia.
Qed.

Lemma trimStart_no_ws : forall s, no_ws s -> trimStart s = s.
Proof.
  intros [|c s] H; [reflexivity|].
  inversion H as [|? ? Hc _]; subst. cbn. rewrite Hc. reflexivity.
Qed.

Lemma non_ws_app : forall a b, non_ws (a ++ b) = non_ws a ++ non_ws b.
Proof. intros a b. unfold non_ws. apply filter_app. Qed.

Lemma non_ws_all_ws : forall gap, all_ws gap -> non_ws gap = [].
Proof.
  induction 1 as [|c gap Hc _ IH]; [reflexivity|].
  unfold non_ws in *. cbn. rewrite Hc. exact IH.
Qed.

Lemma all_ws_no_ws_nil : forall gap, all_ws gap -> no_ws gap -> gap = [].
Proof.
  intros [|c gap] Ha Hn; [reflexivity|].
  inversion Ha; inversion Hn; subst. congruence.
Qed.

Lemma words_leading_ws : forall gap s, all_ws gap -> words (gap ++ s) = words s.
Proof.
  induction 1 as [|c gap Hc _ IH]; [reflexivity|].
  cbn [app words]. rewrite Hc. exact IH.
Qed.

Lemma words_all_ws : forall gap, all_ws gap -> words gap = [].
Proof.
  intros gap H. rewrite <- (app_nil_r gap). rewrite words_leading_ws by assumption.
  reflexivity.
Qed.

Lemma words_starts_non_ws : forall c s, is_ws c = false -> words (c :: s) <> [].
Proof.
  intros c s Hc. cbn [words]. rewrite Hc.
  destruct s as [|c' s']; [discriminate|].
  destruct (is_ws c'); [discriminate|].
  destruct (words (c' :: s')); discriminate.
Qed.

Lemma words_nonempty : forall s, Forall (fun w => w <> []) (words s).
Proof.
  induction s as [|c s IH]; [constructor|].
  cbn [words]. destruct (is_ws c); [exact IH|].
  destruct s as [|c' s']; [repeat constructor; discriminate|].
  destruct (is_ws c'); [constructor; [discriminate | exact IH]|].
  destruct (words (c' :: s')) as [|w ws]; [repeat constructor; discriminate|].
  inversion IH; subst. constructor; [discriminate | assumption].
Qed.

(** A non-empty run of whitespace separates the words on its two sides. *)
Lemma words_gap : forall a gap b,
  gap <> [] -> all_ws gap -> words (a ++ gap ++ b) = words a ++ words b.
Proof.
  intros a gap b Hne Hws. induction a as [|c a IH].
  - cbn [app]. apply words_leading_ws. exact Hws.
  - cbn [app words]. destruct (is_ws c) eqn:Hc; [exact IH|].
    destruct a as [|c' a'].
    + destruct gap as [|g gap']; [congruence|].
      inversion Hws as [|? ? Hg _]; subst.
      cbn [app words] in IH |- *. rewrite Hg in IH |- *.
      rewrite IH. reflexivity.
    + cbn [app] in IH |- *. destruct (is_ws c') eqn:Hc'.
      * rewrite IH. reflexivity.
      * rewrite IH.
        pose proof (words_starts_non_ws c' a' Hc') as Hw.
        destruct (words (c' :: a')) as [|w ws]; [congruence | reflexivity].
Qed.

Lemma words_trailing_ws : forall s gap, all_ws gap -> words (s ++ gap) = words s.
Proof.
  intros s gap Hws. destruct gap as [|g gap'].
  - rewrite app_nil_r. reflexivity.
  - rewrite <- (app_nil_r (g :: gap')).
    rewrite words_gap by (assumption || discriminate).
    cbn [words]. apply app_nil_r.
Qed.

Lemma words_join : forall chunks,
  words (join [space] chunks) = flat_map words chunks.
Proof.
  induction chunks as [|c [|c2 cs] IH]; [reflexivity| |].
  - cbn. symmetry. apply app_nil_r.
  - change (join [space] (c :: c2 :: cs)) with (c ++ [space] ++ join [space] (c2 :: cs)).
    rewrite words_gap; [|discriminate|repeat constructor].
    rewrite IH. reflexivity.
Qed.

Lemma trimStart_collapse_ws : forall s,
  trimStart (collapse_ws s) = collapse_ws (trimStart s).
Proof.
  induction s as [|c s IH]; [reflexivity|].
  cbn [collapse_ws trimStart]. destruct (is_ws c) eqn:Hc.
  - destruct s as [|c' s']; [reflexivity|].
    destruct (is_ws c') eqn:Hc'; [exact IH|].
    cbn [trimStart]. change (is_ws space) with true. cbv iota. exact IH.
  - cbn [trimStart collapse_ws]. rewrite Hc. reflexivity.
Qed.

Lemma join_cons_nonempty : forall w ws,
  w <> [] -> join [space] (w :: ws) <> [].
Proof.
  intros [|c w] ws H; [congruence|]. destruct ws; discriminate.
Qed.

(** Collapsing whitespace and trimming the end leaves the words, one space
    between them, after one space if the text starts with whitespace. *)
Lemma trimEnd_collapse_ws : forall s,
  trimEnd (collapse_ws s) =
    match words s with
    | [] => []
    | ws => (if starts_ws s then [space] else []) ++ join [space] ws
    end.
Proof.
  induction s as [|c s IH]; [reflexivity|].
  pose proof (words_nonempty s) as Hne.
  cbn [collapse_ws words starts_ws]. destruct (is_ws c) eqn:Hc.
  - destruct s as [|c' s']; [reflexivity|].
    cbn [starts_ws] in IH. destruct (is_ws c') eqn:Hc'.
    + rewrite IH. reflexivity.
    + cbn [trimEnd]. rewrite IH.
      pose proof (words_starts_non_ws c' s' Hc') as Hw.
      destruct (words (c' :: s')) as [|w ws]; [congruence|].
      inversion Hne; subst.
      cbn [app].
      pose proof (join_cons_nonempty w ws ltac:(assumption)) as Hj.
      destruct (join [space] (w :: ws)) eqn:Ej;
        [exfalso; apply Hj; exact Ej | reflexivity].
  - cbn [trimEnd]. rewrite IH. rewrite Hc.
    destruct s as [|c' s']; [reflexivity|].
    cbn [starts_ws]. destruct (is_ws c') eqn:Hc'.
    + destruct (words (c' :: s')) as [|w ws] eqn:Ew; [reflexivity|].
      cbn [app]. reflexivity.
    + pose proof (words_starts_non_ws c' s' Hc') as Hw.
      destruct (words (c' :: s')) as [|w ws]; [congruence|].
      inversion Hne; subst.
      pose proof (join_cons_nonempty w ws ltac:(assumption)) as Hj.
      cbn [app].
      destruct (join [space] (w :: ws)) as [|x y] eqn:Ej;
        [exfalso; apply Hj; exact Ej|].
      destruct ws as [|w2 ws']; cbn [join] in *.
      * subst w. reflexivity.
      * rewrite <- Ej. reflexivity.
Qed.

Lemma starts_ws_trimStart : forall s, starts_ws (trimStart s) = false.
Proof.
  induction s as [|c s IH]; [reflexivity|].
  cbn [trimStart]. destruct (is_ws c) eqn:Hc; [exact IH|]. cbn. exact Hc.
Qed.

(** Normalising is writing the words with one space between them. *)
Lemma trim_collapse_ws : forall s,
  trim (collapse_ws s) = join [space] (words s).
Proof.
  intros s. unfold trim. rewrite trimStart_collapse_ws, trimEnd_collapse_ws.
  rewrite starts_ws_trimStart.
  destruct (trimStart_gap s) as (gap & E & Hws).
  assert (Hw : words s = words (trimStart s))
    by (rewrite E at 1; apply words_leading_ws; exact Hws).
  rewrite Hw. destruct (words (trimStart s)); reflexivity.
Qed.

End JsStringFacts.

(** * Properties of the splitting *)

Section SplitFacts.

Import JsString TwitchChatManager.

(** The split point the code computes is the one described. *)
Lemma split_point_spec : forall remaining maxLen,
  0 <= maxLen -> is_split_point remaining maxLen (split_point remaining maxLen).
Proof.
  intros r m Hm. unfold is_split_point, split_point, below_threshold.
  exists (lastIndexOf r space m). split; [apply lastIndexOf_spec; exact Hm|].
  destruct (Z.ltb_spec (5 * lastIndexOf r space m) (3 * m)); [left | right];
    split; (lia || reflexivity).
Qed.

Lemma is_split_point_bounds : forall remaining maxLen p,
  1 <= maxLen -> is_split_point remaining maxLen p -> 1 <= p <= maxLen.
Proof.
  intros r m p Hm (q & Hq & Hp).
  destruct Hq as [[E _]|(B & _ & _)]; destruct Hp as [[H1 E2]|[H1 E2]]; lia.
Qed.

Lemma is_split_point_unique : forall remaining maxLen p1 p2,
  is_split_point remaining maxLen p1 -> is_split_point remaining maxLen p2 ->
  p1 = p2.
Proof.
  intros r m p1 p2 (q1 & Hq1 & Hp1) (q2 & Hq2 & Hp2).
  assert (q1 = q2) by (eapply last_at_or_before_unique; eassumption).
  subst q2. lia.
Qed.

(** One iteration on a text that is too long shortens it. *)
Lemma split_step_shortens : forall remaining p,
  1 <= p ->
  0 < len remaining ->
  (length (trimStart (skipn (Z.to_nat p) remaining)) < length remaining)%nat.
Proof.
  intros r p Hp Hlen. unfold len in Hlen.
  pose proof (trimStart_length (skipn (Z.to_nat p) r)) as H.
  rewrite length_skipn in H. lia.
Qed.

(** With fuel beyond the length of the text the loop returns, and what it
    appends to the array is what [loop_chunks] describes. *)
Lemma split_loop_chunks : forall maxLen,
  1 <= maxLen ->
  forall fuel remaining acc,
    (length remaining < fuel)%nat ->
    exists chunks,
      split_loop fuel maxLen remaining acc = Some (acc ++ chunks)
      /\ loop_chunks maxLen remaining chunks.
Proof.
  intros m Hm. induction fuel as [|fuel IH]; intros r acc Hfuel; [lia|].
  cbn [split_loop].
  destruct (Z.ltb_spec 0 (len r)) as [Hpos|Hempty].
  - destruct (Z.leb_spec (len r) m) as [Hfit|Hlong].
    + exists [r]. split; [reflexivity|]. apply loop_last. lia.
    + pose proof (split_point_spec r m ltac:(lia)) as Hsp.
      pose proof (is_split_point_bounds r m _ Hm Hsp) as Hb.
      cbv zeta. set (p := split_point r m) in *.
      rewrite slice_suffix, slice_prefix by lia.
      destruct (IH (trimStart (skipn (Z.to_nat p) r))
                   (acc ++ [firstn (Z.to_nat p) r])) as (cs & E & Hcs).
      { pose proof (split_step_shortens r p ltac:(lia) Hpos). lia. }
      exists (firstn (Z.to_nat p) r :: cs). split.
      * etransitivity; [exact E|]. rewrite <- app_assoc. reflexivity.
      * apply loop_split; assumption.
  - exists []. destruct r as [|c r]; [|unfold len in Hempty; cbn in Hempty; lia].
    split; [now rewrite app_nil_r | constructor].
Qed.

(** The description determines the chunks. *)
Lemma loop_chunks_unique : forall maxLen remaining cs1,
  1 <= maxLen ->
  loop_chunks maxLen remaining cs1 ->
  forall cs2, loop_chunks maxLen remaining cs2 -> cs1 = cs2.
Proof.
  intros m r cs1 Hm H1. induction H1 as [|r Hfit|r p cs Hlong Hp H1 IH];
    intros cs2 H2; inversion H2; subst;
    try reflexivity; try (unfold len in *; cbn in *; lia).
  match goal with
  | Hp1 : is_split_point ?r0 m ?p1, Hp2 : is_split_point ?r0 m ?p2 |- _ =>
      assert (p1 = p2) by (exact (is_split_point_unique _ _ _ _ Hp1 Hp2));
      subst p2
  end.
  f_equal. apply IH. assumption.
Qed.

Lemma loop_chunks_bounded : forall maxLen remaining chunks,
  1 <= maxLen ->
  loop_chunks maxLen remaining chunks ->
  Forall (fun chunk => len chunk <= maxLen) chunks.
Proof.
  intros m r cs Hm H. induction H as [|r Hfit|r p cs Hlong Hp H IH].
  - constructor.
  - constructor; [lia | constructor].
  - constructor; [|exact IH].
    pose proof (is_split_point_bounds r m p Hm Hp).
    unfold len. rewrite length_firstn. lia.
Qed.

Lemma loop_chunks_reassembles : forall maxLen remaining chunks,
  loop_chunks maxLen remaining chunks -> reassembles chunks remaining.
Proof.
  intros m r cs H. induction H as [|r Hfit|r p cs Hlong Hp H IH].
  - constructor.
  - rewrite <- (app_nil_r r) at 2.
    change (reassembles [r] (r ++ [] ++ [])).
    constructor; constructor.
  - destruct (trimStart_gap (skipn (Z.to_nat p) r)) as (gap & E & Hws).
    rewrite <- (firstn_skipn (Z.to_nat p) r) at 2. rewrite E.
    constructor; assumption.
Qed.

Lemma reassembles_non_ws : forall chunks text,
  reassembles chunks text -> non_ws (concat chunks) = non_ws text.
Proof.
  induction 1 as [|chunk gap rest chunks Hws H IH]; [reflexivity|].
  cbn [concat]. rewrite !non_ws_app, IH, (non_ws_all_ws gap Hws). reflexivity.
Qed.

Lemma reassembles_no_ws : forall chunks text,
  reassembles chunks text -> no_ws text -> concat chunks = text.
Proof.
  induction 1 as [|chunk gap rest chunks Hws H IH]; intros Hno; [reflexivity|].
  unfold no_ws in Hno.
  apply Forall_app in Hno. destruct Hno as [_ Hno].
  apply Forall_app in Hno. destruct Hno as [Hgap Hrest].
  rewrite (all_ws_no_ws_nil gap Hws Hgap). cbn [concat app].
  rewrite (IH Hrest). reflexivity.
Qed.

(** A text without whitespace that is too long comes out in two chunks at
    least. *)
Lemma loop_chunks_two : forall maxLen remaining chunks,
  1 <= maxLen ->
  loop_chunks maxLen remaining chunks ->
  maxLen < len remaining -> no_ws remaining ->
  (2 <= length chunks)%nat.
Proof.
  intros m r cs Hm H Hlong Hno.
  inversion H as [|r' Hfit|r' p cs' _ Hp H']; subst.
  - unfold len in Hlong; cbn in Hlong; lia.
  - lia.
  - pose proof (is_split_point_bounds r m p Hm Hp) as Hb.
    assert (Hskip : no_ws (skipn (Z.to_nat p) r)).
    { unfold no_ws in *. rewrite <- (firstn_skipn (Z.to_nat p) r) in Hno.
      apply Forall_app in Hno. tauto. }
    rewrite (trimStart_no_ws _ Hskip) in H'.
    assert (Hne : (0 < length (skipn (Z.to_nat p) r))%nat)
      by (rewrite length_skipn; unfold len in Hlong; lia).
    destruct (skipn (Z.to_nat p) r) as [|c rest]; [cbn in Hne; lia|].
    inversion H'; subst; cbn [length]; lia.
Qed.

Lemma skipn_char_at : forall s p c,
  char_at s p = Some c ->
  skipn (Z.to_nat p) s = c :: skipn (S (Z.to_nat p)) s.
Proof.
  unfold char_at. intros s p c H.
  destruct (p <? 0); [discriminate|].
  revert s H. induction (Z.to_nat p) as [|n IH]; intros [|x s] H;
    try discriminate.
  - cbn in H. inversion H; subst. reflexivity.
  - cbn [nth_error] in H. cbn [skipn]. rewrite (IH _ H). reflexivity.
Qed.

(** After a cut on a space the text is the chunk, a non-empty run of
    whitespace, and what the loop goes on with. *)
Lemma cut_on_space_gap : forall remaining p,
  char_at remaining p = Some space ->
  exists gap,
    gap <> [] /\ all_ws gap
    /\ remaining = firstn (Z.to_nat p) remaining ++ gap
                   ++ trimStart (skipn (Z.to_nat p) remaining).
Proof.
  intros r p H.
  pose proof (skipn_char_at r p space H) as E.
  destruct (trimStart_gap (skipn (S (Z.to_nat p)) r)) as (gap & Eg & Hws).
  exists (space :: gap). split; [discriminate|]. split.
  - constructor; [reflexivity | exact Hws].
  - rewrite E. cbn [trimStart]. change (is_ws space) with true. cbv iota.
    rewrite <- (firstn_skipn (Z.to_nat p) r) at 1. rewrite E.
    cbn [app]. do 2 f_equal. exact Eg.
Qed.

Lemma loop_chunks_words : forall maxLen remaining chunks,
  1 <= maxLen ->
  loop_chunks maxLen remaining chunks ->
  cuts_at_spaces maxLen remaining ->
  flat_map words chunks = words remaining.
Proof.
  intros m r cs Hm H. induction H as [|r Hfit|r p cs Hlong Hp H IH]; intros Hc.
  - reflexivity.
  - cbn. apply app_nil_r.
  - inversion Hc as [r' Hfit|r' _ Hsp Hrest]; subst; [lia|].
    assert (Ep : p = split_point r m).
    { eapply is_split_point_unique; [exact Hp|]. apply split_point_spec. lia. }
    subst p.
    destruct (cut_on_space_gap r _ Hsp) as (gap & Hne & Hws & E).
    cbn [flat_map]. rewrite (IH Hrest).
    rewrite <- (words_gap _ gap) by assumption.
    rewrite <- E. reflexivity.
Qed.

(** The whole function: it returns, and its result is described by the
    two cases of the code. *)
Lemma splitMessagePublic_fuel_chunks : forall fuel text maxLen,
  1 <= maxLen ->
  (length text < fuel)%nat ->
  exists chunks,
    splitMessagePublic_fuel fuel text maxLen = Some chunks
    /\ (len text <= maxLen -> chunks = [text])
    /\ (maxLen < len text -> loop_chunks maxLen text chunks).
Proof.
  intros fuel text m Hm Hfuel. unfold splitMessagePublic_fuel.
  destruct (Z.leb_spec (len text) m) as [Hfit|Hlong].
  - exists [text]. split; [reflexivity|]. split; [reflexivity | lia].
  - destruct (split_loop_chunks m Hm fuel text [] Hfuel) as (cs & E & Hcs).
    exists cs. split; [exact E|]. split; [lia | intros _; exact Hcs].
Qed.

Lemma splitMessagePublic_reassembles : forall text maxLen chunks,
  1 <= maxLen ->
  splitMessagePublic text maxLen = Some chunks ->
  reassembles chunks text.
Proof.
  intros text m cs Hm E. unfold splitMessagePublic in E.
  destruct (splitMessagePublic_fuel_chunks (S (length text)) text m Hm
              ltac:(lia)) as (cs' & E' & Hfit & Hlong).
  rewrite E in E'. inversion E'; subst cs'.
  destruct (Z.le_gt_cases (len text) m) as [H|H].
  - rewrite (Hfit H). rewrite <- (app_nil_r text) at 2.
    change (reassembles [text] (text ++ [] ++ [])).
    constructor; constructor.
  - eapply loop_chunks_reassembles. apply Hlong. exact H.
Qed.

End SplitFacts.

Section SplitClaims.

Import JsString TwitchChatManager.

(** C3, as stated, fails.  Followed word for word, the algorithm of the
    specification goes on splitting until the remaining text is empty; the
    code stops as soon as the remaining text fits and emits it whole.
    With [maxLen = 10] the remainder ["bbbbbbb c"] has a space at index 7,
    which is not below the threshold 6: the code keeps it in one chunk and
    the algorithm as worded cuts it in two. *)
Lemma split_differs_from_worded_algorithm :
  splitMessagePublic (lit "aaaaaaaa bbbbbbb c") 10
    = Some [lit "aaaaaaaa"; lit "bbbbbbb c"]
  /\ spec_split (lit "aaaaaaaa bbbbbbb c") 10
     = Some [lit "aaaaaaaa"; lit "bbbbbbb"; lit "c"]
  /\ splitMessagePublic (lit "aaaaaaaa bbbbbbb c") 10
     <> spec_split (lit "aaaaaaaa bbbbbbb c") 10.
Proof.
  split; [vm_compute; reflexivity|].
  split; [vm_compute; reflexivity|].
  vm_compute. discriminate.
Qed.

(** C3, amended.  For [maxLen >= 1], [splitMessagePublic] returns; a text
    that fits comes back alone and unchanged; a longer text is cut, while
    what remains is longer than [maxLen], at the last space at or before
    index [maxLen], or exactly at [maxLen] when that space lies below
    [0.6 * maxLen] or is missing, the remainder losing its leading
    whitespace after each cut; a non-empty remainder that fits is the
    last chunk, whole.  These rules determine the chunks, and every chunk
    is at most [maxLen] long. *)
Theorem split_follows_algorithm :
  forall (text : JsString.t) (maxLen : Z),
    1 <= maxLen ->
    exists chunks,
      splitMessagePublic text maxLen = Some chunks
      /\ (len text <= maxLen -> chunks = [text])
      /\ (maxLen < len text ->
          loop_chunks maxLen text chunks
          /\ forall chunks', loop_chunks maxLen text chunks' -> chunks' = chunks)
      /\ Forall (fun chunk => len chunk <= maxLen) chunks.
Proof.
  intros text m Hm. unfold splitMessagePublic.
  destruct (splitMessagePublic_fuel_chunks (S (length text)) text m Hm
              ltac:(lia)) as (cs & E & Hfit & Hlong).
  exists cs. split; [exact E|]. split; [exact Hfit|]. split.
  - intros H. split; [exact (Hlong H)|].
    intros cs' H'. eapply loop_chunks_unique; eauto.
  - destruct (Z.le_gt_cases (len text) m) as [H|H].
    + rewrite (Hfit H). constructor; [exact H | constructor].
    + eapply loop_chunks_bounded; eauto.
Qed.

Lemma split_follows_algorithm_witness :
  exists chunks,
    splitMessagePublic (lit "aaaaaaaa bbbbbbb c") 10 = Some chunks
    /\ Forall (fun chunk => len chunk <= 10) chunks.
Proof.
  destruct (split_follows_algorithm (lit "aaaaaaaa bbbbbbb c") 10
              ltac:(lia)) as (chunks & E & _ & _ & Hb).
  exists chunks. split; assumption.
Defined.

(** C4, as stated, fails for a text that contains spaces and a word too
    long for a chunk: the forced cut falls inside the word, and joining
    the chunks with spaces puts a space there that the text does not
    have. *)
Lemma rejoin_breaks_on_forced_split :
  exists chunks,
    splitMessagePublic (lit "a " ++ repeat_str (lit "b") 600)
      TWITCH_MAX_MSG_LENGTH = Some chunks
    /\ (2 <= length chunks)%nat
    /\ rejoin chunks <> trim (lit "a " ++ repeat_str (lit "b") 600).
Proof.
  eexists. split; [vm_compute; reflexivity|]. split; [cbn; lia|].
  intros H. apply (f_equal (@length _)) in H. vm_compute in H. discriminate.
Qed.

(** A text of 600 code units with no space but with a tab where the
    forced cut falls loses the tab: direct concatenation is one short. *)
Example forced_split_drops_whitespace :
  exists chunks,
    splitMessagePublic
      (repeat_str (lit "a") 500 ++ [9%N] ++ repeat_str (lit "b") 99)
      TWITCH_MAX_MSG_LENGTH = Some chunks
    /\ length (concat chunks) = 599%nat.
Proof.
  eexists. split; vm_compute; reflexivity.
Qed.

(** The unit test on 120 repetitions of ["word "]: two chunks, none over
    500, and the rejoined chunks are the trimmed text. *)
Example split_repeated_words :
  exists chunks,
    splitMessagePublic (repeat_str (lit "word ") 120) TWITCH_MAX_MSG_LENGTH
      = Some chunks
    /\ map (@length _) chunks = [499; 100]%nat
    /\ rejoin chunks = trim (repeat_str (lit "word ") 120).
Proof.
  eexists. split; [vm_compute; reflexivity|]. split; vm_compute; reflexivity.
Qed.

(** C4, amended.  For [maxLen >= 1] the text is the chunks in order with
    a run of whitespace, possibly empty, dropped after each: the code
    units that are not whitespace come out unchanged, none dropped and
    none doubled.  For a text without any whitespace the chunks
    concatenate to the text exactly, and there are two of them at least
    when the text is longer than [maxLen]. *)
Theorem split_preserves_content :
  forall (text : JsString.t) (maxLen : Z),
    1 <= maxLen ->
    exists chunks,
      splitMessagePublic text maxLen = Some chunks
      /\ reassembles chunks text
      /\ non_ws (concat chunks) = non_ws text
      /\ (no_ws text ->
          concat chunks = text
          /\ (maxLen < len text -> (2 <= length chunks)%nat))
      /\ (cuts_at_spaces maxLen text ->
          rejoin chunks = trim (collapse_ws text)
          /\ (collapse_ws text = text -> rejoin chunks = trim text)).
Proof.
  intros text m Hm.
  destruct (splitMessagePublic_fuel_chunks (S (length text)) text m Hm
              ltac:(lia)) as (cs & E & Hfit & Hlong).
  fold (splitMessagePublic text m) in E.
  pose proof (splitMessagePublic_reassembles text m cs Hm E) as Hre.
  exists cs. split; [exact E|]. split; [exact Hre|].
  split; [exact (reassembles_non_ws _ _ Hre)|]. split.
  - intros Hno. split; [exact (reassembles_no_ws _ _ Hre Hno)|].
    intros H. eapply loop_chunks_two; eauto.
  - intros Hcuts.
    assert (Hrejoin : rejoin cs = trim (collapse_ws text)).
    { unfold rejoin. rewrite !trim_collapse_ws, words_join. f_equal.
      destruct (Z.le_gt_cases (len text) m) as [H|H].
      - rewrite (Hfit H). cbn. apply app_nil_r.
      - eapply loop_chunks_words; eauto. }
    split; [exact Hrejoin|].
    intros Hnorm. rewrite Hrejoin, Hnorm. reflexivity.
Qed.

Lemma split_preserves_content_witness :
  (exists chunks,
     splitMessagePublic (repeat_str (lit "a") 600) 500 = Some chunks
     /\ concat chunks = repeat_str (lit "a") 600
     /\ (2 <= length chunks)%nat)
  /\ (exists chunks,
        splitMessagePublic (repeat_str (lit "word ") 120) 500 = Some chunks
        /\ rejoin chunks = trim (repeat_str (lit "word ") 120)).
Proof.
  split.
  2: {
    destruct (split_preserves_content (repeat_str (lit "word ") 120) 500
                ltac:(lia)) as (chunks & E & _ & _ & _ & H).
    exists chunks. split; [exact E|].
    apply H; [|vm_compute; reflexivity].
    apply cuts_space; [vm_compute; reflexivity | vm_compute; reflexivity |].
    apply cuts_fit. vm_compute. discriminate. }
  destruct (split_preserves_content (repeat_str (lit "a") 600) 500
              ltac:(lia)) as (chunks & E & _ & _ & H & _).
  assert (Hno : no_ws (repeat_str (lit "a") 600)).
  { apply Forall_forall. intros x Hx.
    assert (Hall : forallb (fun c => negb (is_ws c))
                     (repeat_str (lit "a") 600) = true)
      by (vm_compute; reflexivity).
    rewrite forallb_forall in Hall. specialize (Hall x Hx).
    destruct (is_ws x); [discriminate | reflexivity]. }
  destruct (H Hno) as [Hcat Htwo].
  exists chunks. split; [exact E|]. split; [exact Hcat|].
  apply Htwo. vm_compute. reflexivity.
Defined.

(** C10.  For [maxLen >= 1], [splitMessagePublic] terminates on every
    text: the loop condition is tested at most once per code unit of the
    text and once more, and any larger bound gives the same chunks.  In
    an iteration that cuts, the split point is between 1 and [maxLen],
    so the remaining text gets strictly shorter. *)
Theorem split_terminates :
  forall (text : JsString.t) (maxLen : Z),
    1 <= maxLen ->
    (exists chunks,
       splitMessagePublic text maxLen = Some chunks
       /\ forall fuel, (length text < fuel)%nat ->
            splitMessagePublic_fuel fuel text maxLen = Some chunks)
    /\ forall remaining,
         maxLen < len remaining ->
         1 <= split_point remaining maxLen <= maxLen
         /\ (length (trimStart (slice remaining
                                  (split_point remaining maxLen) None))
             < length remaining)%nat.
Proof.
  intros text m Hm. split.
  - unfold splitMessagePublic.
    destruct (splitMessagePublic_fuel_chunks (S (length text)) text m Hm
                ltac:(lia)) as (cs & E & Hfit & Hlong).
    exists cs. split; [exact E|].
    intros fuel Hfuel.
    destruct (splitMessagePublic_fuel_chunks fuel text m Hm Hfuel)
      as (cs' & E' & Hfit' & Hlong').
    rewrite E'. f_equal.
    destruct (Z.le_gt_cases (len text) m) as [H|H].
    + rewrite (Hfit H), (Hfit' H). reflexivity.
    + eapply loop_chunks_unique; eauto.
  - intros r Hlong.
    pose proof (is_split_point_bounds r m _ Hm
                  (split_point_spec r m ltac:(lia))) as Hb.
    split; [exact Hb|].
    rewrite slice_suffix by lia.
    apply split_step_shortens; lia.
Qed.

Lemma split_terminates_witness :
  exists chunks,
    splitMessagePublic (lit "aaaaaaaa bbbbbbb c") 10 = Some chunks
    /\ splitMessagePublic_fuel 100 (lit "aaaaaaaa bbbbbbb c") 10 = Some chunks.
Proof.
  destruct (split_terminates (lit "aaaaaaaa bbbbbbb c") 10 ltac:(lia))
    as [(chunks & E & Hfuel) _].
  exists chunks. split; [exact E|]. apply Hfuel. cbn. lia.
Defined.

(** Without the bound on [maxLen] the loop need not end: with
    [maxLen = 0] the split point is 0, nothing is consumed, and no amount
    of fuel is enough. *)
Example split_diverges_at_zero :
  forall fuel, splitMessagePublic_fuel fuel (lit "a") 0 = None.
Proof.
  intros fuel. unfold splitMessagePublic_fuel.
  change (len (lit "a") <=? 0) with false. cbv iota.
  generalize (@nil JsString.t).
  induction fuel as [|fuel IH]; intros acc; [reflexivity|].
  cbn [split_loop].
  change (0 <? len (lit "a")) with true.
  change (len (lit "a") <=? 0) with false. cbv iota zeta.
  change (trimStart (slice (lit "a") (split_point (lit "a") 0) None))
    with (lit "a").
  apply IH.
Qed.

End SplitClaims.

(** * Properties of the dispatch *)

Section DispatchFacts.

Import JsString TwitchChatManager.

Variable wake : Z -> Z -> Z.
Variables C Rejection : Type.
Variable send : C -> Z -> JsString.t -> C * Z * option Rejection.
Variable ev : JsString.t -> option Rejection -> event Rejection.

Lemma send_chunks_stopped_at : forall fuel chunks c rl now c' rl' t' tr out,
  send_chunks wake send ev fuel chunks c rl now = Some (c', rl', t', tr, out) ->
  stopped_at ev chunks tr out.
Proof.
  intros fuel. induction chunks as [|chunk rest IH];
    intros c rl now c' rl' t' tr out H; cbn [send_chunks] in H.
  - inversion H; subst. left. split; reflexivity.
  - destruct (RateLimiter.waitForToken wake fuel now rl)
      as [[[ds t1] rl1]|]; [|discriminate].
    destruct (send c t1 chunk) as [[c1 t2] [rej|]].
    + inversion H; subst. right. exists [], chunk, rest, rej.
      repeat split.
    + destruct (send_chunks wake send ev fuel rest c1 rl1 t2)
        as [[[[[c2 rl2] t3] tr2] out2]|] eqn:E; [|discriminate].
      inversion H; subst.
      destruct (IH _ _ _ _ _ _ _ _ E)
        as [[Hout Htr]|(pre & ch & post & rej & Hch & Hout & Htr)]; subst.
      * left. split; reflexivity.
      * right. exists (chunk :: pre), ch, post, rej. repeat split.
Qed.

(** With a positive capacity and a timer that is never early the loop
    always ends: every admission takes two attempts at most. *)
Lemma send_chunks_total : forall fuel chunks c rl now,
  (forall t d, t + d <= wake t d) ->
  0 < RateLimiter.maxTokens rl ->
  exists c' rl' t' tr out,
    send_chunks wake send ev (S (S fuel)) chunks c rl now
      = Some (c', rl', t', tr, out).
Proof.
  intros fuel chunks c rl now Hw. revert c rl now.
  induction chunks as [|chunk rest IH]; intros c rl now Hm.
  - cbn [send_chunks]. eauto 8.
  - cbn [send_chunks].
    destruct (waitForToken_two_attempts wake fuel now rl Hw Hm)
      as (ds & t1 & rl1 & E & Hmax & _).
    rewrite E.
    destruct (send c t1 chunk) as [[c1 t2] [rej|]]; [eauto 8|].
    destruct (IH c1 rl1 t2 ltac:(lia)) as (c2 & rl2 & t3 & tr & out & E2).
    rewrite E2. eauto 8.
Qed.

(** Over a transport that accepts every chunk the loop hands over all
    of them. *)
Lemma send_chunks_accepted : forall fuel chunks c rl now c' rl' t' tr out,
  (forall c0 t0 chunk, snd (send c0 t0 chunk) = None) ->
  send_chunks wake send ev fuel chunks c rl now = Some (c', rl', t', tr, out) ->
  out = Returned /\ tr = delivered ev chunks.
Proof.
  intros fuel. induction chunks as [|chunk rest IH];
    intros c rl now c' rl' t' tr out Hacc H; cbn [send_chunks] in H.
  - inversion H; subst. split; reflexivity.
  - destruct (RateLimiter.waitForToken wake fuel now rl)
      as [[[ds t1] rl1]|]; [|discriminate].
    pose proof (Hacc c t1 chunk) as Hr.
    destruct (send c t1 chunk) as [[c1 t2] r]; cbn [snd] in Hr; subst r.
    destruct (send_chunks wake send ev fuel rest c1 rl1 t2)
      as [[[[[c2 rl2] t3] tr2] out2]|] eqn:E; [|discriminate].
    inversion H; subst.
    destruct (IH _ _ _ _ _ _ _ _ Hacc E) as [-> ->]. split; reflexivity.
Qed.

(** A rejection in the trace of a loop that has ended is its last event,
    and the loop threw it. *)
Lemma stopped_at_rejection : forall chunks tr out chunk rej,
  (forall x r, ev x r <> Admission) ->
  (forall x r y r', ev x r = ev y r' -> x = y /\ r = r') ->
  stopped_at ev chunks tr out ->
  In (ev chunk (Some rej)) tr ->
  exists pre post,
    chunks = pre ++ chunk :: post
    /\ tr = delivered ev pre ++ [Admission; ev chunk (Some rej)]
    /\ out = Threw (TransportFailure rej).
Proof.
  intros chunks tr out chunk rej Hadm Hinj Hstop Hin.
  assert (Hnot : forall l, ~ In (ev chunk (Some rej)) (delivered ev l)).
  { intros l H. unfold delivered in H. apply in_flat_map in H.
    destruct H as (x & _ & [H|[H|[]]]).
    - symmetry in H. exact (Hadm _ _ H).
    - apply Hinj in H. destruct H as [_ H]. discriminate. }
  destruct Hstop as [[_ Htr]|(pre & ch & post & rj & Hch & Hout & Htr)];
    subst tr.
  - exfalso. exact (Hnot _ Hin).
  - apply in_app_or in Hin. destruct Hin as [Hin|[Hin|[Hin|[]]]].
    + exfalso. exact (Hnot _ Hin).
    + exfalso. exact (Hadm _ _ (eq_sym Hin)).
    + apply Hinj in Hin. destruct Hin as [-> Hr]. inversion Hr; subst rj.
      exists pre, post. repeat split; assumption.
Qed.

(** The calls of a handing-over are determined by where it starts. *)
Lemma hands_functional : forall fuel chunks s results1 s1 results2 s2,
  hands wake send fuel chunks s results1 s1 ->
  hands wake send fuel chunks s results2 s2 ->
  results1 = results2 /\ s1 = s2.
Proof.
  intros fuel chunks s results1 s1 results2 s2 H1. revert results2 s2.
  induction H1 as [s|chunk rest c rl now ds t1 rl1 c1 t2 r results s' Hw Hs H IH];
    intros results2 s2 H2; inversion H2; subst.
  - split; reflexivity.
  - match goal with
    | Hw2 : RateLimiter.waitForToken _ _ _ _ = Some _ |- _ =>
        rewrite Hw in Hw2; inversion Hw2; subst
    end.
    match goal with
    | Hs2 : send _ _ _ = _ |- _ => rewrite Hs in Hs2; inversion Hs2; subst
    end.
    match goal with
    | Hr : hands _ _ _ _ _ _ _ |- _ => destruct (IH _ _ Hr) as [-> ->]
    end.
    split; reflexivity.
Qed.

Lemma handed_trace_accepted : forall chunks,
  handed_trace ev chunks (repeat None (length chunks)) = delivered ev chunks.
Proof.
  induction chunks as [|chunk rest IH]; [reflexivity|].
  unfold handed_trace, delivered in *. cbn. rewrite IH. reflexivity.
Qed.

Lemma handed_trace_rejected : forall pre chunk rej,
  handed_trace ev (pre ++ [chunk]) (repeat None (length pre) ++ [Some rej])
    = delivered ev pre ++ [Admission; ev chunk (Some rej)].
Proof.
  induction pre as [|x pre IH]; intros chunk rej; [reflexivity|].
  unfold handed_trace, delivered in *. cbn. rewrite IH. reflexivity.
Qed.

(** The loop of a sender makes the calls of a handing-over, and no
    other: what it leaves is the transport, the limiter and the clock as
    the last call left them. *)
Lemma send_chunks_hands : forall fuel chunks c rl now c' rl' t' tr out,
  send_chunks wake send ev fuel chunks c rl now = Some (c', rl', t', tr, out) ->
  exists handed results,
    hands wake send fuel handed (c, rl, now) results (c', rl', t')
    /\ tr = handed_trace ev handed results
    /\ up_to_rejection chunks handed results out.
Proof.
  intros fuel. induction chunks as [|chunk rest IH];
    intros c rl now c' rl' t' tr out H; cbn [send_chunks] in H.
  - inversion H; subst. exists [], [].
    split; [constructor|]. split; [reflexivity|].
    left. repeat split.
  - destruct (RateLimiter.waitForToken wake fuel now rl)
      as [[[ds t1] rl1]|] eqn:Ew; [|discriminate].
    destruct (send c t1 chunk) as [[c1 t2] [rej|]] eqn:Es.
    + inversion H; subst. exists [chunk], [Some rej].
      split; [econstructor; [exact Ew | exact Es | constructor]|].
      split; [reflexivity|].
      right. exists [], chunk, rest, rej. repeat split.
    + destruct (send_chunks wake send ev fuel rest c1 rl1 t2)
        as [[[[[c2 rl2] t3] tr2] out2]|] eqn:E; [|discriminate].
      inversion H; subst.
      destruct (IH _ _ _ _ _ _ _ _ E) as (handed & results & Hh & Htr & Hup).
      exists (chunk :: handed), (None :: results).
      split; [econstructor; [exact Ew | exact Es | exact Hh]|].
      split; [subst tr2; reflexivity|].
      destruct Hup as [(-> & -> & ->)|(pre & ch & post & rej & -> & -> & -> & ->)].
      * left. repeat split.
      * right. exists (chunk :: pre), ch, post, rej. repeat split.
Qed.

(** If the transport, handed the chunks in order, accepts those of [pre]
    and rejects the next, the loop ends there: it leaves transport,
    limiter and clock as the rejected call left them. *)
Lemma send_chunks_rejected : forall fuel pre chunk post c rl now c2 rl2 t2 rej,
  hands wake send fuel (pre ++ [chunk]) (c, rl, now)
    (repeat None (length pre) ++ [Some rej]) (c2, rl2, t2) ->
  send_chunks wake send ev fuel (pre ++ chunk :: post) c rl now
    = Some (c2, rl2, t2,
            delivered ev pre ++ [Admission; ev chunk (Some rej)],
            Threw (TransportFailure rej)).
Proof.
  intros fuel. induction pre as [|x pre IH];
    intros chunk post c rl now c2 rl2 t2 rej H.
  - cbn [app length repeat] in *. inversion H; subst.
    match goal with
    | Hr : hands _ _ _ [] _ _ _ |- _ => inversion Hr; subst
    end.
    cbn [send_chunks].
    match goal with
    | Hw : RateLimiter.waitForToken _ _ _ _ = Some _ |- _ => rewrite Hw
    end.
    match goal with Hs : send _ _ _ = _ |- _ => rewrite Hs end.
    reflexivity.
  - cbn [app length repeat] in *. inversion H; subst.
    cbn [send_chunks].
    match goal with
    | Hw : RateLimiter.waitForToken _ _ _ _ = Some _ |- _ => rewrite Hw
    end.
    match goal with Hs : send _ _ _ = _ |- _ => rewrite Hs end.
    match goal with
    | Hr : hands _ _ _ (pre ++ [chunk]) _ _ _ |- _ =>
        rewrite (IH _ post _ _ _ _ _ _ _ Hr)
    end.
    reflexivity.
Qed.

End DispatchFacts.

Section DispatchClaims.

Import JsString TwitchChatManager.

Variable wake : Z -> Z -> Z.
Variables ChatClient ApiClient Rejection : Type.
Variable say :
  ChatClient -> Z -> JsString.t -> JsString.t ->
  ChatClient * Z * option Rejection.
Variable whispers_sendWhisper :
  ApiClient -> Z -> JsString.t -> JsString.t -> JsString.t ->
  ApiClient * Z * option Rejection.

(** C2.  With a positive capacity and a timer that is never early, a
    dispatch of any text ends, and the calls it has made are a
    handing-over of chunks of [splitMessagePublic(text, 500)], in that
    order: before each chunk one [waitForToken()] on the manager's
    limiter, as the chunk before left it and from the time the send of
    that chunk settled; then the chunk is given to the transport, as the
    chunk before left it.  The chunks handed over are all of them, or
    those up to the first the transport rejects; the manager afterwards
    holds the transport and the limiter as the last call left them, and
    the trace lists these calls with the transport's answers.  Over a
    transport that accepts every chunk all chunks are handed over and the
    dispatch returns.  [sendMessage] does so on a connected manager,
    [sendWhisper] on one with an API client and a bot user id. *)
Theorem dispatch_sends_chunks_in_order :
  forall (fuel : nat) (m : t ChatClient ApiClient) (now : Z)
         (text : JsString.t),
    (forall t d, t + d <= wake t d) ->
    0 < RateLimiter.maxTokens (rateLimiter m) ->
    exists chunks,
      splitMessagePublic text TWITCH_MAX_MSG_LENGTH = Some chunks
      /\ (forall client channel,
            chatClient m = Some client ->
            exists handed results client' rl' t' out,
              sendMessage wake say (S (S fuel)) m now channel text
                = Some ({| chatClient := Some client';
                           apiClient := apiClient m;
                           botUserId := botUserId m;
                           rateLimiter := rl' |},
                        t', handed_trace (Say channel) handed results, out)
              /\ hands wake (fun c t chunk => say c t channel chunk)
                   (S (S fuel)) handed (client, rateLimiter m, now)
                   results (client', rl', t')
              /\ up_to_rejection chunks handed results out
              /\ stopped_at (Say channel) chunks
                   (handed_trace (Say channel) handed results) out
              /\ ((forall c0 t0 chunk, snd (say c0 t0 channel chunk) = None) ->
                  handed = chunks
                  /\ out = Returned
                  /\ handed_trace (Say channel) handed results
                     = delivered (Say channel) chunks))
      /\ (forall api bot toUsername toUserId,
            apiClient m = Some api ->
            truthy (botUserId m) = Some bot ->
            exists handed results api' rl' t' out,
              sendWhisper wake whispers_sendWhisper (S (S fuel)) m now
                toUsername toUserId text
                = Some ({| chatClient := chatClient m;
                           apiClient := Some api';
                           botUserId := botUserId m;
                           rateLimiter := rl' |},
                        t', handed_trace (Whisper bot toUserId) handed results,
                        out)
              /\ hands wake
                   (fun a t chunk => whispers_sendWhisper a t bot toUserId chunk)
                   (S (S fuel)) handed (api, rateLimiter m, now)
                   results (api', rl', t')
              /\ up_to_rejection chunks handed results out
              /\ stopped_at (Whisper bot toUserId) chunks
                   (handed_trace (Whisper bot toUserId) handed results) out
              /\ ((forall a0 t0 chunk,
                     snd (whispers_sendWhisper a0 t0 bot toUserId chunk) = None) ->
                  handed = chunks
                  /\ out = Returned
                  /\ handed_trace (Whisper bot toUserId) handed results
                     = delivered (Whisper bot toUserId) chunks)).
Proof.
  intros fuel m now text Hw Hm.
  destruct (splitMessagePublic_fuel_chunks (S (length text)) text
              TWITCH_MAX_MSG_LENGTH ltac:(unfold TWITCH_MAX_MSG_LENGTH; lia)
              ltac:(lia)) as (chunks & E & _ & _).
  fold (splitMessagePublic text TWITCH_MAX_MSG_LENGTH) in E.
  assert (Hall : forall (T : Type)
                   (send : T -> Z -> JsString.t -> T * Z * option Rejection)
                   (ev : JsString.t -> option Rejection -> event Rejection)
                   (c : T),
            exists handed results c' rl' t' out,
              send_chunks wake send ev (S (S fuel)) chunks c (rateLimiter m) now
                = Some (c', rl', t', handed_trace ev handed results, out)
              /\ hands wake send (S (S fuel)) handed (c, rateLimiter m, now)
                   results (c', rl', t')
              /\ up_to_rejection chunks handed results out
              /\ stopped_at ev chunks (handed_trace ev handed results) out
              /\ ((forall c0 t0 chunk, snd (send c0 t0 chunk) = None) ->
                  handed = chunks
                  /\ out = Returned
                  /\ handed_trace ev handed results = delivered ev chunks)).
  { intros T send ev c.
    destruct (send_chunks_total wake _ _ send ev fuel chunks c (rateLimiter m)
                now Hw Hm) as (c' & rl' & t' & tr & out & Es).
    destruct (send_chunks_hands wake _ _ send ev _ _ _ _ _ _ _ _ _ _ Es)
      as (handed & results & Hh & Htr & Hup).
    subst tr. exists handed, results, c', rl', t', out.
    split; [exact Es|]. split; [exact Hh|]. split; [exact Hup|].
    split; [eapply send_chunks_stopped_at; exact Es|].
    intros Hacc.
    destruct (send_chunks_accepted wake _ _ send ev _ _ _ _ _ _ _ _ _ _ Hacc Es)
      as [Hout Htr].
    split; [|split; [exact Hout | exact Htr]].
    destruct Hup as [(Hhd & _)|(pre & ch & post & rej & _ & _ & _ & Hthrew)];
      [exact Hhd | congruence]. }
  exists chunks. split; [exact E|]. split.
  - intros client channel Hc.
    destruct (Hall _ (fun c t chunk => say c t channel chunk) (Say channel)
                client)
      as (handed & results & c' & rl' & t' & out & Es & Hrest).
    exists handed, results, c', rl', t', out.
    split; [|exact Hrest].
    unfold sendMessage. rewrite Hc, E, Es. reflexivity.
  - intros api bot toUsername toUserId Ha Hb.
    destruct (Hall _
                (fun a t chunk => whispers_sendWhisper a t bot toUserId chunk)
                (Whisper bot toUserId) api)
      as (handed & results & c' & rl' & t' & out & Es & Hrest).
    exists handed, results, c', rl', t', out.
    split; [|exact Hrest].
    unfold sendWhisper. rewrite Ha, Hb, E, Es. reflexivity.
Qed.

(** C9.  On a connected manager, with a positive capacity and a timer
    that is never early, [sendMessage] ends.  If the transport, handed
    the chunks in order, accepts those before chunk [i] and rejects chunk
    [i], then [sendMessage] leaves the transport as that one rejected
    call left it (the chunk was handed over once, and no chunk after it
    at all), the limiter after one admission for each chunk up to [i],
    and the clock where the rejection settled; the chunks before [i] were
    accepted in order; and [sendMessage] throws the very rejection the
    transport gave.  In every case the calls made are those up to the
    first rejection, and a rejection found in the trace is its last
    event. *)
Theorem sendMessage_stops_at_rejection :
  forall (fuel : nat) (m : t ChatClient ApiClient) (now : Z)
         (channel text : JsString.t) (client : ChatClient),
    (forall t d, t + d <= wake t d) ->
    0 < RateLimiter.maxTokens (rateLimiter m) ->
    chatClient m = Some client ->
    exists chunks m' t' tr out,
      splitMessagePublic text TWITCH_MAX_MSG_LENGTH = Some chunks
      /\ sendMessage wake say (S (S fuel)) m now channel text
         = Some (m', t', tr, out)
      /\ (forall pre chunk post rej client2 rl2 t2,
            chunks = pre ++ chunk :: post ->
            hands wake (fun c t chunk => say c t channel chunk) (S (S fuel))
              (pre ++ [chunk]) (client, rateLimiter m, now)
              (repeat None (length pre) ++ [Some rej]) (client2, rl2, t2) ->
            m' = {| chatClient := Some client2;
                    apiClient := apiClient m;
                    botUserId := botUserId m;
                    rateLimiter := rl2 |}
            /\ t' = t2
            /\ tr = delivered (Say channel) pre
                      ++ [Admission; Say channel chunk (Some rej)]
            /\ out = Threw (TransportFailure rej))
      /\ (exists handed results client' rl',
            m' = {| chatClient := Some client';
                    apiClient := apiClient m;
                    botUserId := botUserId m;
                    rateLimiter := rl' |}
            /\ hands wake (fun c t chunk => say c t channel chunk)
                 (S (S fuel)) handed (client, rateLimiter m, now)
                 results (client', rl', t')
            /\ tr = handed_trace (Say channel) handed results
            /\ up_to_rejection chunks handed results out)
      /\ forall chunk rej,
           In (Say channel chunk (Some rej)) tr ->
           exists pre post,
             chunks = pre ++ chunk :: post
             /\ tr = delivered (Say channel) pre
                       ++ [Admission; Say channel chunk (Some rej)]
             /\ out = Threw (TransportFailure rej).
Proof.
  intros fuel m now channel text client Hw Hm Hc.
  destruct (splitMessagePublic_fuel_chunks (S (length text)) text
              TWITCH_MAX_MSG_LENGTH ltac:(unfold TWITCH_MAX_MSG_LENGTH; lia)
              ltac:(lia)) as (chunks & E & _ & _).
  fold (splitMessagePublic text TWITCH_MAX_MSG_LENGTH) in E.
  destruct (send_chunks_total wake _ _
              (fun c t chunk => say c t channel chunk) (Say channel)
              fuel chunks client (rateLimiter m) now Hw Hm)
    as (c' & rl' & t' & tr & out & Es).
  exists chunks. unfold sendMessage. rewrite Hc, E, Es.
  do 4 eexists. split; [reflexivity|]. split; [reflexivity|].
  split; [|split].
  - intros pre chunk post rej client2 rl2 t2 Hch Hh. subst chunks.
    rewrite (send_chunks_rejected wake _ _
               (fun c t chunk => say c t channel chunk) (Say channel)
               _ _ _ post _ _ _ _ _ _ _ Hh) in Es.
    inversion Es; subst. repeat split.
  - destruct (send_chunks_hands wake _ _ _ _ _ _ _ _ _ _ _ _ _ _ Es)
      as (handed & results & Hh & Htr & Hup).
    exists handed, results, c', rl'. repeat split; assumption.
  - intros chunk rej Hin.
    eapply stopped_at_rejection;
      [| |eapply send_chunks_stopped_at; exact Es|exact Hin].
    + intros x r H; discriminate.
    + intros x r y r' H; inversion H; auto.
Qed.

End DispatchClaims.

Section DispatchWitnesses.

Import JsString TwitchChatManager.

Lemma wake_exact_never_early :
  forall t d, t + d <= RateLimiter.wake_exact t d.
Proof. intros t d. unfold RateLimiter.wake_exact. lia. Qed.

(** Three chunks through the recording transports: they arrive in the
    order of the split, one admission each. *)
Lemma dispatch_sends_chunks_in_order_witness :
  let text := repeat_str (lit "a") 1200 in
  let chunks := [repeat_str (lit "a") 500; repeat_str (lit "a") 500;
                 repeat_str (lit "a") 200] in
  splitMessagePublic text TWITCH_MAX_MSG_LENGTH = Some chunks
  /\ (exists rl' tr,
        sendMessage RateLimiter.wake_exact (recording_say None) 2
          (recording_manager 0) 0 (lit "#chan") text
          = Some ({| chatClient := Some chunks; apiClient := Some [];
                     botUserId := Some (lit "bot"); rateLimiter := rl' |},
                  3, tr, Returned)
        /\ RateLimiter.tokens rl' = 17
        /\ tr = delivered (Say (lit "#chan")) chunks)
  /\ (exists rl' tr,
        sendWhisper RateLimiter.wake_exact (recording_whisper None) 2
          (recording_manager 0) 0 (lit "viewer") (lit "42") text
          = Some ({| chatClient := Some []; apiClient := Some chunks;
                     botUserId := Some (lit "bot"); rateLimiter := rl' |},
                  3, tr, Returned)
        /\ RateLimiter.tokens rl' = 17
        /\ tr = delivered (Whisper (lit "bot") (lit "42")) chunks).
Proof.
  intros text chunks.
  destruct (dispatch_sends_chunks_in_order RateLimiter.wake_exact
              (list JsString.t) (list JsString.t) unit
              (recording_say None) (recording_whisper None)
              0 (recording_manager 0) 0 text
              wake_exact_never_early eq_refl)
    as (chunks' & E & Hmsg & Hwh).
  assert (Ec : chunks' = chunks)
    by (vm_compute in E; inversion E; reflexivity).
  subst chunks'. split; [exact E|]. split.
  - destruct (Hmsg [] (lit "#chan") eq_refl)
      as (handed & results & c' & rl' & t' & out & Es & _ & _ & _ & Hacc).
    destruct (Hacc ltac:(intros; reflexivity)) as (_ & Hout & Htr).
    rewrite Htr, Hout in Es.
    exists rl', (delivered (Say (lit "#chan")) chunks).
    assert (Hv : c' = chunks /\ t' = 3 /\ RateLimiter.tokens rl' = 17).
    { revert Es. vm_compute. intros Es. inversion Es. repeat split. }
    destruct Hv as (-> & -> & Htok).
    split; [exact Es|]. split; [exact Htok | reflexivity].
  - destruct (Hwh [] (lit "bot") (lit "viewer") (lit "42") eq_refl eq_refl)
      as (handed & results & c' & rl' & t' & out & Es & _ & _ & _ & Hacc).
    destruct (Hacc ltac:(intros; reflexivity)) as (_ & Hout & Htr).
    rewrite Htr, Hout in Es.
    exists rl', (delivered (Whisper (lit "bot") (lit "42")) chunks).
    assert (Hv : c' = chunks /\ t' = 3 /\ RateLimiter.tokens rl' = 17).
    { revert Es. vm_compute. intros Es. inversion Es. repeat split. }
    destruct Hv as (-> & -> & Htok).
    split; [exact Es|]. split; [exact Htok | reflexivity].
Defined.

(** Three chunks, the second rejected: the transport has received two,
    two admissions are gone, the third chunk was never handed over. *)
Lemma sendMessage_stops_at_rejection_witness :
  let text := repeat_str (lit "a") 1200 in
  let long := repeat_str (lit "a") 500 in
  exists rl2 tr,
    splitMessagePublic text TWITCH_MAX_MSG_LENGTH
      = Some [long; long; repeat_str (lit "a") 200]
    /\ sendMessage RateLimiter.wake_exact (recording_say (Some 1%nat)) 2
         (recording_manager 0) 0 (lit "#chan") text
       = Some ({| chatClient := Some [long; long]; apiClient := Some [];
                  botUserId := Some (lit "bot"); rateLimiter := rl2 |},
               2, tr, Threw (TransportFailure tt))
    /\ RateLimiter.tokens rl2 = 18
    /\ tr = delivered (Say (lit "#chan")) [long]
              ++ [Admission; Say (lit "#chan") long (Some tt)].
Proof.
  intros text long.
  destruct (sendMessage_stops_at_rejection RateLimiter.wake_exact
              (list JsString.t) (list JsString.t) unit
              (recording_say (Some 1%nat))
              0 (recording_manager 0) 0 (lit "#chan") text []
              wake_exact_never_early eq_refl eq_refl)
    as (chunks & m' & t' & tr & out & E & Es & Hrej & _).
  assert (Ec : chunks = [long; long; repeat_str (lit "a") 200])
    by (vm_compute in E; inversion E; reflexivity).
  subst chunks.
  edestruct (Hrej [long] long [repeat_str (lit "a") 200] tt)
    as (Hm' & Ht & Htr & Hout).
  - reflexivity.
  - eapply hands_next; [vm_compute; reflexivity | vm_compute; reflexivity |].
    eapply hands_next; [vm_compute; reflexivity | vm_compute; reflexivity |].
    apply hands_none.
  - subst m' t' out. eexists. exists tr.
    split; [exact E|]. split; [exact Es|]. split; [reflexivity | exact Htr].
Defined.

End DispatchWitnesses.

(** * Properties of the limiter under traffic *)

Section TrafficFacts.

Import RateLimiter Traffic.

Lemma count_occ_repeat_true : forall n m,
  count_occ bool_dec (repeat true n ++ repeat false m) true = n.
Proof.
  intros n m. rewrite count_occ_app.
  rewrite (count_occ_repeat_eq bool_dec) by reflexivity.
  rewrite (count_occ_repeat_neq bool_dec) by discriminate. lia.
Qed.

Lemma tryConsumeAll_cons : forall now ts s,
  tryConsumeAll (now :: ts) s =
    (fst (tryConsume now s) :: fst (tryConsumeAll ts (snd (tryConsume now s))),
     snd (tryConsumeAll ts (snd (tryConsume now s)))).
Proof.
  intros now ts s. cbn [tryConsumeAll].
  destruct (tryConsume now s) as [ok s1]. cbn [fst snd].
  destruct (tryConsumeAll ts s1) as [oks s2]. reflexivity.
Qed.

Lemma tryConsumeAll_app : forall ts1 ts2 s,
  tryConsumeAll (ts1 ++ ts2) s =
    (fst (tryConsumeAll ts1 s) ++ fst (tryConsumeAll ts2 (snd (tryConsumeAll ts1 s))),
     snd (tryConsumeAll ts2 (snd (tryConsumeAll ts1 s)))).
Proof.
  induction ts1 as [|now ts1 IH]; intros ts2 s.
  - cbn. destruct (tryConsumeAll ts2 s). reflexivity.
  - cbn [app]. rewrite !tryConsumeAll_cons, IH. reflexivity.
Qed.

(** The object after calls that all fall inside the window: only tokens
    have gone, as many as were admitted. *)
Lemma tryConsumeAll_in_window_state : forall ts s,
  0 <= tokens s ->
  Forall (in_window s) ts ->
  snd (tryConsumeAll ts s) =
    {| tokens := tokens s - Z.of_nat (Nat.min (length ts) (Z.to_nat (tokens s)));
       lastRefill := lastRefill s;
       maxTokens := maxTokens s;
       refillIntervalMs := refillIntervalMs s |}.
Proof.
  induction ts as [|now ts IH]; intros s Hk Hw.
  - cbn. destruct s; cbn. f_equal. lia.
  - inversion Hw as [|? ? Hnow Hrest]; subst.
    rewrite tryConsumeAll_cons. cbn [snd].
    rewrite (tryConsume_in_window _ _ Hnow).
    destruct (Z.ltb_spec 0 (tokens s)) as [Hpos|Hzero]; cbn [snd].
    + rewrite IH by (cbn; (lia || exact Hrest)). cbn [tokens lastRefill maxTokens refillIntervalMs length].
      f_equal. lia.
    + rewrite IH by assumption. f_equal. cbn [length]. lia.
Qed.

(** Inside one window no more calls are admitted than tokens are left. *)
Lemma admitted_in_window : forall ts s,
  0 <= tokens s ->
  Forall (in_window s) ts ->
  admitted (fst (tryConsumeAll ts s)) <= tokens s.
Proof.
  intros ts s Hk Hw. unfold admitted.
  rewrite tryConsumeAll_in_window by assumption.
  rewrite count_occ_repeat_true. lia.
Qed.

(** X1. Among any calls of tryConsume whose times all lie within a span
    shorter than one refill interval, in whatever order, at most tokens +
    maxTokens are admitted when neither counter is negative: never more than
    twice the capacity for a bucket that is not over-full. *)
Theorem admissions_in_short_span :
  forall (s : t) (ts : list Z) (a : Z),
    NonNeg s ->
    Forall (fun now => a <= now < a + refillIntervalMs s) ts ->
    admitted (fst (tryConsumeAll ts s)) <= tokens s + maxTokens s.
Proof.
  intros s ts a. revert s. unfold admitted in *.
  induction ts as [|now ts IH]; intros s [Hk Hm] Hspan; [cbn; lia|].
  inversion Hspan as [|? ? Hnow Hrest]; subst.
  rewrite tryConsumeAll_cons. cbn [fst].
  destruct (Z.lt_ge_cases (now - lastRefill s) (refillIntervalMs s)) as [Hin|Hout].
  - rewrite (tryConsume_in_window _ _ Hin).
    destruct (Z.ltb_spec 0 (tokens s)) as [Hpos|Hzero]; cbn [fst snd].
    + set (s1 := {| tokens := tokens s - 1 |}).
      specialize (IH s1 ltac:(split; cbn; lia) Hrest).
      cbn [count_occ]. destruct (bool_dec true true); [|congruence].
      cbn [tokens maxTokens s1] in IH. lia.
    + specialize (IH s (conj Hk Hm) Hrest).
      cbn [count_occ]. destruct (bool_dec false true); [discriminate|]. lia.
  - assert (Hw : forall s1, lastRefill s1 = now ->
                   refillIntervalMs s1 = refillIntervalMs s ->
                   Forall (in_window s1) ts).
    { intros s1 E1 E2. eapply Forall_impl; [|exact Hrest].
      intros x Hx. unfold in_window. cbv beta in Hx. lia. }
    unfold tryConsume. rewrite (refill_rollover _ _ Hout). cbn [tokens].
    destruct (Z.ltb_spec 0 (maxTokens s)) as [Hpos|Hzero]; cbn [fst snd].
    + set (s1 := {| tokens := maxTokens s - 1 |}).
      pose proof (admitted_in_window ts s1 ltac:(cbn; lia)
                    (Hw s1 eq_refl eq_refl)) as H1.
      cbn [count_occ]. destruct (bool_dec true true); [|congruence].
      unfold admitted in H1. cbn [tokens s1] in H1. lia.
    + set (s1 := {| tokens := maxTokens s |}).
      pose proof (admitted_in_window ts s1 ltac:(cbn; lia)
                    (Hw s1 eq_refl eq_refl)) as H1.
      cbn [count_occ]. destruct (bool_dec false true); [discriminate|].
      unfold admitted in H1. cbn [tokens s1] in H1. lia.
Qed.

End TrafficFacts.

Section TrafficClaims.

Import RateLimiter Traffic.

Lemma tryConsumeAll_all_in_window : forall ts s,
  Forall (in_window s) ts ->
  Z.of_nat (length ts) <= tokens s ->
  tryConsumeAll ts s =
    (repeat true (length ts),
     {| tokens := tokens s - Z.of_nat (length ts);
        lastRefill := lastRefill s;
        maxTokens := maxTokens s;
        refillIntervalMs := refillIntervalMs s |}).
Proof.
  intros ts s Hw Hlen.
  rewrite (surjective_pairing (tryConsumeAll ts s)).
  rewrite tryConsumeAll_in_window, tryConsumeAll_in_window_state
    by (assumption || lia).
  replace (Nat.min (length ts) (Z.to_nat (tokens s))) with (length ts) by lia.
  replace (length ts - Z.to_nat (tokens s))%nat with O by lia.
  cbn [repeat]. rewrite app_nil_r. reflexivity.
Qed.

(** X2. The bound of twice the capacity is reached: on a limiter of capacity
    c > 0 and interval r > 0 created at t0, c calls of tryConsume at t0 + r
    - 1 followed by c calls at t0 + r are all admitted, 2c admissions within
    one millisecond. *)
Theorem burst_across_window_boundary :
  forall (c r t0 : Z),
    0 < c -> 0 < r ->
    fst (tryConsumeAll
           (repeat (t0 + r - 1) (Z.to_nat c) ++ repeat (t0 + r) (Z.to_nat c))
           (new c r t0))
      = repeat true (Z.to_nat c + Z.to_nat c).
Proof.
  intros c r t0 Hc Hr.
  rewrite tryConsumeAll_app. cbn [fst].
  rewrite (tryConsumeAll_all_in_window (repeat (t0 + r - 1) (Z.to_nat c))).
  2: { apply Forall_forall. intros x Hx. apply repeat_spec in Hx. subst x.
       unfold in_window. cbn. lia. }
  2: { rewrite repeat_length. cbn. lia. }
  cbn [fst snd]. rewrite repeat_length, repeat_app. f_equal.
  destruct (Z.to_nat c) as [|n] eqn:En; [lia|].
  cbn [repeat]. rewrite tryConsumeAll_cons.
  rewrite tryConsume_rollover by (cbn; lia).
  cbn [fst snd]. f_equal.
  rewrite tryConsumeAll_all_in_window.
  - cbn [fst]. rewrite repeat_length. reflexivity.
  - apply Forall_forall. intros x Hx. apply repeat_spec in Hx. subst x.
    unfold in_window. cbn. lia.
  - rewrite repeat_length. cbn. lia.
Qed.

(** X3. With no token left and a capacity that is not positive, waitForToken
    never resolves: whatever the timer does, no number of attempts obtains a
    token. *)
Theorem waitForToken_starves_without_capacity :
  forall (wake : Z -> Z -> Z) (fuel : nat) (now : Z) (s : t),
    tokens s <= 0 -> maxTokens s <= 0 ->
    waitForToken wake fuel now s = None.
Proof.
  intros wake. induction fuel as [|fuel IH]; intros now s Hk Hm; [reflexivity|].
  cbn [waitForToken].
  assert (E : tryConsume now s = (false, refill now s)
              /\ tokens (refill now s) <= 0 /\ maxTokens (refill now s) <= 0).
  { unfold tryConsume, refill.
    destruct (Z.leb_spec (refillIntervalMs s) (now - lastRefill s)); cbn;
      match goal with |- context [0 <? ?x] => destruct (Z.ltb_spec 0 x) end;
      try lia; repeat split; cbn; lia. }
  destruct E as (E & Hk1 & Hm1). rewrite E.
  rewrite IH by assumption. reflexivity.
Qed.

Lemma tryConsume_setModeratorMode_in_window : forall isMod now s,
  in_window s now ->
  tryConsume now (setModeratorMode isMod s) =
    (fst (tryConsume now s), setModeratorMode isMod (snd (tryConsume now s))).
Proof.
  intros isMod now s Hin.
  rewrite (tryConsume_in_window now (setModeratorMode isMod s)) by exact Hin.
  rewrite (tryConsume_in_window now s Hin). cbn [tokens setModeratorMode].
  destruct (0 <? tokens s); reflexivity.
Qed.

(** X4. Changing the tier with setModeratorMode changes no verdict of
    tryConsume for calls inside the current window: the same calls are
    admitted and denied, and the final object differs only in the stored
    capacity. *)
Theorem setModeratorMode_grants_nothing_in_window :
  forall (isMod : bool) (ts : list Z) (s : t),
    Forall (in_window s) ts ->
    tryConsumeAll ts (setModeratorMode isMod s)
      = (fst (tryConsumeAll ts s), setModeratorMode isMod (snd (tryConsumeAll ts s))).
Proof.
  intros isMod. induction ts as [|now ts IH]; intros s Hw; [reflexivity|].
  inversion Hw as [|? ? Hnow Hrest]; subst.
  rewrite !tryConsumeAll_cons.
  rewrite (tryConsume_setModeratorMode_in_window isMod now s Hnow).
  cbn [fst snd].
  assert (Hrest' : Forall (in_window (snd (tryConsume now s))) ts).
  { rewrite (tryConsume_in_window now s Hnow).
    destruct (0 <? tokens s); exact Hrest. }
  rewrite (IH _ Hrest'). reflexivity.
Qed.

(** X5. With a positive capacity, a caller that lets at least one refill
    interval pass before every call of tryConsume (the first counted from
    lastRefill or later) is never denied. *)
Theorem slow_sender_never_denied :
  forall (ts : list Z) (s : t) (prev : Z),
    0 < maxTokens s ->
    lastRefill s <= prev ->
    spaced (refillIntervalMs s) prev ts ->
    fst (tryConsumeAll ts s) = repeat true (length ts).
Proof.
  induction ts as [|now ts IH]; intros s prev Hm Hprev Hsp; [reflexivity|].
  destruct Hsp as [Hgap Hsp].
  rewrite tryConsumeAll_cons.
  rewrite tryConsume_rollover by lia.
  cbn [fst snd length repeat]. f_equal.
  apply (IH _ now); cbn; (assumption || lia).
Qed.

End TrafficClaims.

(** * More properties of the splitting *)

Section ChunkFacts.

Import JsString JsText TwitchChatManager.

Lemma loop_chunks_long_prefixes : forall maxLen remaining chunks,
  1 <= maxLen ->
  loop_chunks maxLen remaining chunks ->
  Forall (fun chunk => 3 * maxLen <= 5 * len chunk) (removelast chunks).
Proof.
  intros m r cs Hm H. induction H as [|r Hfit|r p cs Hlong Hp H IH].
  - constructor.
  - constructor.
  - destruct cs as [|c2 cs']; [constructor|].
    change (removelast (firstn (Z.to_nat p) r :: c2 :: cs'))
      with (firstn (Z.to_nat p) r :: removelast (c2 :: cs')).
    constructor; [|exact IH].
    pose proof (is_split_point_bounds r m p Hm Hp) as Hb.
    unfold len in *. rewrite length_firstn.
    destruct Hp as (q & _ & [[_ ->]|[Hq ->]]); lia.
Qed.

Lemma len_app : forall a b : JsString.t, len (a ++ b) = len a + len b.
Proof. intros a b. unfold len. rewrite length_app. lia. Qed.

Lemma total_len_cons : forall chunk chunks,
  total_len (chunk :: chunks) = len chunk + total_len chunks.
Proof. reflexivity. Qed.

Lemma reassembles_total_len : forall chunks text,
  reassembles chunks text -> total_len chunks <= len text.
Proof.
  induction 1 as [|chunk gap rest chunks Hws H IH]; [cbn; lia|].
  rewrite total_len_cons, !len_app.
  pose proof (len_nonneg gap). lia.
Qed.

Lemma total_len_removelast : forall maxLen chunks,
  0 <= maxLen ->
  Forall (fun chunk => 3 * maxLen <= 5 * len chunk) (removelast chunks) ->
  3 * maxLen * (Z.of_nat (length chunks) - 1) <= 5 * total_len chunks.
Proof.
  intros m chunks Hm. induction chunks as [|c [|c2 cs] IH]; intros H.
  - change (Z.of_nat (length (@nil JsString.t))) with 0.
    change (total_len []) with 0. lia.
  - rewrite total_len_cons.
    change (Z.of_nat (length [c])) with 1. change (total_len []) with 0.
    pose proof (len_nonneg c). lia.
  - change (removelast (c :: c2 :: cs)) with (c :: removelast (c2 :: cs)) in H.
    inversion H as [|? ? Hc Hrest]; subst.
    specialize (IH Hrest).
    rewrite total_len_cons.
    change (length (c :: c2 :: cs)) with (S (length (c2 :: cs))).
    rewrite Nat2Z.inj_succ. nia.
Qed.

(** X6. For maxLen >= 1, every chunk of splitMessagePublic but the last has
    at least 0.6 * maxLen code units, the chunks together are no longer than
    the text, and so n chunks need 3 * maxLen * (n - 1) <= 5 * text.length. *)
Theorem split_chunks_not_tiny :
  forall (text : JsString.t) (maxLen : Z) (chunks : list JsString.t),
    1 <= maxLen ->
    splitMessagePublic text maxLen = Some chunks ->
    Forall (fun chunk => 3 * maxLen <= 5 * len chunk) (removelast chunks)
    /\ total_len chunks <= len text
    /\ 3 * maxLen * (Z.of_nat (length chunks) - 1) <= 5 * len text.
Proof.
  intros text m cs Hm E.
  pose proof (splitMessagePublic_reassembles text m cs Hm E) as Hre.
  pose proof (reassembles_total_len _ _ Hre) as Htot.
  assert (Hlong : Forall (fun chunk => 3 * m <= 5 * len chunk) (removelast cs)).
  { unfold splitMessagePublic in E.
    destruct (splitMessagePublic_fuel_chunks (S (length text)) text m Hm
                ltac:(lia)) as (cs' & E' & Hfit & Hl).
    rewrite E in E'. inversion E'; subst cs'.
    destruct (Z.le_gt_cases (len text) m) as [H|H].
    - rewrite (Hfit H). constructor.
    - eapply loop_chunks_long_prefixes; eauto. }
  split; [exact Hlong|]. split; [exact Htot|].
  pose proof (total_len_removelast m cs ltac:(lia) Hlong). lia.
Qed.

Lemma starts_ws_firstn : forall (s : JsString.t) n,
  starts_ws s = false -> starts_ws (firstn n s) = false.
Proof.
  intros [|c s] [|n] H; cbn in *; auto.
Qed.

Lemma loop_chunks_shape : forall maxLen remaining chunks,
  1 <= maxLen ->
  loop_chunks maxLen remaining chunks ->
  Forall (fun chunk => chunk <> []) chunks
  /\ Forall (fun chunk => starts_ws chunk = false) (tl chunks)
  /\ (starts_ws remaining = false ->
      Forall (fun chunk => starts_ws chunk = false) chunks).
Proof.
  intros m r cs Hm H. induction H as [|r Hfit|r p cs Hlong Hp H IH].
  - repeat split; constructor.
  - repeat split.
    + constructor; [|constructor]. intros ->. unfold len in Hfit. cbn in Hfit. lia.
    + constructor.
    + intros Hs. constructor; [exact Hs | constructor].
  - destruct IH as (Hne & _ & Hst).
    pose proof (is_split_point_bounds r m p Hm Hp) as Hb.
    specialize (Hst (starts_ws_trimStart _)).
    repeat split.
    + constructor; [|exact Hne].
      intros E. apply (f_equal (@length _)) in E.
      rewrite length_firstn in E. unfold len in Hlong. cbn in E. lia.
    + exact Hst.
    + intros Hs. constructor; [|exact Hst]. apply starts_ws_firstn. exact Hs.
Qed.

(** X7. For maxLen >= 1, splitMessagePublic never returns the empty array;
    the empty text gives one empty chunk; a text that is not empty gives no
    empty chunk; no chunk after the first begins with whitespace. *)
Theorem split_chunk_shape :
  forall (text : JsString.t) (maxLen : Z) (chunks : list JsString.t),
    1 <= maxLen ->
    splitMessagePublic text maxLen = Some chunks ->
    chunks <> []
    /\ (text = [] -> chunks = [[]])
    /\ (text <> [] -> Forall (fun chunk => chunk <> []) chunks)
    /\ Forall (fun chunk => starts_ws chunk = false) (tl chunks).
Proof.
  intros text m cs Hm E. unfold splitMessagePublic in E.
  destruct (splitMessagePublic_fuel_chunks (S (length text)) text m Hm
              ltac:(lia)) as (cs' & E' & Hfit & Hl).
  rewrite E in E'. inversion E'; subst cs'. clear E'.
  destruct (Z.le_gt_cases (len text) m) as [H|H].
  - rewrite (Hfit H). repeat split.
    + discriminate.
    + intros ->. reflexivity.
    + intros Hne. constructor; [exact Hne | constructor].
    + constructor.
  - specialize (Hl H).
    destruct (loop_chunks_shape m text cs Hm Hl) as (Hne & Htl & _).
    repeat split.
    + inversion Hl; subst; try discriminate.
      unfold len in H. cbn in H. lia.
    + intros ->. unfold len in H. cbn in H. lia.
    + intros _. exact Hne.
    + exact Htl.
Qed.

(** maxLen = 0 *)
Lemma split_point_zero : forall remaining, split_point remaining 0 = 0.
Proof.
  intros r. unfold split_point, below_threshold, lastIndexOf.
  rewrite Z.max_r by lia.
  pose proof (len_nonneg r).
  destruct (Z.ltb_spec (Z.min 0 (len r - 1)) 0) as [Hneg|Hok]; [reflexivity|].
  rewrite Z.min_l by lia. cbn [Z.to_nat lastIndexOf_down].
  destruct (nth_error r 0) as [x|]; [|reflexivity].
  destruct (x =? space)%N; reflexivity.
Qed.

Lemma split_loop_zero_stuck : forall fuel remaining chunks,
  starts_ws remaining = false -> remaining <> [] ->
  split_loop fuel 0 remaining chunks = None.
Proof.
  induction fuel as [|fuel IH]; intros r acc Hs Hne; [reflexivity|].
  cbn [split_loop].
  assert (Hlen : 0 < len r) by (destruct r; [congruence | unfold len; cbn; lia]).
  destruct (Z.ltb_spec 0 (len r)); [|lia].
  destruct (Z.leb_spec (len r) 0); [lia|].
  cbv zeta. rewrite split_point_zero, slice_suffix by lia.
  cbn [Z.to_nat skipn].
  assert (Et : trimStart r = r).
  { destruct r as [|c r']; [reflexivity|]. cbn in Hs |- *. rewrite Hs. reflexivity. }
  rewrite Et. apply IH; assumption.
Qed.

(** X8. With maxLen = 0 and a text that is not entirely whitespace, the loop
    of splitMessagePublic never ends: no number of iterations produces a
    result. *)
Theorem split_diverges_at_zero_maxLen :
  forall (text : JsString.t) (fuel : nat),
    ~ all_ws text ->
    splitMessagePublic_fuel fuel text 0 = None.
Proof.
  intros text fuel Hnot. unfold splitMessagePublic_fuel.
  assert (Hne : text <> []) by (intros ->; apply Hnot; constructor).
  assert (Hlen : 0 < len text) by (destruct text; [congruence | unfold len; cbn; lia]).
  destruct (Z.leb_spec (len text) 0); [lia|].
  destruct fuel as [|fuel]; [reflexivity|].
  cbn [split_loop].
  destruct (Z.ltb_spec 0 (len text)); [|lia].
  destruct (Z.leb_spec (len text) 0); [lia|].
  cbv zeta. rewrite split_point_zero, slice_suffix by lia.
  cbn [Z.to_nat skipn].
  apply split_loop_zero_stuck.
  - apply starts_ws_trimStart.
  - intros E. apply Hnot.
    destruct (trimStart_gap text) as (gap & Eg & Hws).
    rewrite E, app_nil_r in Eg. subst gap. exact Hws.
Qed.

End ChunkFacts.

(** * Properties of the channel list and of the role prefix *)

Section TextFacts.
Import JsString JsText.

Lemma split_on_not_nil : forall sep s, split_on sep s <> [].
Proof.
  intros sep s. destruct s as [|c s]; [discriminate|].
  cbn [split_on]. destruct (c =? sep)%N; [discriminate|].
  destruct (split_on sep s); discriminate.
Qed.

Lemma split_on_no_sep : forall sep s,
  Forall (fun piece => ~ In sep piece) (split_on sep s).
Proof.
  intros sep. induction s as [|c s IH].
  - repeat constructor. intros [].
  - cbn [split_on]. destruct (N.eqb_spec c sep) as [->|Hne].
    + constructor; [intros [] | exact IH].
    + destruct (split_on sep s) as [|piece pieces].
      * repeat constructor. intros [H|[]]. congruence.
      * inversion IH; subst. constructor; [|assumption].
        intros [H|H]; [congruence | contradiction].
Qed.

Lemma split_on_whole : forall sep s, ~ In sep s -> split_on sep s = [s].
Proof.
  intros sep. induction s as [|c s IH]; intros H; [reflexivity|].
  cbn [split_on]. destruct (N.eqb_spec c sep) as [->|Hne].
  - exfalso. apply H. left. reflexivity.
  - rewrite IH by (intros Hin; apply H; right; exact Hin). reflexivity.
Qed.

Lemma split_on_app : forall sep a b,
  ~ In sep a -> split_on sep (a ++ sep :: b) = a :: split_on sep b.
Proof.
  intros sep. induction a as [|c a IH]; intros b H.
  - cbn. rewrite N.eqb_refl. reflexivity.
  - cbn [app split_on]. destruct (N.eqb_spec c sep) as [->|Hne].
    + exfalso. apply H. left. reflexivity.
    + rewrite IH by (intros Hin; apply H; right; exact Hin). reflexivity.
Qed.

Lemma trimStart_app_ws : forall gap s, all_ws gap -> trimStart (gap ++ s) = trimStart s.
Proof.
  induction 1 as [|c gap Hc _ IH]; [reflexivity|].
  cbn [app trimStart]. rewrite Hc. exact IH.
Qed.

Lemma trimStart_id : forall s, starts_ws s = false -> trimStart s = s.
Proof.
  intros [|c s] H; [reflexivity|]. cbn in *. rewrite H. reflexivity.
Qed.

Lemma trimEnd_all_ws : forall gap, all_ws gap -> trimEnd gap = [].
Proof.
  induction 1 as [|c gap Hc _ IH]; [reflexivity|].
  cbn [trimEnd]. rewrite IH, Hc. reflexivity.
Qed.

Lemma trimEnd_app_ws : forall s gap, all_ws gap -> trimEnd (s ++ gap) = trimEnd s.
Proof.
  intros s gap Hws. induction s as [|c s IH].
  - cbn [app]. rewrite (trimEnd_all_ws gap Hws). reflexivity.
  - cbn [app trimEnd]. rewrite IH. reflexivity.
Qed.

Lemma trimEnd_id : forall s, ends_ws s = false -> trimEnd s = s.
Proof.
  induction s as [|c s IH]; intros H; [reflexivity|].
  cbn [trimEnd]. destruct s as [|c2 s'].
  - cbn in *. rewrite H. reflexivity.
  - rewrite IH by exact H. reflexivity.
Qed.

Lemma trimEnd_ends : forall s, ends_ws (trimEnd s) = false.
Proof.
  induction s as [|c s IH]; [reflexivity|].
  cbn [trimEnd]. destruct (trimEnd s) as [|k kept] eqn:E.
  - destruct (is_ws c) eqn:Hc; [reflexivity | cbn; exact Hc].
  - exact IH.
Qed.

Lemma trimEnd_starts : forall s, starts_ws s = false -> starts_ws (trimEnd s) = false.
Proof.
  intros [|c s] H; [reflexivity|].
  cbn [trimEnd]. cbn in H. destruct (trimEnd s); [rewrite H|]; cbn; auto.
Qed.

Lemma trimEnd_incl : forall s x, In x (trimEnd s) -> In x s.
Proof.
  induction s as [|c s IH]; intros x H; [exact H|].
  cbn [trimEnd] in H. destruct (trimEnd s) as [|k kept].
  - destruct (is_ws c); [destruct H|]. destruct H as [H|[]]. left. exact H.
  - destruct H as [H|H]; [left; exact H | right; apply IH; exact H].
Qed.

Lemma trimStart_incl : forall s x, In x (trimStart s) -> In x s.
Proof.
  intros s x H. destruct (trimStart_gap s) as (gap & E & _).
  rewrite E. apply in_or_app. right. exact H.
Qed.

Lemma all_ws_no_comma : forall gap, all_ws gap -> ~ In comma gap.
Proof.
  intros gap H Hin. unfold all_ws in H. rewrite Forall_forall in H.
  specialize (H _ Hin). discriminate.
Qed.

End TextFacts.

Section ChannelsFacts.
Import JsString JsText Channels.

Lemma trim_clean : forall before name after,
  all_ws before -> all_ws after -> clean_name name ->
  trim (before ++ name ++ after) = name.
Proof.
  intros before name after Hb Ha (Hne & Hs & He & _). unfold trim.
  rewrite trimStart_app_ws by exact Hb.
  rewrite trimStart_id by (destruct name; [congruence | exact Hs]).
  rewrite trimEnd_app_ws by exact Ha. apply trimEnd_id. exact He.
Qed.

Lemma split_join_clean : forall before after names pre,
  all_ws before -> all_ws after -> all_ws pre ->
  Forall clean_name names -> names <> [] ->
  map trim (split_on comma (pre ++ join (before ++ [comma] ++ after) names))
    = names.
Proof.
  intros before after names pre Hb Ha. revert pre.
  induction names as [|n [|n2 ns] IH]; intros pre Hp Hc Hne; [congruence| |].
  - inversion Hc as [|? ? Hn _]; subst. cbn [join].
    rewrite split_on_whole.
    + cbn [map]. rewrite <- (app_nil_r n) at 1.
      rewrite (trim_clean pre n []) by (assumption || constructor). reflexivity.
    + intros Hin. apply in_app_or in Hin. destruct Hin as [Hin|Hin].
      * exact (all_ws_no_comma _ Hp Hin).
      * destruct Hn as (_ & _ & _ & Hn). exact (Hn Hin).
  - inversion Hc as [|? ? Hn Hrest]; subst.
    change (join (before ++ [comma] ++ after) (n :: n2 :: ns))
      with (n ++ (before ++ [comma] ++ after)
              ++ join (before ++ [comma] ++ after) (n2 :: ns)).
    replace (pre ++ n ++ (before ++ [comma] ++ after)
               ++ join (before ++ [comma] ++ after) (n2 :: ns))
      with ((pre ++ n ++ before)
              ++ comma :: (after ++ join (before ++ [comma] ++ after) (n2 :: ns)))
      by (rewrite <- !app_assoc; reflexivity).
    rewrite split_on_app.
    + cbn [map]. rewrite (trim_clean pre n before) by assumption.
      f_equal. apply IH; [exact Ha | exact Hrest | discriminate].
    + intros Hin. apply in_app_or in Hin. destruct Hin as [Hin|Hin];
        [exact (all_ws_no_comma _ Hp Hin)|].
      apply in_app_or in Hin. destruct Hin as [Hin|Hin];
        [|exact (all_ws_no_comma _ Hb Hin)].
      destruct Hn as (_ & _ & _ & Hn). exact (Hn Hin).
Qed.

Lemma filter_non_empty_clean : forall names,
  Forall clean_name names -> filter non_empty names = names.
Proof.
  induction 1 as [|n names (Hne & _) _ IH]; [reflexivity|].
  cbn [filter]. destruct n; [congruence|]. cbn. f_equal. exact IH.
Qed.

Lemma join_nil_clean : forall sep names,
  Forall clean_name names -> join sep names = [] -> names = [].
Proof.
  intros sep [|n [|n2 ns]] Hc E; [reflexivity| |];
    inversion Hc as [|? ? (Hne & _) _]; subst; cbn [join] in E.
  - congruence.
  - destruct n; [congruence | discriminate].
Qed.

(** X9. Every entry parseChannels returns for a string is not empty, has no
    whitespace at either end and contains no comma. *)
Theorem parseChannels_entries_clean :
  forall s : JsString.t, Forall clean_name (parseChannels (Str s)).
Proof.
  intros s. destruct s as [|c s]; [constructor|].
  cbn [parseChannels]. unfold split_trim_filter.
  apply Forall_forall. intros x Hx.
  apply filter_In in Hx. destruct Hx as [Hx Hne].
  apply in_map_iff in Hx. destruct Hx as (piece & <- & Hp).
  pose proof (split_on_no_sep comma (c :: s)) as Hno.
  rewrite Forall_forall in Hno. specialize (Hno _ Hp).
  repeat split.
  - intros E. rewrite E in Hne. discriminate.
  - unfold trim. apply trimEnd_starts, starts_ws_trimStart.
  - unfold trim. apply trimEnd_ends.
  - intros Hin. apply Hno. unfold trim in Hin.
    apply trimStart_incl, trimEnd_incl. exact Hin.
Qed.

(** X10. Joining channel names (each not empty, without surrounding
    whitespace, without a comma) with a comma that may have whitespace
    around it, and parsing the result with parseChannels, gives the names
    back in order. *)
Theorem parseChannels_round_trip :
  forall (names : list JsString.t) (sep : JsString.t),
    Forall clean_name names ->
    separator sep ->
    parseChannels (Str (join sep names)) = names.
Proof.
  intros names sep Hc (before & after & Hb & Ha & ->).
  destruct names as [|n ns]; [reflexivity|].
  destruct (join (before ++ [comma] ++ after) (n :: ns)) as [|c s] eqn:E.
  - apply join_nil_clean in E; [discriminate | exact Hc].
  - cbn [parseChannels]. rewrite <- E. unfold split_trim_filter.
    pose proof (split_join_clean before after (n :: ns) [] Hb Ha
                  ltac:(constructor) Hc ltac:(discriminate)) as H.
    rewrite app_nil_l in H. rewrite H. apply filter_non_empty_clean. exact Hc.
Qed.

(** X11. The channel parsing written inline in init gives the same list as
    TwitchChatManager.parseChannels on every value of config.channels
    (undefined, any string, any array), and parsing the array that init
    hands to the manager gives that list again. *)
Theorem init_channels_agree :
  forall channels : value,
    init_channels channels = parseChannels channels
    /\ parseChannels (Arr (init_channels channels)) = parseChannels channels.
Proof.
  intros [|[|c s]|l]; split; reflexivity.
Qed.

End ChannelsFacts.

Section RoleFacts.
Import JsString RoleMapper.

Lemma getRolePrefix_tag : forall info,
  getRolePrefix info = role_tag info ++ displayName info.
Proof.
  intros info. unfold getRolePrefix, role_tag.
  destruct (roles_of info); [reflexivity|].
  rewrite <- !app_assoc. reflexivity.
Qed.

Lemma role_tag_injective : forall a b,
  role_tag a = role_tag b ->
  isBroadcaster a = isBroadcaster b /\ isMod a = isMod b
  /\ isVip a = isVip b /\ isSubscriber a = isSubscriber b.
Proof.
  intros a b. unfold role_tag, roles_of.
  destruct (isBroadcaster a), (isMod a), (isVip a), (isSubscriber a),
    (isBroadcaster b), (isMod b), (isVip b), (isSubscriber b);
    vm_compute; intros H; (discriminate H || (repeat split; reflexivity)).
Qed.

(** X12. For a given display name the role prefix determines the roles: two
    users with the same display name and the same result of getRolePrefix
    have the same broadcaster, moderator, VIP and subscriber flags. *)
Theorem getRolePrefix_determines_roles :
  forall a b : TwitchUserInfo,
    displayName a = displayName b ->
    getRolePrefix a = getRolePrefix b ->
    isBroadcaster a = isBroadcaster b /\ isMod a = isMod b
    /\ isVip a = isVip b /\ isSubscriber a = isSubscriber b.
Proof.
  intros a b Hd H. rewrite !getRolePrefix_tag, Hd in H.
  apply app_inv_tail in H. apply role_tag_injective. exact H.
Qed.

(** The prefix is the bare display name exactly for a user with no role. *)
Lemma getRolePrefix_bare_iff_no_role :
  forall info : TwitchUserInfo,
    (getRolePrefix info = displayName info
     <-> isBroadcaster info = false /\ isMod info = false
         /\ isVip info = false /\ isSubscriber info = false)
    /\ exists tag, getRolePrefix info = tag ++ displayName info.
Proof.
  intros info. split; [|exists (role_tag info); apply getRolePrefix_tag].
  rewrite getRolePrefix_tag. split.
  - intros H.
    assert (E : role_tag info = []).
    { apply (app_inv_tail (displayName info)). exact H. }
    revert E. unfold role_tag, roles_of.
    destruct (isBroadcaster info), (isMod info), (isVip info), (isSubscriber info);
      vm_compute; intros E; (discriminate E || (repeat split; reflexivity)).
  - intros (H1 & H2 & H3 & H4). unfold role_tag, roles_of.
    rewrite H1, H2, H3, H4. reflexivity.
Qed.

End RoleFacts.

(** * Properties of the maps, the handlers and the provider *)

Section JsMapFacts.

Import JsString JsText.

Lemma str_eqb_eq : forall a b, eqb a b = true <-> a = b.
Proof.
  intros a b. unfold eqb. destruct (eq_dec a b); split; congruence.
Qed.

Lemma str_eqb_refl : forall a, eqb a a = true.
Proof. intros a. apply str_eqb_eq. reflexivity. Qed.

Lemma str_eqb_neq : forall a b, eqb a b = false <-> a <> b.
Proof.
  intros a b. unfold eqb. destruct (eq_dec a b); split; congruence.
Qed.

Variable V : Type.

Lemma get_set : forall k0 (v : V) m k,
  JsMap.get k (JsMap.set k0 v m) =
    if eqb k0 k then Some v else JsMap.get k m.
Proof.
  intros k0 v m k. induction m as [|[k' v'] m IH].
  - cbn. reflexivity.
  - cbn [JsMap.set JsMap.get]. destruct (eqb k' k0) eqn:E0.
    + apply str_eqb_eq in E0. subst k'. cbn [JsMap.get].
      destruct (eqb k0 k); reflexivity.
    + cbn [JsMap.get]. destruct (eqb k' k) eqn:E1.
      * apply str_eqb_eq in E1. subst k'.
        apply str_eqb_neq in E0.
        assert (E : eqb k0 k = false) by (apply str_eqb_neq; congruence).
        rewrite E. reflexivity.
      * exact IH.
Qed.

Lemma get_delete : forall k0 (m : JsMap.t V) k,
  JsMap.get k (JsMap.delete k0 m) =
    if eqb k0 k then None else JsMap.get k m.
Proof.
  intros k0 m k. induction m as [|[k' v'] m IH].
  - cbn. destruct (eqb k0 k); reflexivity.
  - unfold JsMap.delete in *. cbn [filter fst].
    destruct (eqb k' k0) eqn:E0; cbn [negb].
    + apply str_eqb_eq in E0. subst k'. rewrite IH. cbn [JsMap.get].
      destruct (eqb k0 k); reflexivity.
    + cbn [JsMap.get]. destruct (eqb k' k) eqn:E1.
      * apply str_eqb_eq in E1. subst k'.
        apply str_eqb_neq in E0.
        assert (E : eqb k0 k = false) by (apply str_eqb_neq; congruence).
        rewrite E. reflexivity.
      * exact IH.
Qed.

Lemma keys_set_present : forall k (v : V) m,
  In k (JsMap.keys m) -> JsMap.keys (JsMap.set k v m) = JsMap.keys m.
Proof.
  intros k v. induction m as [|[k' v'] m IH]; intros H; [destruct H|].
  cbn [JsMap.set]. destruct (eqb k' k) eqn:E.
  - apply str_eqb_eq in E. subst k'. reflexivity.
  - cbn [JsMap.keys map fst]. f_equal. apply IH.
    destruct H as [H|H]; [|exact H].
    cbn in H. apply str_eqb_neq in E. congruence.
Qed.

Lemma keys_set_absent : forall k (v : V) m,
  ~ In k (JsMap.keys m) -> JsMap.keys (JsMap.set k v m) = JsMap.keys m ++ [k].
Proof.
  intros k v. induction m as [|[k' v'] m IH]; intros H; [reflexivity|].
  cbn [JsMap.set]. destruct (eqb k' k) eqn:E.
  - apply str_eqb_eq in E. subst k'. exfalso. apply H. left. reflexivity.
  - cbn [JsMap.keys map fst app]. f_equal. apply IH.
    intros Hin. apply H. right. exact Hin.
Qed.

Lemma keys_delete : forall k (m : JsMap.t V),
  JsMap.keys (JsMap.delete k m) = filter (fun k' => negb (eqb k' k)) (JsMap.keys m).
Proof.
  intros k. induction m as [|[k' v'] m IH]; [reflexivity|].
  unfold JsMap.delete, JsMap.keys in *. cbn [filter map fst].
  destruct (eqb k' k); cbn [negb map fst]; rewrite IH; reflexivity.
Qed.

Lemma NoDup_filter_keep : forall (A : Type) (f : A -> bool) l,
  NoDup l -> NoDup (filter f l).
Proof.
  intros A f. induction 1 as [|x l Hx Hnd IH]; [constructor|].
  cbn [filter]. destruct (f x); [|exact IH].
  constructor; [|exact IH]. intros Hin. apply Hx.
  apply filter_In in Hin. tauto.
Qed.

Lemma well_keyed_set : forall (key_of : V -> JsString.t) v m,
  ChannelProvider.well_keyed key_of m ->
  ChannelProvider.well_keyed key_of (JsMap.set (key_of v) v m).
Proof.
  intros key_of v m [Hnd Hk]. split.
  - destruct (in_dec eq_dec (key_of v) (JsMap.keys m)) as [Hin|Hout].
    + rewrite keys_set_present by exact Hin. exact Hnd.
    + rewrite keys_set_absent by exact Hout.
      apply NoDup_app; [exact Hnd | repeat constructor; intros [] |].
      intros x Hx [E|[]]. subst x. contradiction.
  - clear Hnd. induction m as [|[k' v'] m IH].
    + repeat constructor.
    + inversion Hk as [|? ? Hh Ht]; subst. cbn [JsMap.set].
      destruct (eqb k' (key_of v)); constructor; auto.
Qed.

Lemma well_keyed_delete : forall (key_of : V -> JsString.t) k m,
  ChannelProvider.well_keyed key_of m ->
  ChannelProvider.well_keyed key_of (JsMap.delete k m).
Proof.
  intros key_of k m [Hnd Hk]. split.
  - rewrite keys_delete. apply NoDup_filter_keep. exact Hnd.
  - unfold JsMap.delete. rewrite Forall_forall in *. intros x Hx.
    apply filter_In in Hx. apply Hk. tauto.
Qed.

Lemma well_keyed_get : forall (key_of : V -> JsString.t) m k v,
  ChannelProvider.well_keyed key_of m ->
  JsMap.get k m = Some v -> key_of v = k /\ In v (JsMap.values m).
Proof.
  intros key_of m k v [_ Hk]. induction m as [|[k' v'] m IH]; intros H;
    [discriminate|].
  inversion Hk as [|? ? Hh Ht]; subst. cbn [JsMap.get] in H.
  destruct (eqb k' k) eqn:E.
  - apply str_eqb_eq in E. inversion H; subst. cbn in Hh.
    split; [congruence | left; reflexivity].
  - destruct (IH Ht H) as [H1 H2]. split; [exact H1 | right; exact H2].
Qed.

Lemma well_keyed_values_unique : forall (key_of : V -> JsString.t) m v1 v2,
  ChannelProvider.well_keyed key_of m ->
  In v1 (JsMap.values m) -> In v2 (JsMap.values m) ->
  key_of v1 = key_of v2 -> v1 = v2.
Proof.
  intros key_of m v1 v2 [Hnd Hk]. induction m as [|[k v] m IH];
    intros H1 H2 E; [destruct H1|].
  inversion Hk as [|? ? Hh Ht]; subst. cbn in Hh. subst k.
  cbn [JsMap.keys map fst] in Hnd. inversion Hnd as [|? ? Hnot Hnd']; subst.
  assert (Hkey : forall x, In x (JsMap.values m) -> In (key_of x) (JsMap.keys m)).
  { intros x Hx. unfold JsMap.values in Hx. apply in_map_iff in Hx.
    destruct Hx as ([kx vx] & <- & Hin). cbn.
    rewrite Forall_forall in Ht. specialize (Ht _ Hin). cbn in Ht. subst kx.
    unfold JsMap.keys. apply in_map_iff. exists (key_of vx, vx). auto. }
  destruct H1 as [H1|H1], H2 as [H2|H2]; cbn in H1, H2.
  - congruence.
  - subst v1. exfalso. apply Hnot. rewrite E. apply Hkey. exact H2.
  - subst v2. exfalso. apply Hnot. rewrite <- E. apply Hkey. exact H1.
  - apply IH; assumption.
Qed.

End JsMapFacts.

Section ChatFacts.

Import JsString JsText.

Variable wake : Z -> Z -> Z.
Variables ChatClient ApiClient Rejection : Type.
Variable say :
  ChatClient -> Z -> JsString.t -> JsString.t ->
  ChatClient * Z * option Rejection.
Variable whispers_sendWhisper :
  ApiClient -> Z -> JsString.t -> JsString.t -> JsString.t ->
  ApiClient * Z * option Rejection.

Hypothesis wake_never_early : forall t d, t + d <= wake t d.

(** [sendMessage] on a connected manager ends, and leaves it connected. *)
Lemma sendMessage_connected :
  forall fuel (m : TwitchChatManager.t ChatClient ApiClient) now channel text client,
    0 < RateLimiter.maxTokens (TwitchChatManager.rateLimiter m) ->
    TwitchChatManager.chatClient m = Some client ->
    exists chunks client' rl' t' tr out,
      TwitchChatManager.splitMessagePublic text
        TwitchChatManager.TWITCH_MAX_MSG_LENGTH = Some chunks
      /\ TwitchChatManager.sendMessage wake say (S (S fuel)) m now channel text
         = Some ({| TwitchChatManager.chatClient := Some client';
                    TwitchChatManager.apiClient := TwitchChatManager.apiClient m;
                    TwitchChatManager.botUserId := TwitchChatManager.botUserId m;
                    TwitchChatManager.rateLimiter := rl' |}, t', tr, out)
      /\ TwitchChatManager.stopped_at (TwitchChatManager.Say channel) chunks tr out.
Proof.
  intros fuel m now channel text client Hm Hc.
  destruct (splitMessagePublic_fuel_chunks (S (length text)) text
              TwitchChatManager.TWITCH_MAX_MSG_LENGTH
              ltac:(unfold TwitchChatManager.TWITCH_MAX_MSG_LENGTH; lia)
              ltac:(lia)) as (chunks & E & _ & _).
  fold (TwitchChatManager.splitMessagePublic text
          TwitchChatManager.TWITCH_MAX_MSG_LENGTH) in E.
  destruct (send_chunks_total wake _ _
              (fun c t chunk => say c t channel chunk)
              (TwitchChatManager.Say channel)
              fuel chunks client (TwitchChatManager.rateLimiter m) now
              wake_never_early Hm)
    as (c' & rl' & t' & tr & out & Es).
  exists chunks, c', rl', t', tr, out.
  split; [exact E|]. split.
  - unfold TwitchChatManager.sendMessage. rewrite Hc, E, Es. reflexivity.
  - eapply send_chunks_stopped_at. exact Es.
Qed.

(** [sendWhisper] always ends. *)
Lemma sendWhisper_total :
  forall fuel (m : TwitchChatManager.t ChatClient ApiClient) now toUsername
         toUserId text,
    0 < RateLimiter.maxTokens (TwitchChatManager.rateLimiter m) ->
    exists m' t' tr out,
      TwitchChatManager.sendWhisper wake whispers_sendWhisper (S (S fuel)) m now
        toUsername toUserId text = Some (m', t', tr, out).
Proof.
  intros fuel m now toUsername toUserId text Hm.
  unfold TwitchChatManager.sendWhisper.
  destruct (TwitchChatManager.apiClient m) as [api|]; [|eauto 8].
  destruct (TwitchChatManager.truthy (TwitchChatManager.botUserId m))
    as [bot|]; [|eauto 8].
  destruct (splitMessagePublic_fuel_chunks (S (length text)) text
              TwitchChatManager.TWITCH_MAX_MSG_LENGTH
              ltac:(unfold TwitchChatManager.TWITCH_MAX_MSG_LENGTH; lia)
              ltac:(lia)) as (chunks & E & _ & _).
  fold (TwitchChatManager.splitMessagePublic text
          TwitchChatManager.TWITCH_MAX_MSG_LENGTH) in E.
  rewrite E.
  destruct (send_chunks_total wake _ _
              (fun a t chunk => whispers_sendWhisper a t bot toUserId chunk)
              (TwitchChatManager.Whisper bot toUserId)
              fuel chunks api (TwitchChatManager.rateLimiter m) now
              wake_never_early Hm)
    as (c' & rl' & t' & tr & out & Es).
  rewrite Es. eauto 8.
Qed.

End ChatFacts.

Section ChatClaims.

Import JsString JsText TwitchChat.

Variable wake : Z -> Z -> Z.
Variables ChatClient ApiClient Rejection : Type.
Variable say :
  ChatClient -> Z -> JsString.t -> JsString.t ->
  ChatClient * Z * option Rejection.
Variable whispers_sendWhisper :
  ApiClient -> Z -> JsString.t -> JsString.t -> JsString.t ->
  ApiClient * Z * option Rejection.
Variable toLowerCase : JsString.t -> JsString.t.
Variables Host Thrown : Type.
Variable inject :
  Host -> Z -> JsString.t -> JsString.t -> JsString.t -> ChannelRef ->
  Host * Z * (Thrown + JsString.t).
Variable show : failure Rejection Thrown -> JsString.t.


(** X14. Whenever handleMessagePublic settles, it has emitted nothing
    exactly when the sender's user name equals the bot's user name up to
    case; then it resolves with the manager and the host unchanged;
    otherwise the message has been logged and injected first. *)
Theorem handleMessagePublic_silent_iff_own :
  forall (fuel : nat) (m m' : Manager ChatClient ApiClient)
         (e e' : Env Rejection Host) (channel user text : JsString.t)
         (msg : MsgUserInfo) (out : settled Rejection Thrown),
    let clean := toLowerCase (strip_prefix (lit "#") channel) in
    let key := lit "twitch-" ++ clean in
    let ref := {| ref_type := lit "twitch"; ref_id := lit "twitch:" ++ clean;
                  ref_name := clean |} in
    let own := toLowerCase (userName msg) = toLowerCase (getBotUsername m) in
    handleMessagePublic wake say toLowerCase inject fuel m e channel user
      text msg = Some (m', e', out) ->
    (trace e' = trace e <-> own)
    /\ (own -> m' = m /\ e' = e /\ out = Resolved)
    /\ (~ own ->
        exists message rest,
          trace e' = trace e
                     ++ LogMessage key text (displayName msg) ref
                     :: Inject key message (displayName msg) ref :: rest).
Proof.
  intros fuel m m' e e' channel user text msg out clean key ref own H.
  unfold handleMessagePublic in H.
  cbn [RoleMapper.extractUserInfo RoleMapper.username
       RoleMapper.displayName] in H.
  assert (Hgrow : forall (l : list (host_event Rejection)) x rest,
            l ++ x :: rest <> l).
  { intros l x rest E. apply (f_equal (@length _)) in E.
    rewrite length_app in E. cbn in E. lia. }
  destruct (eqb (toLowerCase (userName msg)) (toLowerCase (botUsername m)))
    eqn:Eown.
  - apply str_eqb_eq in Eown. inversion H; subst m' e' out.
    split; [split; [intros _; exact Eown | reflexivity]|].
    split; [auto|]. intros Hn. elim (Hn Eown).
  - apply str_eqb_neq in Eown.
    assert (Hex : exists message rest,
              trace e' = trace e
                         ++ LogMessage key text (displayName msg) ref
                         :: Inject key message (displayName msg) ref :: rest).
    { unfold do_inject in H. cbn [emit host clock trace] in H.
      fold clean in H. fold key in H. fold ref in H.
      match type of H with
      | context [inject ?h ?t ?k ?mm ?f ?r] =>
          destruct (inject h t k mm f r) as [[h1 t1] [thrown|response]];
          exists mm
      end.
      - inversion H; subst. exists []. cbn [trace].
        rewrite <- app_assoc. reflexivity.
      - unfold sendMessage in H. cbn [clock host trace] in H.
        destruct (TwitchChatManager.sendMessage wake say fuel (core m) t1
                    channel response) as [[[[c t2] tr] o]|]; [|discriminate].
        inversion H; subst. exists (map Transport tr). cbn [trace].
        rewrite <- !app_assoc. reflexivity. }
    split.
    + split; [|intros Ho; elim (Eown Ho)].
      destruct Hex as (message & rest & E). rewrite E. intros E2.
      elim (Hgrow _ _ _ E2).
    + split; [intros Ho; elim (Eown Ho) | intros _; exact Hex].
Qed.

(** X15. With whispers not disabled, a positive capacity and a timer that is
    never early, when the host answers the injection of a whisper,
    handleWhisperPublic resolves whatever the whisper transport does, and a
    failed send is logged, not propagated: the trace is the log entry, the
    injection, the events of sendWhisper for the answer and, exactly when
    sendWhisper threw, the error log 'Failed to send whisper to <user>:
    <error>' as the last event; the calls sendWhisper made are those up to
    the first chunk the transport rejected, and the manager keeps the
    transport and the limiter as these calls left them. *)
Theorem handleWhisperPublic_never_rejects_on_send :
  forall (fuel : nat) (m : Manager ChatClient ApiClient)
         (e : Env Rejection Host) (user text : JsString.t)
         (msg : MsgUserInfo) (h : Host) (t : Z) (response : JsString.t),
    let key := lit "twitch-whisper-" ++ userId msg in
    let ref := {| ref_type := lit "twitch";
                  ref_id := lit "twitch-whisper:" ++ userId msg;
                  ref_name := lit "Whisper from " ++ displayName msg |} in
    let message := (lit "[" ++ displayName msg ++ lit "]: ") ++ text in
    (forall t0 d, t0 + d <= wake t0 d) ->
    0 < RateLimiter.maxTokens (TwitchChatManager.rateLimiter (core m)) ->
    dmPolicy (config m) <> Some Disabled ->
    inject (host e) (clock e) key message (displayName msg) ref
      = (h, t, inr response) ->
    exists core' t' tr out,
      TwitchChatManager.sendWhisper wake whispers_sendWhisper (S (S fuel))
        (core m) t user (userId msg) response = Some (core', t', tr, out)
      /\ handleWhisperPublic wake whispers_sendWhisper inject show
           (S (S fuel)) m e user text msg
         = Some (with_core m core',
                 {| clock := t'; host := h;
                    trace :=
                      trace e
                      ++ [LogMessage key text (displayName msg) ref;
                          Inject key message (displayName msg) ref]
                      ++ map Transport tr
                      ++ match out with
                         | TwitchChatManager.Returned => []
                         | TwitchChatManager.Threw err =>
                             [LogError (lit "Failed to send whisper to "
                                          ++ user ++ lit ": "
                                          ++ show (SendFailure err))]
                         end |},
                 Resolved)
      /\ (forall api bot,
            TwitchChatManager.apiClient (core m) = Some api ->
            TwitchChatManager.truthy (TwitchChatManager.botUserId (core m))
              = Some bot ->
            exists chunks handed results api' rl',
              TwitchChatManager.splitMessagePublic response
                TwitchChatManager.TWITCH_MAX_MSG_LENGTH = Some chunks
              /\ TwitchChatManager.hands wake
                   (fun a t0 chunk =>
                      whispers_sendWhisper a t0 bot (userId msg) chunk)
                   (S (S fuel)) handed
                   (api, TwitchChatManager.rateLimiter (core m), t)
                   results (api', rl', t')
              /\ TwitchChatManager.up_to_rejection chunks handed results out
              /\ tr = TwitchChatManager.handed_trace
                        (TwitchChatManager.Whisper bot (userId msg))
                        handed results
              /\ TwitchChatManager.apiClient core' = Some api'
              /\ TwitchChatManager.rateLimiter core' = rl').
Proof.
  intros fuel m e user text msg h t response key ref message Hw Hm Hpol Hinj.
  destruct (sendWhisper_total wake _ _ _ whispers_sendWhisper Hw fuel
              (core m) t user (userId msg) response Hm)
    as (c' & t' & tr & out & Es).
  exists c', t', tr, out. split; [exact Es|]. split.
  - unfold handleWhisperPublic.
    destruct (dmPolicy (config m)) as [[|]|]; [|congruence| ];
      ( unfold do_inject; cbn [emit host clock trace];
        cbn [RoleMapper.extractUserInfo RoleMapper.userId
             RoleMapper.displayName];
        fold key; fold ref; fold message; rewrite Hinj;
        unfold sendWhisper; cbn [clock host trace]; rewrite Es;
        destruct out as [|err]; cbn [settle]; unfold emit;
        cbn [clock host trace]; rewrite <- ?app_assoc; cbn [app];
        rewrite ?app_nil_r; reflexivity ).
  - intros api bot Ha Hb.
    unfold TwitchChatManager.sendWhisper in Es. rewrite Ha, Hb in Es.
    destruct (TwitchChatManager.splitMessagePublic response
                TwitchChatManager.TWITCH_MAX_MSG_LENGTH)
      as [chunks|]; [|discriminate].
    destruct (TwitchChatManager.send_chunks wake
                (fun a t0 chunk => whispers_sendWhisper a t0 bot (userId msg) chunk)
                (TwitchChatManager.Whisper bot (userId msg)) (S (S fuel))
                chunks api (TwitchChatManager.rateLimiter (core m)) t)
      as [[[[[a' rl'] t2] tr2] out2]|] eqn:Esc; [|discriminate].
    inversion Es; subst. clear Es.
    destruct (send_chunks_hands wake _ _ _ _ _ _ _ _ _ _ _ _ _ _ Esc)
      as (handed & results & Hh & Htr & Hup).
    exists chunks, handed, results, a', rl'.
    repeat split; assumption.
Qed.

(** X16. On a manager without an API client or without a bot user id, and
    with whispers not disabled, the host's answer to a whisper is never
    sent: after the log entry and the injection only the warning that the
    whisper was skipped is emitted, and the handler resolves with the
    manager unchanged. *)
Theorem handleWhisperPublic_dropped_without_api :
  forall (fuel : nat) (m : Manager ChatClient ApiClient)
         (e : Env Rejection Host) (user text : JsString.t)
         (msg : MsgUserInfo) (h : Host) (t : Z) (response : JsString.t),
    let key := lit "twitch-whisper-" ++ userId msg in
    let ref := {| ref_type := lit "twitch";
                  ref_id := lit "twitch-whisper:" ++ userId msg;
                  ref_name := lit "Whisper from " ++ displayName msg |} in
    let message := (lit "[" ++ displayName msg ++ lit "]: ") ++ text in
    dmPolicy (config m) <> Some Disabled ->
    TwitchChatManager.apiClient (core m) = None
    \/ TwitchChatManager.truthy (TwitchChatManager.botUserId (core m)) = None ->
    inject (host e) (clock e) key message (displayName msg) ref
      = (h, t, inr response) ->
    handleWhisperPublic wake whispers_sendWhisper inject show fuel
      m e user text msg
    = Some (m,
            {| clock := t; host := h;
               trace := trace e
                        ++ [LogMessage key text (displayName msg) ref;
                            Inject key message (displayName msg) ref;
                            Transport (TwitchChatManager.WarnSkipped user)] |},
            Resolved).
Proof.
  intros fuel m e user text msg h t response key ref message Hpol Hno Hinj.
  unfold handleWhisperPublic.
  assert (Hskip :
    TwitchChatManager.sendWhisper wake whispers_sendWhisper fuel (core m) t
      user (userId msg) response
    = Some (core m, t, [TwitchChatManager.WarnSkipped user],
            TwitchChatManager.Returned)).
  { unfold TwitchChatManager.sendWhisper.
    destruct Hno as [Hno|Hno]; rewrite Hno;
      [|destruct (TwitchChatManager.apiClient (core m))]; reflexivity. }
  destruct (dmPolicy (config m)) as [[|]|]; [|congruence| ];
    ( unfold do_inject; cbn [emit host clock trace];
      cbn [RoleMapper.extractUserInfo RoleMapper.userId RoleMapper.displayName];
      fold key; fold ref; fold message; rewrite Hinj;
      unfold sendWhisper; cbn [clock host trace]; rewrite Hskip;
      cbn [settle map]; destruct m; cbn; rewrite <- !app_assoc; reflexivity ).
Qed.

(** X17. After disconnect, sendMessage rejects with 'not connected' and
    emits nothing; a second disconnect does nothing; the rate limiter is
    kept; disconnect emits one quit or none. *)
Theorem disconnect_then_send :
  forall (m : Manager ChatClient ApiClient) (e : Env Rejection Host)
         (fuel : nat) (channel text : JsString.t),
    let m' := fst (disconnect m e) in
    let e' := snd (disconnect m e) in
    sendMessage (Thrown := Thrown) wake say fuel m' e' channel text
      = Some (m', e', RejectedWith (SendFailure TwitchChatManager.NotConnected))
    /\ disconnect m' e' = (m', e')
    /\ TwitchChatManager.rateLimiter (core m')
       = TwitchChatManager.rateLimiter (core m)
    /\ (trace e' = trace e
        \/ trace e' = trace e ++ [ChatQuit]).
Proof.
  intros m e fuel channel text. unfold disconnect.
  destruct m as [[cc api bot rl] bn cfg]. cbn [core TwitchChatManager.chatClient].
  destruct cc as [client|]; cbn [fst snd with_core core botUsername config].
  - unfold sendMessage, TwitchChatManager.sendMessage. cbn.
    rewrite app_nil_r.
    repeat split; auto.
  - unfold sendMessage, TwitchChatManager.sendMessage. cbn.
    rewrite app_nil_r. destruct e. repeat split; auto.
Qed.

End ChatClaims.

Section CommandTextFacts.
Import JsString JsText.

Lemma startsWith_app : forall p s, startsWith (p ++ s) p = true.
Proof.
  induction p as [|x p IH]; intros s; [destruct s; reflexivity|].
  cbn. rewrite N.eqb_refl. apply IH.
Qed.

Lemma strip_prefix_app : forall p s, strip_prefix p (p ++ s) = s.
Proof.
  intros p s. unfold strip_prefix. rewrite startsWith_app.
  induction p as [|x p IH]; [reflexivity | exact IH].
Qed.

Lemma split_ws_not_nil : forall s, split_ws s <> [].
Proof.
  induction s as [|c s IH]; [discriminate|].
  cbn [split_ws]. destruct (is_ws c).
  - destruct s as [|c' s']; [discriminate|]. destruct (is_ws c'); [exact IH | discriminate].
  - destruct (split_ws s); discriminate.
Qed.

Lemma split_ws_no_ws : forall s, Forall no_ws (split_ws s).
Proof.
  induction s as [|c s IH]; [repeat constructor|].
  cbn [split_ws]. destruct (is_ws c) eqn:Hc.
  - destruct s as [|c' s']; [repeat constructor|].
    destruct (is_ws c'); [exact IH|]. constructor; [constructor | exact IH].
  - destruct (split_ws s) as [|piece pieces]; [repeat constructor; exact Hc|].
    inversion IH; subst. constructor; [|assumption].
    constructor; assumption.
Qed.

(** A text that starts with whitespace has an empty first piece. *)
Lemma split_ws_starts_ws : forall s,
  starts_ws s = true -> exists rest, split_ws s = [] :: rest.
Proof.
  induction s as [|c s IH]; intros H; [discriminate|].
  cbn in H. cbn [split_ws]. rewrite H.
  destruct s as [|c' s']; [eauto|].
  destruct (is_ws c') eqn:Hc'; [|eauto].
  apply IH. exact Hc'.
Qed.

Lemma is_ws_range : forall c, is_ws c = true -> (c <= 13 \/ c = 32 \/ 160 <= c)%N.
Proof.
  intros c H. unfold is_ws in H.
  rewrite !Bool.orb_true_iff, !Bool.andb_true_iff, !N.leb_le, !N.eqb_eq in H.
  lia.
Qed.

Lemma ascii_lower_unit_idempotent : forall c,
  ascii_lower_unit (ascii_lower_unit c) = ascii_lower_unit c.
Proof.
  intros c. unfold ascii_lower_unit.
  destruct ((65 <=? c) && (c <=? 90))%N eqn:E; [|rewrite E; reflexivity].
  apply Bool.andb_true_iff in E. rewrite N.leb_le, N.leb_le in E.
  destruct ((65 <=? c + 32) && (c + 32 <=? 90))%N eqn:E2; [|reflexivity].
  apply Bool.andb_true_iff in E2. rewrite N.leb_le, N.leb_le in E2. lia.
Qed.

Lemma ascii_lower_unit_not_ws : forall c,
  is_ws c = false -> is_ws (ascii_lower_unit c) = false.
Proof.
  intros c H. unfold ascii_lower_unit.
  destruct ((65 <=? c) && (c <=? 90))%N eqn:E; [|exact H].
  apply Bool.andb_true_iff in E. rewrite N.leb_le, N.leb_le in E.
  destruct (is_ws (c + 32)%N) eqn:E2; [|reflexivity].
  apply is_ws_range in E2. lia.
Qed.

Lemma ascii_toLowerCase_idempotent : forall s,
  ascii_toLowerCase (ascii_toLowerCase s) = ascii_toLowerCase s.
Proof.
  intros s. unfold ascii_toLowerCase. rewrite map_map.
  apply map_ext. apply ascii_lower_unit_idempotent.
Qed.

Lemma ascii_toLowerCase_no_ws : forall s,
  no_ws s -> no_ws (ascii_toLowerCase s).
Proof.
  intros s H. unfold no_ws, ascii_toLowerCase in *.
  apply Forall_map. eapply Forall_impl; [|exact H].
  intros c Hc. apply ascii_lower_unit_not_ws. exact Hc.
Qed.

End CommandTextFacts.

Section ProviderClaims.

Import JsString JsText TwitchChat ChannelProvider.

Variable wake : Z -> Z -> Z.
Variables ChatClient ApiClient Rejection : Type.
Variable say :
  ChatClient -> Z -> JsString.t -> JsString.t ->
  ChatClient * Z * option Rejection.
Variable toLowerCase : JsString.t -> JsString.t.
Variables Host Thrown : Type.
Variable show_thrown : Thrown -> JsString.t.

Local Abbreviation Registry := (ChannelProvider.Registry ChatClient ApiClient Rejection Host Thrown).
Local Abbreviation Command := (ChannelProvider.ChannelCommand ChatClient ApiClient Rejection Host Thrown).
Local Abbreviation Parser := (ChannelProvider.ChannelMessageParser ChatClient ApiClient Rejection Host Thrown).
Local Abbreviation State := (ChannelProvider.State ChatClient ApiClient Rejection Host).

(** What a lookup finds after each operation on the registries. *)
Lemma registry_lookup :
  forall (r : Registry) (cmd : Command) (parser : Parser) (n k : JsString.t),
    JsMap.get k (registeredCommands (registerCommand cmd r))
      = (if eqb (name cmd) k then Some cmd
         else JsMap.get k (registeredCommands r))
    /\ JsMap.get k (registeredCommands (unregisterCommand n r))
       = (if eqb n k then None else JsMap.get k (registeredCommands r))
    /\ JsMap.get k (registeredParsers (addMessageParser parser r))
       = (if eqb (id parser) k then Some parser
          else JsMap.get k (registeredParsers r))
    /\ JsMap.get k (registeredParsers (removeMessageParser n r))
       = (if eqb n k then None else JsMap.get k (registeredParsers r))
    /\ In cmd (getCommands (registerCommand cmd r))
    /\ In parser (getMessageParsers (addMessageParser parser r)).
Proof.
  intros r cmd parser n k.
  assert (Hin : forall (V : Type) k0 (v : V) m, In v (JsMap.values (JsMap.set k0 v m))).
  { intros V k0 v m. induction m as [|[k' v'] m IH]; [left; reflexivity|].
    cbn [JsMap.set]. destruct (eqb k' k0); [left; reflexivity | right; exact IH]. }
  unfold registerCommand, unregisterCommand, addMessageParser,
    removeMessageParser, getCommands, getMessageParsers.
  cbn [registeredCommands registeredParsers].
  rewrite !get_set, !get_delete. repeat split; apply Hin.
Qed.

(** X18. The two registries stay keyed as their operations key them: keys
    are unique, every command is stored under its name and every parser
    under its id, initially and after registerCommand, unregisterCommand,
    addMessageParser and removeMessageParser; hence getCommands never lists
    two commands of one name, and after unregisterCommand(n) it lists no
    command named n and no new one. *)
Theorem registry_stays_well_keyed :
  forall (r : Registry) (cmd : Command) (parser : Parser) (n : JsString.t),
    registry_ok (Thrown := Thrown) (Host := Host) (Rejection := Rejection)
      (ChatClient := ChatClient) (ApiClient := ApiClient) empty_registry
    /\ (registry_ok r ->
        registry_ok (registerCommand cmd r)
        /\ registry_ok (unregisterCommand n r)
        /\ registry_ok (addMessageParser parser r)
        /\ registry_ok (removeMessageParser n r)
        /\ (forall c1 c2, In c1 (getCommands r) -> In c2 (getCommands r) ->
              name c1 = name c2 -> c1 = c2)
        /\ (forall c, In c (getCommands (unregisterCommand n r)) ->
              name c <> n /\ In c (getCommands r))).
Proof.
  intros r cmd parser n. split.
  - split; (split; [constructor | constructor]).
  - intros [Hc Hp].
    split; [split; [apply well_keyed_set; exact Hc | exact Hp]|].
    split; [split; [apply well_keyed_delete; exact Hc | exact Hp]|].
    split; [split; [exact Hc | apply well_keyed_set; exact Hp]|].
    split; [split; [exact Hc | apply well_keyed_delete; exact Hp]|].
    split.
    + intros c1 c2. apply (well_keyed_values_unique _ _ _ c1 c2 Hc).
    + intros c H.
      unfold getCommands, unregisterCommand, JsMap.values, JsMap.delete in H.
      cbn [registeredCommands] in H. apply in_map_iff in H.
      destruct H as ([k v] & <- & Hin). apply filter_In in Hin.
      destruct Hin as [Hin Hne]. cbn [fst snd] in *.
      destruct Hc as [_ Hkey]. rewrite Forall_forall in Hkey.
      specialize (Hkey _ Hin). cbn in Hkey. subst k.
      apply Bool.negb_true_iff, str_eqb_neq in Hne. split; [exact Hne|].
      unfold getCommands, JsMap.values. apply in_map_iff.
      exists (name v, v). auto.
Qed.

End ProviderClaims.

Section ProviderUse.

Import JsString JsText TwitchChat ChannelProvider.

Variable wake : Z -> Z -> Z.
Variables ChatClient ApiClient Rejection : Type.
Variable say :
  ChatClient -> Z -> JsString.t -> JsString.t ->
  ChatClient * Z * option Rejection.
Variable toLowerCase : JsString.t -> JsString.t.
Variables Host Thrown : Type.
Variable show_thrown : Thrown -> JsString.t.

Local Abbreviation Registry := (ChannelProvider.Registry ChatClient ApiClient Rejection Host Thrown).
Local Abbreviation Command := (ChannelProvider.ChannelCommand ChatClient ApiClient Rejection Host Thrown).
Local Abbreviation Parser := (ChannelProvider.ChannelMessageParser ChatClient ApiClient Rejection Host Thrown).
Local Abbreviation State := (ChannelProvider.State ChatClient ApiClient Rejection Host).

(** X19. Adding a parser under an id that is registered keeps that id's
    place in the order in which parsers are tried; a new id goes last;
    getMessageParsers lists the parsers in that order. *)
Theorem addMessageParser_keeps_priority :
  forall (r : Registry) (parser : Parser),
    (In (id parser) (JsMap.keys (registeredParsers r)) ->
     JsMap.keys (registeredParsers (addMessageParser parser r))
       = JsMap.keys (registeredParsers r))
    /\ (~ In (id parser) (JsMap.keys (registeredParsers r)) ->
        JsMap.keys (registeredParsers (addMessageParser parser r))
          = JsMap.keys (registeredParsers r) ++ [id parser])
    /\ (registry_ok r ->
        map (fun p => id p) (getMessageParsers r) = JsMap.keys (registeredParsers r)).
Proof.
  intros r parser. cbn [addMessageParser registeredParsers].
  split; [apply keys_set_present|]. split; [apply keys_set_absent|].
  intros [_ [_ Hk]]. unfold getMessageParsers, JsMap.values, JsMap.keys.
  rewrite map_map. apply map_ext_in. intros [k v] Hin.
  rewrite Forall_forall in Hk. specialize (Hk _ Hin). cbn in *. congruence.
Qed.

(** X20. handleRegisteredParsers runs the handler of the first parser, in
    the order of the registry, whose pattern matches the text, and of no
    other: it returns true when that handler returns, false when it throws
    or when no pattern matches. *)
Theorem handleRegisteredParsers_first_match :
  forall (fuel : nat) (r : Registry) (st : State)
         (channel sender text : JsString.t),
    handleRegisteredParsers wake say fuel r st channel sender text =
      match find (fun p : Parser => pattern p text) (getMessageParsers r) with
      | None => Some (st, false)
      | Some parser =>
          match parse parser (parser_context wake say fuel channel sender text) st with
          | None => None
          | Some (st1, None) => Some (st1, true)
          | Some (st1, Some _) => Some (st1, false)
          end
      end.
Proof.
  intros fuel r st channel sender text.
  unfold handleRegisteredParsers, getMessageParsers.
  induction (JsMap.values (registeredParsers r)) as [|p ps IH]; [reflexivity|].
  cbn [parsers_loop find]. destruct (pattern p text); [reflexivity | exact IH].
Qed.

Lemma manager_send_failure :
  forall fuel (m : Manager ChatClient ApiClient) (e : Env Rejection Host)
         channel text st f,
    manager_send (Thrown := Thrown) wake say fuel m e channel text
      = Some (st, RejectedWith f) ->
    exists err, f = SendFailure err.
Proof.
  intros fuel m e channel text st f H. unfold manager_send, sendMessage in H.
  destruct (TwitchChatManager.sendMessage wake say fuel (core m) (clock e)
              channel text) as [[[[c t] tr] out]|]; [|discriminate].
  destruct out as [|err]; cbn [settle] in H; inversion H; eauto.
Qed.

(** X21. handleRegisteredCommand returns false exactly when the text
    resolves to no registered command, and then nothing has changed; and it
    rejects only with a failure of sending the error reply, never with what
    the handler threw. *)
Theorem handleRegisteredCommand_outcomes :
  forall (fuel : nat) (r : Registry) (st st' : State)
         (channel sender text prefix : JsString.t),
    (resolve_command toLowerCase r text prefix = None ->
     handleRegisteredCommand wake say toLowerCase show_thrown fuel r st
       channel sender text prefix = Some (st, Returns false))
    /\ (handleRegisteredCommand wake say toLowerCase show_thrown fuel r st
          channel sender text prefix = Some (st', Returns false) ->
        resolve_command toLowerCase r text prefix = None /\ st' = st)
    /\ (forall f,
          handleRegisteredCommand wake say toLowerCase show_thrown fuel r st
            channel sender text prefix = Some (st', Rejects f) ->
          exists err, f = SendFailure err).
Proof.
  intros fuel r st st' channel sender text prefix.
  unfold handleRegisteredCommand.
  destruct (resolve_command toLowerCase r text prefix)
    as [[[cmdName cmd] args]|].
  - split; [discriminate|].
    match goal with |- context [handler cmd ?c st] => set (ctx := c) end.
    destruct (handler cmd ctx st) as [[st1 [error|]]|].
    + cbn [cmd_reply ctx]. unfold reply_on.
      destruct (fst st1) as [m|].
      * match goal with |- context [manager_send wake say fuel m ?e ?c ?t] =>
          destruct (manager_send wake say fuel m e c t) as [[st2 [|f2]]|] eqn:E
        end.
        -- split; [discriminate|]. intros f H. discriminate.
        -- split; [discriminate|]. intros f H. inversion H; subst.
           eapply manager_send_failure. exact E.
        -- split; discriminate.
      * split; [discriminate|]. intros f H. discriminate.
    + split; [discriminate|]. intros f H. discriminate.
    + split; discriminate.
  - split; [reflexivity|]. split.
    + intros H. inversion H. split; reflexivity.
    + intros f H. discriminate.
Qed.

(** X22. Only a command registered under a name that is not empty, has no
    whitespace and equals its own lower-casing can be invoked by
    handleRegisteredCommand (for a toLowerCase that is idempotent and keeps
    whitespace-free strings so); the text then starts with the prefix and
    the arguments passed contain no whitespace. *)
Theorem resolve_command_reachable_names :
  forall (r : Registry) (text prefix n : JsString.t) (cmd : Command)
         (args : list JsString.t),
    registry_ok r ->
    (forall s, toLowerCase (toLowerCase s) = toLowerCase s) ->
    (forall s, no_ws s -> no_ws (toLowerCase s)) ->
    resolve_command toLowerCase r text prefix = Some (n, cmd, args) ->
    name cmd = n
    /\ toLowerCase (name cmd) = name cmd
    /\ name cmd <> []
    /\ no_ws (name cmd)
    /\ Forall no_ws args
    /\ startsWith text prefix = true.
Proof.
  intros r text prefix n cmd args [Hc _] Hidem Hws H.
  unfold resolve_command in H.
  destruct (startsWith text prefix) eqn:Es; cbn [negb] in H; [|discriminate].
  pose proof (split_ws_no_ws (slice text (len prefix) None)) as Hparts.
  destruct (split_ws (slice text (len prefix) None)) as [|part0 rest];
    [discriminate|].
  inversion Hparts as [|? ? Hp0 Hrest]; subst.
  destruct (toLowerCase part0) as [|c0 cs] eqn:El; [discriminate|].
  destruct (JsMap.get (c0 :: cs) (registeredCommands r)) as [found|] eqn:Eg;
    [|discriminate].
  inversion H; subst. clear H.
  destruct (well_keyed_get _ _ _ _ _ Hc Eg) as [Hname _].
  rewrite Hname. repeat split.
  - rewrite <- El. apply Hidem.
  - discriminate.
  - rewrite <- El. apply Hws. exact Hp0.
  - exact Hrest.
Qed.

(** X23. A text that does not start with the prefix, or in which the prefix
    is followed by whitespace or by nothing, is never handled as a command:
    handleRegisteredCommand returns false and changes nothing. *)
Theorem handleRegisteredCommand_needs_command_word :
  forall (fuel : nat) (r : Registry) (st : State)
         (channel sender text prefix : JsString.t),
    toLowerCase [] = [] ->
    startsWith text prefix = false
    \/ starts_ws (slice text (len prefix) None) = true
    \/ slice text (len prefix) None = [] ->
    handleRegisteredCommand wake say toLowerCase show_thrown fuel r st
      channel sender text prefix = Some (st, Returns false).
Proof.
  intros fuel r st channel sender text prefix Hnil H.
  unfold handleRegisteredCommand.
  assert (E : resolve_command toLowerCase r text prefix = None).
  { unfold resolve_command.
    destruct H as [H|[H|H]].
    - rewrite H. reflexivity.
    - destruct (startsWith text prefix); [|reflexivity]. cbn [negb].
      destruct (split_ws_starts_ws _ H) as (rest & ->). rewrite Hnil. reflexivity.
    - destruct (startsWith text prefix); [|reflexivity]. cbn [negb].
      rewrite H. cbn [split_ws]. rewrite Hnil. reflexivity. }
  rewrite E. reflexivity.
Qed.

(** A string that starts with a prefix is the prefix and the rest. *)
Lemma startsWith_split : forall s p,
  startsWith s p = true -> s = p ++ skipn (length p) s.
Proof.
  intros s p. revert s. induction p as [|x p IH]; intros s H; [reflexivity|].
  destruct s as [|c s]; [discriminate|].
  cbn [startsWith] in H. apply andb_true_iff in H. destruct H as [Hc Hs].
  apply N.eqb_eq in Hc. subst c. cbn [length skipn app]. f_equal.
  apply IH. exact Hs.
Qed.

(** Putting [#] before a channel name without its leading [#] gives the
    name back exactly when it had one. *)
Lemma hash_strip_prefix : forall channel,
  lit "#" ++ strip_prefix (lit "#") channel = channel
  <-> startsWith channel (lit "#") = true.
Proof.
  intros channel. unfold strip_prefix.
  destruct (startsWith channel (lit "#")) eqn:E.
  - split; [reflexivity|]. intros _. symmetry. apply startsWith_split. exact E.
  - split; [|discriminate]. intros H.
    apply (f_equal (@length _)) in H. rewrite length_app in H. cbn in H. lia.
Qed.

(** X24. The channel id a command or message context carries is
    twitch:<channel without its leading #>, and the provider's send on that
    id goes to '#' followed by the channel without its leading #, while the
    context's reply goes to the channel as given: the two agree exactly when
    the channel name starts with #; for a name without it, send goes to
    #<channel>, another channel than the reply's. Without a chat manager
    send rejects with 'not connected' while a context's reply resolves
    without sending. *)
Theorem send_channel_id :
  forall (fuel : nat) (r : Registry) (m : Manager ChatClient ApiClient)
         (e : Env Rejection Host)
         (channel sender text prefix content : JsString.t)
         (args : list JsString.t),
    let on : State := (Some m, e) in
    let off : State := (None, e) in
    let cmdCtx := command_context (Thrown := Thrown) wake say fuel channel
                    sender args in
    let msgCtx := parser_context (Thrown := Thrown) wake say fuel channel
                    sender text in
    let target := lit "#" ++ strip_prefix (lit "#") channel in
    (forall st,
       handleRegisteredCommand wake say toLowerCase show_thrown fuel r st
         channel sender text prefix
       = match resolve_command toLowerCase r text prefix with
         | None => Some (st, Returns false)
         | Some (cmdName, cmd, found) =>
             match handler cmd
                     (command_context wake say fuel channel sender found)
                     st with
             | None => None
             | Some (st1, None) => Some (st1, Returns true)
             | Some (st1, Some error) =>
                 match reply_on wake say fuel channel
                         (lit "Error executing " ++ prefix ++ cmdName
                            ++ lit ": " ++ show_thrown error) st1 with
                 | None => None
                 | Some (st2, Resolved) => Some (st2, Returns true)
                 | Some (st2, RejectedWith f) => Some (st2, Rejects f)
                 end
             end
         end)
    /\ cmd_channel cmdCtx = msg_channel msgCtx
    /\ send (Thrown := Thrown) wake say fuel on (cmd_channel cmdCtx) content
       = manager_send (Thrown := Thrown) wake say fuel m e target content
    /\ cmd_reply cmdCtx content on
       = manager_send (Thrown := Thrown) wake say fuel m e channel content
    /\ msg_reply msgCtx content on
       = manager_send (Thrown := Thrown) wake say fuel m e channel content
    /\ (target = channel <-> startsWith channel (lit "#") = true)
    /\ (startsWith channel (lit "#") = true ->
        send (Thrown := Thrown) wake say fuel on (cmd_channel cmdCtx) content
          = cmd_reply cmdCtx content on
        /\ send (Thrown := Thrown) wake say fuel on (msg_channel msgCtx) content
           = msg_reply msgCtx content on)
    /\ (startsWith channel (lit "#") = false ->
        target = lit "#" ++ channel /\ target <> channel)
    /\ send (Thrown := Thrown) wake say fuel off (cmd_channel cmdCtx) content
       = Some (off, RejectedWith (SendFailure TwitchChatManager.NotConnected))
    /\ cmd_reply cmdCtx content off = Some (off, Resolved)
    /\ msg_reply msgCtx content off = Some (off, Resolved).
Proof.
  intros fuel r m e channel sender text prefix content args
    on off cmdCtx msgCtx target.
  assert (Hsend : send (Thrown := Thrown) wake say fuel on (cmd_channel cmdCtx) content
                  = manager_send (Thrown := Thrown) wake say fuel m e target content).
  { unfold send, cmdCtx, command_context, target, on.
    cbn [fst snd cmd_channel]. rewrite strip_prefix_app. reflexivity. }
  split; [intros st; reflexivity|].
  split; [reflexivity|].
  split; [exact Hsend|].
  split; [reflexivity|]. split; [reflexivity|].
  split; [apply hash_strip_prefix|].
  split.
  - intros Hs. apply hash_strip_prefix in Hs.
    assert (E : send (Thrown := Thrown) wake say fuel on (cmd_channel cmdCtx) content
                = cmd_reply cmdCtx content on).
    { rewrite Hsend. unfold target. rewrite Hs. reflexivity. }
    split; exact E.
  - split.
    + intros Hs. assert (E : target = lit "#" ++ channel).
      { unfold target, strip_prefix. rewrite Hs. reflexivity. }
      split; [exact E|]. intros H. apply hash_strip_prefix in H. congruence.
    + repeat split.
Qed.

End ProviderUse.

(** * Properties of the connection, the listener and the plugin *)

Section ConnectClaims.

Import JsString JsText TwitchChat.

Variable wake : Z -> Z -> Z.
Variables ChatClient ApiClient Rejection Host Thrown : Type.
Variable say :
  ChatClient -> Z -> JsString.t -> JsString.t ->
  ChatClient * Z * option Rejection.
Variable open_connection :
  list JsString.t -> Z -> ChatClient * Z * option Thrown.

(** X25. connect stores the chat client made for the parsed channels before
    the connection is awaited and keeps the rate limiter: also after a
    connect that failed or timed out, sendMessage (positive capacity, timer
    never early) settles and never reports 'not connected'. *)
Theorem connect_stores_client_even_on_failure :
  forall (m : Manager ChatClient ApiClient) (e : Env Rejection Host)
         (fuel : nat) (channel text : JsString.t),
    let m' := fst (fst (connect open_connection m e)) in
    let e' := snd (fst (connect open_connection m e)) in
    (forall t d, t + d <= wake t d) ->
    0 < RateLimiter.maxTokens (TwitchChatManager.rateLimiter (core m)) ->
    TwitchChatManager.chatClient (core m')
      = Some (fst (fst (open_connection
                          (Channels.parseChannels (channels (config m)))
                          (clock e))))
    /\ TwitchChatManager.rateLimiter (core m')
       = TwitchChatManager.rateLimiter (core m)
    /\ exists m2 e2 out,
         sendMessage (Thrown := Thrown) wake say (S (S fuel)) m' e' channel text
           = Some (m2, e2, out)
         /\ out <> RejectedWith (SendFailure TwitchChatManager.NotConnected).
Proof.
  intros m e fuel channel text m' e' Hw Hm.
  assert (Hc : TwitchChatManager.chatClient (core m')
               = Some (fst (fst (open_connection
                                   (Channels.parseChannels (channels (config m)))
                                   (clock e))))
               /\ TwitchChatManager.rateLimiter (core m')
                  = TwitchChatManager.rateLimiter (core m)).
  { subst m'. unfold connect.
    destruct (open_connection _ (clock e)) as [[client t] [reason|]];
      split; reflexivity. }
  destruct Hc as [Hc Hrl]. split; [exact Hc|]. split; [exact Hrl|].
  destruct (sendMessage_connected wake _ _ _ say Hw fuel (core m') (clock e')
              channel text _ ltac:(rewrite Hrl; exact Hm) Hc)
    as (chunks & c' & rl' & t' & tr & out & Es & Esend & Hstop).
  unfold sendMessage. rewrite Esend. do 3 eexists. split; [reflexivity|].
  destruct Hstop as [[-> _]|(pre & ch & post & rej & _ & -> & _)];
    cbn [settle]; discriminate.
Qed.

End ConnectClaims.

Section EventSubClaims.

Import JsString JsText TwitchChat TwitchEventSubManager.

Variables EsApi Rejection Host Thrown : Type.
Variable show_number : Z -> JsString.t.
Variable show_thrown : Thrown -> JsString.t.
Variable inject :
  Host -> Z -> JsString.t -> JsString.t -> JsString.t -> ChannelRef ->
  Host * Z * (Thrown + JsString.t).
Variable updateRedemptionStatusByIds :
  EsApi -> Z -> JsString.t -> JsString.t -> list JsString.t -> JsString.t ->
  EsApi * Z * option Thrown.


End EventSubClaims.

Section PluginClaims.

Import JsString JsText TwitchChat Plugin.

Variables ChatClient ApiClient EsApi Rejection Host Thrown : Type.
Variable show_thrown : Thrown -> JsString.t.
Variable addUserForToken : Z -> Z * option Thrown.
Variable open_connection :
  list JsString.t -> Z -> ChatClient * Z * option Thrown.
Variable start_listener : Z -> EsApi * Z * option Thrown.
Variable wake : Z -> Z -> Z.
Variable whispers_sendWhisper :
  ApiClient -> Z -> JsString.t -> JsString.t -> JsString.t ->
  ApiClient * Z * option Rejection.

(** X27. init registers the configuration schema first; it registers the
    channel provider exactly when client id and access token are truthy, the
    channel list is not empty and addUserForToken resolves; it rejects
    exactly when addUserForToken rejects, never because connecting or the
    listener failed; when the provider is registered a chat manager is
    attached to it, and otherwise chat manager, provider and listener are
    left as they were. *)
Theorem init_registers_provider_iff :
  forall (s : State ChatClient ApiClient EsApi)
         (e : Env Rejection Host) (stored : option TwitchConfig),
    let config := match stored with Some c => c | None => empty_config end in
    let result :=
      init show_thrown addUserForToken open_connection start_listener
        s e stored in
    let s' := fst (fst result) in
    let configured :=
      TwitchChatManager.truthy (clientId config) <> None
      /\ TwitchChatManager.truthy (accessToken config) <> None
      /\ Channels.init_channels (channels config) <> [] in
    exists added,
      trace (snd (fst result))
        = trace e ++ RegisterConfigSchema (lit "wopr-plugin-twitch") :: added
      /\ (In RegisterChannelProvider added
          <-> configured /\ snd (addUserForToken (clock e)) = None)
      /\ (forall thrown,
            snd result = Some thrown
            <-> configured /\ snd (addUserForToken (clock e)) = Some thrown)
      /\ (In RegisterChannelProvider added ->
          chatManager s' <> None /\ provider_chatManager s' = true)
      /\ (~ In RegisterChannelProvider added ->
          chatManager s' = chatManager s
          /\ provider_chatManager s' = provider_chatManager s
          /\ eventSubManager s' = eventSubManager s).
Proof.
  intros s e stored config result s' configured.
  subst result s' configured. unfold init. fold config.
  cbn [emit clock host trace].
  destruct (TwitchChatManager.truthy (clientId config)) as [cid|] eqn:Ecid.
  2:{ eexists. simp_env. split; [rewrite <- app_assoc; reflexivity|].
      split; [split; [intros [H|[]]; discriminate | intros [[H _] _]; congruence]|].
      split; [intros x; split; [discriminate | intros [[H _] _]; congruence]|].
      split; [intros [H|[]]; discriminate | intros _; auto]. }
  destruct (TwitchChatManager.truthy (accessToken config)) as [tok|] eqn:Etok.
  2:{ eexists. simp_env. split; [rewrite <- app_assoc; reflexivity|].
      split; [split; [intros [H|[]]; discriminate
                     | intros [(_ & H & _) _]; congruence]|].
      split; [intros x; split; [discriminate
                               | intros [(_ & H & _) _]; congruence]|].
      split; [intros [H|[]]; discriminate | intros _; auto]. }
  destruct (Channels.init_channels (channels config)) as [|c0 chans] eqn:Ech.
  { eexists. simp_env. split; [rewrite <- app_assoc; reflexivity|].
    split; [split; [intros [H|[]]; discriminate
                   | intros [(_ & _ & H) _]; congruence]|].
    split; [intros x; split; [discriminate
                             | intros [(_ & _ & H) _]; congruence]|].
    split; [intros [H|[]]; discriminate | intros _; auto]. }
  destruct (addUserForToken (clock e)) as [t1 [err|]] eqn:Eadd;
    simp_env.
  { eexists. split; [rewrite <- app_assoc; reflexivity|].
    split; [split; [intros [H|[]]; discriminate | intros [_ H]; discriminate]|].
    split; [intros x; split;
            [intros H; inversion H; subst;
             split; [repeat split; discriminate | reflexivity]
            | intros [_ H]; exact H]|].
    split; [intros [H|[]]; discriminate | intros _; auto]. }
  unfold connect. cbn [TwitchChat.config with_channels channels
                        Channels.parseChannels clock host trace emit
                        TwitchChat.new core].
  destruct (open_connection (c0 :: chans) t1) as [[client t2] [reason|]];
    simp_env.
  { eexists. split; [rewrite <- !app_assoc; cbn [app]; reflexivity|].
    assert (Hin : In (@RegisterChannelProvider Rejection)
                    [AddUserForToken; OnRefresh; RegisterChannelProvider;
                     LogInfo (lit "Registered Twitch channel provider");
                     LogError (lit "Failed to connect to Twitch chat: "
                                 ++ show_thrown reason)])
      by (cbn; auto).
    split; [split; [intros _; repeat split; discriminate | intros _; exact Hin]|].
    split; [intros x; split; [discriminate | intros [_ H]; discriminate]|].
    split; [intros _; split; [discriminate | reflexivity]
           | intros H; elim (H Hin)]. }
  destruct (truthy_flag (enableChannelPoints config)).
  2:{ eexists. simp_env.
      split; [rewrite <- !app_assoc; cbn [app]; reflexivity|].
      match goal with |- (In _ ?l <-> _) /\ _ =>
        assert (Hin : In (@RegisterChannelProvider Rejection) l)
          by (cbn; auto) end.
      split; [split; [intros _; repeat split; discriminate | intros _; exact Hin]|].
      split; [intros x; split; [discriminate | intros [_ H]; discriminate]|].
      split; [intros _; split; [discriminate | reflexivity]
             | intros H; elim (H Hin)]. }
  destruct (TwitchChatManager.truthy (broadcasterId config)) as [b|].
  2:{ eexists. simp_env.
      split; [rewrite <- !app_assoc; cbn [app]; reflexivity|].
      match goal with |- (In _ ?l <-> _) /\ _ =>
        assert (Hin : In (@RegisterChannelProvider Rejection) l)
          by (cbn; auto) end.
      split; [split; [intros _; repeat split; discriminate | intros _; exact Hin]|].
      split; [intros x; split; [discriminate | intros [_ H]; discriminate]|].
      split; [intros _; split; [discriminate | reflexivity]
             | intros H; elim (H Hin)]. }
  unfold TwitchEventSubManager.start. cbn [clock host trace emit].
  destruct (start_listener t2) as [[api t3] [err|]];
    simp_env;
    ( eexists;
      split; [rewrite <- !app_assoc; cbn [app]; reflexivity|];
      match goal with |- (In _ ?l <-> _) /\ _ =>
        assert (Hin : In (@RegisterChannelProvider Rejection) l)
          by (cbn; auto) end;
      split; [split; [intros _; repeat split; discriminate | intros _; exact Hin]|];
      split; [intros x; split; [discriminate | intros [_ H]; discriminate]|];
      split; [intros _; split; [discriminate | reflexivity]
             | intros H; elim (H Hin)] ).
Qed.

(** The state [init] leaves, case by case. *)
Lemma init_state :
  forall (s : State ChatClient ApiClient EsApi)
         (e : Env Rejection Host) (stored : option TwitchConfig),
    fst (fst (init show_thrown addUserForToken open_connection start_listener
                s e stored))
    = let cfg := match stored with Some c => c | None => empty_config end in
      let unchanged :=
        {| pluginCtx := true; chatManager := chatManager s;
           provider_chatManager := provider_chatManager s;
           eventSubManager := eventSubManager s |} in
      match TwitchChatManager.truthy (clientId cfg),
            TwitchChatManager.truthy (accessToken cfg),
            Channels.init_channels (channels cfg),
            addUserForToken (clock e) with
      | Some _, Some _, c0 :: chans, (t1, None) =>
          let '(client, t2, r) := open_connection (c0 :: chans) t1 in
          {| pluginCtx := true;
             chatManager :=
               Some {| core :=
                         {| TwitchChatManager.chatClient := Some client;
                            TwitchChatManager.apiClient := None;
                            TwitchChatManager.botUserId := None;
                            TwitchChatManager.rateLimiter :=
                              RateLimiter.new RateLimiter.default_maxTokens
                                RateLimiter.default_refillIntervalMs t1 |};
                       botUsername := lit "unknown";
                       config := with_channels cfg (c0 :: chans) |};
             provider_chatManager := true;
             eventSubManager :=
               match r, truthy_flag (enableChannelPoints cfg),
                     TwitchChatManager.truthy (broadcasterId cfg) with
               | None, true, Some broadcaster =>
                   Some {| TwitchEventSubManager.listener := true;
                           TwitchEventSubManager.apiClient :=
                             Some (fst (fst (start_listener t2)));
                           TwitchEventSubManager.broadcasterId := broadcaster |}
               | _, _, _ => eventSubManager s
               end |}
      | _, _, _, _ => unchanged
      end.
Proof.
  intros s e stored. unfold init.
  set (cfg := match stored with Some c => c | None => empty_config end).
  cbv zeta.
  destruct (TwitchChatManager.truthy (clientId cfg)) as [cid|]; [|reflexivity].
  destruct (TwitchChatManager.truthy (accessToken cfg)) as [tok|]; [|reflexivity].
  destruct (Channels.init_channels (channels cfg)) as [|c0 chans];
    [reflexivity|].
  simp_env.
  destruct (addUserForToken (clock e)) as [t1 [err|]]; [reflexivity|].
  unfold connect. cbn [TwitchChat.config with_channels channels
                        Channels.parseChannels clock host trace emit
                        TwitchChat.new core with_core botUsername].
  destruct (open_connection (c0 :: chans) t1) as [[client t2] [reason|]];
    [reflexivity|].
  destruct (truthy_flag (enableChannelPoints cfg)); [|reflexivity].
  destruct (TwitchChatManager.truthy (broadcasterId cfg)) as [bid|]; [|reflexivity].
  unfold TwitchEventSubManager.start. simp_env.
  destruct (start_listener t2) as [[api t3] [err|]]; reflexivity.
Qed.

(** X28. The chat manager init creates has a chat client but no API client
    and no bot user id, keeps the user name 'unknown', and holds the parsed
    channels as an array: every sendWhisper on it is skipped with a warning
    and sends nothing. *)
Theorem init_manager_cannot_whisper :
  forall (s : State ChatClient ApiClient EsApi)
         (e : Env Rejection Host) (stored : option TwitchConfig)
         (m : Manager ChatClient ApiClient),
    let cfg := match stored with Some c => c | None => empty_config end in
    let s' :=
      fst (fst (init show_thrown addUserForToken open_connection
                  start_listener s e stored)) in
    chatManager s = None ->
    chatManager s' = Some m ->
    TwitchChatManager.apiClient (core m) = None
    /\ TwitchChatManager.botUserId (core m) = None
    /\ getBotUsername m = lit "unknown"
    /\ TwitchChatManager.chatClient (core m) <> None
    /\ channels (config m) = Channels.Arr (Channels.init_channels (channels cfg))
    /\ forall fuel now toUsername toUserId text,
         TwitchChatManager.sendWhisper wake whispers_sendWhisper fuel (core m)
           now toUsername toUserId text
         = Some (core m, now, [TwitchChatManager.WarnSkipped toUsername],
                 TwitchChatManager.Returned).
Proof.
  intros s e stored m cfg s' Hnone Hm. subst s'.
  rewrite init_state in Hm. fold cfg in Hm. cbv zeta in Hm.
  destruct (TwitchChatManager.truthy (clientId cfg)) as [cid|];
    [|cbn in Hm; congruence].
  destruct (TwitchChatManager.truthy (accessToken cfg)) as [tok|];
    [|cbn in Hm; congruence].
  destruct (Channels.init_channels (channels cfg)) as [|c0 chans];
    [cbn in Hm; congruence|].
  destruct (addUserForToken (clock e)) as [t1 [err|]];
    [cbn in Hm; congruence|].
  destruct (open_connection (c0 :: chans) t1) as [[client t2] r].
  cbn [chatManager] in Hm. inversion Hm; subst m; clear Hm.
  cbn [core botUsername config getBotUsername with_channels channels
       TwitchChatManager.apiClient TwitchChatManager.botUserId
       TwitchChatManager.chatClient].
  repeat split; try reflexivity; discriminate.
Qed.

(** X29. Starting from no listener, init creates the channel-point listener
    exactly when the provider was registered, the chat connection succeeded,
    enableChannelPoints is true and broadcasterId is truthy; the listener
    then has been started, has an API client and carries that broadcaster
    id, also when starting it failed. *)
Theorem init_eventsub_iff :
  forall (s : State ChatClient ApiClient EsApi)
         (e : Env Rejection Host) (stored : option TwitchConfig),
    let cfg := match stored with Some c => c | None => empty_config end in
    let s' :=
      fst (fst (init show_thrown addUserForToken open_connection
                  start_listener s e stored)) in
    let chans := Channels.init_channels (channels cfg) in
    let added := addUserForToken (clock e) in
    eventSubManager s = None ->
    (eventSubManager s' <> None
     <-> TwitchChatManager.truthy (clientId cfg) <> None
         /\ TwitchChatManager.truthy (accessToken cfg) <> None
         /\ chans <> []
         /\ snd added = None
         /\ snd (open_connection chans (fst added)) = None
         /\ enableChannelPoints cfg = Some true
         /\ TwitchChatManager.truthy (broadcasterId cfg) <> None)
    /\ forall es,
         eventSubManager s' = Some es ->
         TwitchEventSubManager.listener es = true
         /\ TwitchEventSubManager.apiClient es <> None
         /\ TwitchChatManager.truthy (broadcasterId cfg)
            = Some (TwitchEventSubManager.broadcasterId es).
Proof.
  intros s e stored cfg s' chans added Hnone. subst s' chans added.
  rewrite init_state. fold cfg. cbv zeta.
  destruct (TwitchChatManager.truthy (clientId cfg)) as [cid|];
    [|cbn [eventSubManager]; rewrite Hnone; split;
      [split; [congruence | intros [H _]; congruence] | discriminate]].
  destruct (TwitchChatManager.truthy (accessToken cfg)) as [tok|];
    [|cbn [eventSubManager]; rewrite Hnone; split;
      [split; [congruence | intros (_ & H & _); congruence] | discriminate]].
  destruct (Channels.init_channels (channels cfg)) as [|c0 chans];
    [cbn [eventSubManager]; rewrite Hnone; split;
      [split; [congruence | intros (_ & _ & H & _); congruence] | discriminate]|].
  destruct (addUserForToken (clock e)) as [t1 [err|]]; cbn [fst snd];
    [cbn [eventSubManager]; rewrite Hnone; split;
      [split; [congruence | intros (_ & _ & _ & H & _); congruence]
      | discriminate]|].
  destruct (open_connection (c0 :: chans) t1) as [[client t2] [reason|]];
    cbn [fst snd eventSubManager];
    [rewrite Hnone; split;
      [split; [congruence | intros (_ & _ & _ & _ & H & _); congruence]
      | discriminate]|].
  destruct (enableChannelPoints cfg) as [[|]|]; cbn [truthy_flag];
    try (rewrite Hnone; split;
         [split; [congruence | intros (_ & _ & _ & _ & _ & H & _); congruence]
         | discriminate]).
  destruct (TwitchChatManager.truthy (broadcasterId cfg)) as [b|];
    [|rewrite Hnone; split;
      [split; [congruence | intros (_ & _ & _ & _ & _ & _ & H); congruence]
      | discriminate]].
  split.
  - split; [intros _; repeat split; discriminate | discriminate].
  - intros es H. inversion H; subst es. cbn. repeat split. discriminate.
Qed.

(** X30. shutdown after init from the initial state returns the module to
    the initial state; it quits the chat client exactly when a manager was
    created and stops the listener exactly when one was created; it always
    ends by unregistering the provider 'twitch', also when init never
    registered it; a second shutdown does nothing. *)
Theorem init_then_shutdown :
  forall (e : Env Rejection Host) (stored : option TwitchConfig),
    let result :=
      init show_thrown addUserForToken open_connection start_listener
        (initial (ChatClient := ChatClient) (ApiClient := ApiClient)
                 (EsApi := EsApi)) e stored in
    let s' := fst (fst result) in
    let e' := snd (fst result) in
    fst (shutdown s' e') = initial
    /\ (exists mid,
          trace (snd (shutdown s' e'))
            = trace e' ++ mid ++ [UnregisterChannelProvider (lit "twitch")]
          /\ (In ChatQuit mid <-> chatManager s' <> None)
          /\ (In ListenerStop mid <-> eventSubManager s' <> None))
    /\ forall e2 : Env Rejection Host,
         shutdown (fst (shutdown s' e')) e2 = (initial, e2).
Proof.
  intros e stored result s' e'.
  assert (Hs : pluginCtx s' = true
               /\ (chatManager s' = None /\ provider_chatManager s' = false
                   \/ exists m client,
                        chatManager s' = Some m
                        /\ TwitchChatManager.chatClient (core m) = Some client)
               /\ (eventSubManager s' = None
                   \/ exists es, eventSubManager s' = Some es
                                 /\ TwitchEventSubManager.listener es = true)).
  { subst s' result. rewrite init_state. cbv zeta.
    set (cfg := match stored with Some c => c | None => empty_config end).
    destruct (TwitchChatManager.truthy (clientId cfg)) as [cid|]; [|cbn; auto].
    destruct (TwitchChatManager.truthy (accessToken cfg)) as [tok|]; [|cbn; auto].
    destruct (Channels.init_channels (channels cfg)) as [|c0 chans];
      [cbn; auto|].
    destruct (addUserForToken (clock e)) as [t1 [err|]]; [cbn; auto|].
    destruct (open_connection (c0 :: chans) t1) as [[client t2] r].
    cbn [pluginCtx chatManager provider_chatManager eventSubManager initial].
    split; [reflexivity|].
    split; [right; do 2 eexists; split; reflexivity|].
    destruct r; [left; reflexivity|].
    destruct (truthy_flag (enableChannelPoints cfg)); [|left; reflexivity].
    destruct (TwitchChatManager.truthy (broadcasterId cfg)) as [bid|];
      [right; eexists; split; reflexivity | left; reflexivity]. }
  clearbody s' e'. clear result.
  destruct s' as [ctx cm prov es]. cbn [pluginCtx chatManager
    provider_chatManager eventSubManager] in Hs.
  destruct Hs as (-> & Hcm & Hes).
  unfold shutdown. cbn [pluginCtx chatManager provider_chatManager
                          eventSubManager fst snd initial].
  assert (Hmid : forall (l : list (host_event Rejection)) x,
            (trace e' ++ l) ++ [x] = trace e' ++ l ++ [x])
    by (intros; rewrite <- app_assoc; reflexivity).
  destruct Hcm as [[-> ->]|(m & client & -> & Hc)];
    destruct Hes as [->|(es0 & -> & Hl)];
    unfold disconnect, TwitchEventSubManager.stop;
    rewrite ?Hc, ?Hl; simp_env.
  - split; [reflexivity|]. split; [|reflexivity].
    exists []. cbn [app]. split; [reflexivity|].
    split; (split; [intros [] | congruence]).
  - split; [reflexivity|]. split; [|reflexivity].
    exists [ListenerStop]. split; [rewrite <- app_assoc; reflexivity|].
    split; [split; [intros [H|[]]; discriminate | congruence]
           | split; [discriminate | cbn; auto]].
  - split; [reflexivity|]. split; [|reflexivity].
    exists [ChatQuit]. split; [rewrite <- app_assoc; reflexivity|].
    split; [split; [discriminate | cbn; auto]
           | split; [intros [H|[]]; discriminate | congruence]].
  - split; [reflexivity|]. split; [|reflexivity].
    exists [ListenerStop; ChatQuit].
    split; [rewrite <- !app_assoc; reflexivity|].
    split; (split; [discriminate | cbn; auto]).
Qed.

End PluginClaims.

(** * Examples *)

Section LimiterExamples.

Import RateLimiter Traffic.

(** Four calls within ten milliseconds on a bucket of two: the bound of
    twice the capacity is met. *)
Lemma admissions_in_short_span_witness :
  admitted (fst (tryConsumeAll [8; 9; 10; 11] (new 2 10 0)))
    <= tokens (new 2 10 0) + maxTokens (new 2 10 0)
  /\ admitted (fst (tryConsumeAll [8; 9; 10; 11] (new 2 10 0))) = 4.
Proof.
  split; [|reflexivity].
  apply (admissions_in_short_span (new 2 10 0) [8; 9; 10; 11] 8).
  - split; cbn; lia.
  - repeat constructor; cbn; lia.
Defined.

Lemma burst_across_window_boundary_witness :
  fst (tryConsumeAll
         (repeat (0 + 10 - 1) (Z.to_nat 2) ++ repeat (0 + 10) (Z.to_nat 2))
         (new 2 10 0))
    = repeat true (Z.to_nat 2 + Z.to_nat 2).
Proof. apply (burst_across_window_boundary 2 10 0); lia. Defined.

Lemma waitForToken_starves_without_capacity_witness :
  waitForToken wake_exact 50 0 (new 0 30000 0) = None.
Proof.
  apply (waitForToken_starves_without_capacity wake_exact 50 0 (new 0 30000 0));
    cbn; lia.
Defined.

Lemma setModeratorMode_grants_nothing_in_window_witness :
  tryConsumeAll [1; 2] (setModeratorMode true (new 1 30000 0))
    = (fst (tryConsumeAll [1; 2] (new 1 30000 0)),
       setModeratorMode true (snd (tryConsumeAll [1; 2] (new 1 30000 0))))
  /\ fst (tryConsumeAll [1; 2] (setModeratorMode true (new 1 30000 0)))
     = [true; false].
Proof.
  split; [|reflexivity].
  apply (setModeratorMode_grants_nothing_in_window true [1; 2] (new 1 30000 0)).
  repeat constructor; unfold in_window; cbn; lia.
Defined.

Lemma slow_sender_never_denied_witness :
  fst (tryConsumeAll [30000; 60000; 95000] (new 1 30000 0))
    = repeat true (length [30000; 60000; 95000]).
Proof.
  apply (slow_sender_never_denied [30000; 60000; 95000] (new 1 30000 0) 0).
  - cbn; lia.
  - cbn; lia.
  - cbn. repeat split; lia.
Defined.

End LimiterExamples.

Section SplitExamples.

Import JsString JsText TwitchChatManager.

Lemma split_chunks_not_tiny_witness :
  Forall (fun chunk => 3 * 10 <= 5 * len chunk)
    (removelast [lit "hello wond"; lit "erful worl"; lit "d of strea"; lit "ms"])
  /\ total_len [lit "hello wond"; lit "erful worl"; lit "d of strea"; lit "ms"]
     <= len (lit "hello wonderful world of streams")
  /\ 3 * 10
       * (Z.of_nat (length [lit "hello wond"; lit "erful worl";
                            lit "d of strea"; lit "ms"]) - 1)
     <= 5 * len (lit "hello wonderful world of streams").
Proof.
  apply (split_chunks_not_tiny (lit "hello wonderful world of streams") 10
           [lit "hello wond"; lit "erful worl"; lit "d of strea"; lit "ms"]).
  - lia.
  - vm_compute. reflexivity.
Defined.

Lemma split_chunk_shape_witness :
  [lit "one two"; lit "three"; lit "four fiv"; lit "e six"] <> []
  /\ (lit "one two three four five six" = [] ->
      [lit "one two"; lit "three"; lit "four fiv"; lit "e six"] = [[]])
  /\ (lit "one two three four five six" <> [] ->
      Forall (fun chunk => chunk <> [])
        [lit "one two"; lit "three"; lit "four fiv"; lit "e six"])
  /\ Forall (fun chunk => starts_ws chunk = false)
       (tl [lit "one two"; lit "three"; lit "four fiv"; lit "e six"]).
Proof.
  apply (split_chunk_shape (lit "one two three four five six") 8).
  - lia.
  - vm_compute. reflexivity.
Defined.

Lemma split_diverges_at_zero_maxLen_witness :
  splitMessagePublic_fuel 1000 (lit "a b") 0 = None.
Proof.
  apply (split_diverges_at_zero_maxLen (lit "a b") 1000).
  intros H. inversion H as [|c rest Hc Hrest]. vm_compute in Hc. discriminate Hc.
Defined.

End SplitExamples.

Section ChannelExamples.

Import JsString JsText Channels RoleMapper.

Lemma parseChannels_round_trip_witness :
  parseChannels (Str (join (lit ", ") [lit "alpha"; lit "beta"]))
    = [lit "alpha"; lit "beta"].
Proof.
  apply (parseChannels_round_trip [lit "alpha"; lit "beta"] (lit ", ")).
  - repeat constructor; try discriminate; vm_compute; intuition discriminate.
  - exists [], (lit " "). split; [constructor|].
    split; [repeat constructor | reflexivity].
Defined.

Lemma getRolePrefix_determines_roles_witness :
  let a := extractUserInfo (lit "1") (lit "alice") (lit "Alice")
             (Flags.mk true false false false [] None) in
  let b := extractUserInfo (lit "2") (lit "alice2") (lit "Alice")
             (Flags.mk true false false false [] (Some (lit "red"))) in
  isBroadcaster a = isBroadcaster b /\ isMod a = isMod b
  /\ isVip a = isVip b /\ isSubscriber a = isSubscriber b.
Proof.
  apply (getRolePrefix_determines_roles
           (extractUserInfo (lit "1") (lit "alice") (lit "Alice")
              (Flags.mk true false false false [] None))
           (extractUserInfo (lit "2") (lit "alice2") (lit "Alice")
              (Flags.mk true false false false [] (Some (lit "red")))));
    reflexivity.
Defined.

End ChannelExamples.

Section HandlerExamples.

Import JsString JsText TwitchChat Fixtures Room.


Lemma handleMessagePublic_silent_iff_own_witness :
  handleMessagePublic RateLimiter.wake_exact
    (TwitchChatManager.counting_say None) ascii_toLowerCase echo_inject
    0 manager env0 (lit "#Chan") (lit "Bot") (lit "hi") own
    = Some (manager, env0, Resolved)
  /\ (trace env0 = trace env0
      <-> ascii_toLowerCase (userName own)
          = ascii_toLowerCase (getBotUsername manager)).
Proof.
  split; [reflexivity|].
  exact (proj1 (handleMessagePublic_silent_iff_own RateLimiter.wake_exact
                  nat nat unit (TwitchChatManager.counting_say None)
                  ascii_toLowerCase unit unit echo_inject
                  0 manager manager env0 env0 (lit "#Chan") (lit "Bot")
                  (lit "hi") own Resolved eq_refl)).
Defined.

Lemma handleWhisperPublic_never_rejects_on_send_witness :
  exists m' e',
    handleWhisperPublic RateLimiter.wake_exact
      (TwitchChatManager.counting_whisper (Some 0%nat)) echo_inject
      show_failure 2 manager env0 (lit "alice") (lit "hi") viewer
    = Some (m', e', Resolved)
    /\ trace e'
       = [LogMessage (lit "twitch-whisper-1") (lit "hi") (lit "Alice")
            {| ref_type := lit "twitch"; ref_id := lit "twitch-whisper:1";
               ref_name := lit "Whisper from Alice" |};
          Inject (lit "twitch-whisper-1") (lit "[Alice]: hi") (lit "Alice")
            {| ref_type := lit "twitch"; ref_id := lit "twitch-whisper:1";
               ref_name := lit "Whisper from Alice" |};
          Transport TwitchChatManager.Admission;
          Transport (TwitchChatManager.Whisper (lit "bot") (lit "1")
                       (lit "[Alice]: hi") (Some tt));
          LogError (lit "Failed to send whisper to alice: Error")].
Proof.
  destruct (handleWhisperPublic_never_rejects_on_send RateLimiter.wake_exact
              nat nat unit (TwitchChatManager.counting_whisper (Some 0%nat))
              unit unit echo_inject show_failure 0 manager env0 (lit "alice")
              (lit "hi") viewer tt 0 (lit "[Alice]: hi")
              wake_exact_never_early eq_refl ltac:(discriminate) eq_refl)
    as (core' & t' & tr & out & Es & Eh & _).
  do 2 eexists. split; [exact Eh|].
  vm_compute in Es. inversion Es. subst. reflexivity.
Defined.

Lemma handleWhisperPublic_dropped_without_api_witness :
  exists e',
    handleWhisperPublic RateLimiter.wake_exact
      (TwitchChatManager.counting_whisper None) echo_inject
      show_failure 2 bare_manager env0 (lit "alice") (lit "hi") viewer
    = Some (bare_manager, e', Resolved)
    /\ In (Transport (TwitchChatManager.WarnSkipped (lit "alice"))) (trace e').
Proof.
  eexists. split.
  - apply (handleWhisperPublic_dropped_without_api RateLimiter.wake_exact
             nat nat unit (TwitchChatManager.counting_whisper None)
             unit unit echo_inject show_failure 2 bare_manager env0
             (lit "alice") (lit "hi") viewer tt 0 (lit "[Alice]: hi")
             ltac:(discriminate) (or_introl eq_refl) eq_refl).
  - cbn [trace]. apply in_or_app. right. right. right. left. reflexivity.
Defined.

End HandlerExamples.

Section ProviderExamples.

Import JsString JsText TwitchChat ChannelProvider Fixtures Room.

Lemma resolve_command_reachable_names_witness :
  resolve_command ascii_toLowerCase registry (lit "!Ping now please") (lit "!")
    = Some (lit "ping", ping, [lit "now"; lit "please"])
  /\ ascii_toLowerCase (name ping) = name ping
  /\ no_ws (name ping)
  /\ Forall no_ws [lit "now"; lit "please"].
Proof.
  split; [reflexivity|].
  destruct (resolve_command_reachable_names nat nat unit ascii_toLowerCase
              unit unit registry (lit "!Ping now please") (lit "!")
              (lit "ping") ping [lit "now"; lit "please"])
    as (_ & Hl & _ & Hn & Ha & _).
  - split; (split; [|repeat constructor]).
    + constructor; [intros [] | constructor].
    + constructor.
  - apply ascii_toLowerCase_idempotent.
  - apply ascii_toLowerCase_no_ws.
  - reflexivity.
  - repeat split; assumption.
Defined.

Lemma handleRegisteredCommand_needs_command_word_witness :
  handleRegisteredCommand RateLimiter.wake_exact
    (TwitchChatManager.counting_say None) ascii_toLowerCase show_unit 2
    registry (Some manager, env0) (lit "#chan") (lit "alice")
    (lit "! ping") (lit "!")
  = Some ((Some manager, env0), Returns false).
Proof.
  apply (handleRegisteredCommand_needs_command_word RateLimiter.wake_exact
           nat nat unit (TwitchChatManager.counting_say None)
           ascii_toLowerCase unit unit show_unit 2 registry
           (Some manager, env0) (lit "#chan") (lit "alice") (lit "! ping")
           (lit "!") eq_refl (or_intror (or_introl eq_refl))).
Defined.

End ProviderExamples.

Section PluginExamples.

Import JsString JsText TwitchChat Plugin Fixtures Room.

Lemma connect_stores_client_even_on_failure_witness :
  snd (connect open_timeout bare_manager env0) = Some tt
  /\ exists m2 e2 out,
       sendMessage (Thrown := unit) RateLimiter.wake_exact
         (TwitchChatManager.counting_say None) 2
         (fst (fst (connect open_timeout bare_manager env0)))
         (snd (fst (connect open_timeout bare_manager env0)))
         (lit "#alpha") (lit "hi")
       = Some (m2, e2, out)
       /\ out <> RejectedWith (SendFailure TwitchChatManager.NotConnected).
Proof.
  split; [reflexivity|].
  exact (proj2 (proj2
    (connect_stores_client_even_on_failure RateLimiter.wake_exact
       nat nat unit unit unit (TwitchChatManager.counting_say None)
       open_timeout bare_manager env0 0 (lit "#alpha") (lit "hi")
       wake_exact_never_early eq_refl))).
Defined.

Lemma init_manager_cannot_whisper_witness :
  match chatManager
          (fst (fst (init (ChatClient := nat) (ApiClient := nat)
                       (EsApi := nat) show_unit token_ok open_ok
                       listener_ok initial env0 (Some configured)))) with
  | Some m =>
      TwitchChatManager.apiClient (core m) = None
      /\ getBotUsername m = lit "unknown"
      /\ channels (config m) = Channels.Arr [lit "alpha"; lit "beta"]
  | None => False
  end.
Proof.
  destruct (chatManager
              (fst (fst (init (ChatClient := nat) (ApiClient := nat)
                           (EsApi := nat) show_unit token_ok open_ok
                           listener_ok initial env0 (Some configured)))))
    as [m|] eqn:E.
  - destruct (init_manager_cannot_whisper nat nat nat unit unit unit
                show_unit token_ok open_ok listener_ok
                RateLimiter.wake_exact
                (TwitchChatManager.counting_whisper None)
                initial env0 (Some configured) m eq_refl E)
      as (Ha & _ & Hn & _ & Hc & _).
    split; [exact Ha|]. split; [exact Hn | exact Hc].
  - vm_compute in E. discriminate E.
Defined.

Lemma init_eventsub_iff_witness :
  exists es,
    eventSubManager
      (fst (fst (init (ChatClient := nat) (ApiClient := nat) show_unit
                   token_ok open_ok listener_ok initial env0
                   (Some configured_points))))
      = Some es
    /\ TwitchEventSubManager.listener es = true
    /\ TwitchEventSubManager.broadcasterId es = lit "77".
Proof.
  destruct (init_eventsub_iff nat nat nat unit unit unit show_unit token_ok
              open_ok listener_ok initial env0 (Some configured_points)
              eq_refl) as [_ Hes].
  eexists. split; [reflexivity|].
  destruct (Hes _ eq_refl) as (Hl & _ & Hb).
  split; [exact Hl|]. cbn in Hb. inversion Hb. reflexivity.
Defined.

End PluginExamples.
